(** * A test DSL and its runner: suite registry, hook collector, runner, error normaliser

    Shallow embedding of [dsl.ts] (registry, [collectHooks], [runHooks];
    file [src/unnamed/part_000]), [runner.ts] ([parseError], [getTestList],
    [runTests]; the second half of [src/src/assertion.ts]) and [types.ts];
    of [deepEqual] and the matchers of [assertion.ts] that a value decides
    by itself; and of the exit code of [scripts/run-tests.ts].

    Conventions of the embedding.
    - JavaScript strings are [string]s of Latin-1 code units.
    - A hook or a test body is a function on the state [W] it can touch
      (everything but the registry and the runner's own variables); it either
      settles normally or throws a value.  [await] is sequencing: the runner
      never starts an action before the previous one has settled.
    - A thrown value is a [JsValue]: what [parseError] can observe of it.
    - The [parent] pointer of a block is not a field of the tree: a block is
      handed around together with the list of its ancestors.
    - The two run-time flags of a block live in two finite sets keyed by the
      block's position in the tree. *)

From Stdlib Require Import ZArith Ascii String.
From stdpp Require Import base list strings gmap.

#[local] Set Warnings "-clear-no-such-hyp".

Local Open Scope Z_scope.

(** ** JavaScript values as far as the normaliser can tell them apart *)

Module Js.

(** The [stack] property of an error object.  [StackNotString] is a truthy
    value without a [split] method (a number, a plain object). *)
Inductive StackValue :=
| StackAbsent
| StackString (s : string)
| StackNotString.

(** - [JsErrorObject]: [e instanceof Error] holds;
    - [JsNonError s]: any other value, [String(e)] is [s];
    - [JsUnprintable t]: any other value on which [String(e)] throws [t]
      (an object without [toString] and [valueOf], such as
      [Object.create(null)], or one whose [toString] throws). *)
Inductive JsValue :=
| JsErrorObject (name message : string) (stack : StackValue)
| JsNonError (str : string)
| JsUnprintable (thrown : JsValue).

(** Completion of a call: a value, or a thrown one. *)
Inductive Completion (A : Type) :=
| Normal (a : A)
| Abrupt (v : JsValue).
Global Arguments Normal {A} a.
Global Arguments Abrupt {A} v.

Definition cbind {A B} (c : Completion A) (f : A → Completion B) : Completion B :=
  match c with
  | Normal a => f a
  | Abrupt v => Abrupt v
  end.

Definition TypeError (msg : string) : JsValue :=
  JsErrorObject "TypeError" msg StackAbsent.

(** [Error.prototype.toString]. *)
Definition errorToString (name message : string) : string :=
  if String.eqb name "" then message
  else if String.eqb message "" then name
  else name +:+ ": " +:+ message.

(** [String(e)]. *)
Definition String_ (e : JsValue) : Completion string :=
  match e with
  | JsErrorObject name message _ => Normal (errorToString name message)
  | JsNonError s => Normal s
  | JsUnprintable t => Abrupt t
  end.

(** *** Characters and strings *)

Definition code (c : ascii) : nat := nat_of_ascii c.

Definition between (lo hi : nat) (c : ascii) : bool :=
  (lo <=? code c)%nat && (code c <=? hi)%nat.

Definition isDigit (c : ascii) : bool := between 48 57 c.
Definition isUpper (c : ascii) : bool := between 65 90 c.
Definition isLower (c : ascii) : bool := between 97 122 c.

(** [\w] *)
Definition isWord (c : ascii) : bool :=
  isDigit c || isUpper c || isLower c || (code c =? 95)%nat.

(** [\s], and what [trim] removes: TAB, LF, VT, FF, CR, SP, NBSP. *)
Definition isSpace (c : ascii) : bool :=
  between 9 13 c || (code c =? 32)%nat || (code c =? 160)%nat.

(** [.]: anything but a line terminator. *)
Definition isDot (c : ascii) : bool :=
  negb ((code c =? 10)%nat || (code c =? 13)%nat).

Definition isNotColon (c : ascii) : bool := negb (code c =? 58)%nat.

Definition chars (s : string) : list ascii := list_ascii_of_string s.
Definition str (l : list ascii) : string := string_of_list_ascii l.

Fixpoint dropWhile {A} (p : A → bool) (l : list A) : list A :=
  match l with
  | [] => []
  | x :: l' => if p x then dropWhile p l' else l
  end.

(** [s.trim()] *)
Definition trim (s : string) : string :=
  str (rev (dropWhile isSpace (rev (dropWhile isSpace (chars s))))).

(** [s.split('\n')] *)
Fixpoint splitLines (cur : list ascii) (l : list ascii) : list string :=
  match l with
  | [] => [str (rev cur)]
  | c :: l' =>
      if (code c =? 10)%nat then str (rev cur) :: splitLines [] l'
      else splitLines (c :: cur) l'
  end.

Definition split_newline (s : string) : list string := splitLines [] (chars s).

Fixpoint isPrefix (p l : list ascii) : bool :=
  match p, l with
  | [], _ => true
  | a :: p', b :: l' => Ascii.eqb a b && isPrefix p' l'
  | _ :: _, [] => false
  end.

(** [s.startsWith(p)], [s.endsWith(p)], [s.includes(p)] *)
Definition startsWith (s p : string) : bool := isPrefix (chars p) (chars s).
Definition endsWith (s p : string) : bool := isPrefix (rev (chars p)) (rev (chars s)).

Fixpoint includesFrom (p l : list ascii) : bool :=
  isPrefix p l ||
  match l with
  | [] => false
  | _ :: l' => includesFrom p l'
  end.

Definition includes (s p : string) : bool := includesFrom (chars p) (chars s).

(** *** Numbers

    A number is NaN, an infinity or a finite double, the latter by its
    value [mantissa * 2 ^ exponent]; the two zeros are one value for
    [===], [<] and truthiness. *)
Inductive Number :=
| NaN
| Infinity (negative : bool)
| Finite (mantissa exponent : Z).

(** The number nearest to the natural number [n]: [n] itself below
    [2^53]; above, the nearest multiple of the power of two that leaves a
    mantissa of 53 bits, the one with the even mantissa when [n] is half
    way; [Infinity] when that is [2^1024] or more. *)
Definition roundToDouble (n : Z) : Number :=
  if n <? 2 ^ 53 then Finite n 0
  else
    let exponent := Z.log2 n - 52 in
    let mantissa := Z.shiftr n exponent in
    let rest := n - Z.shiftl mantissa exponent in
    let half := 2 ^ (exponent - 1) in
    let rounded :=
      if (half <? rest) || ((rest =? half) && Z.odd mantissa) then mantissa + 1
      else mantissa in
    if 2 ^ 1024 <=? Z.shiftl rounded exponent then Infinity false
    else Finite rounded exponent.

(** [parseInt(s, 10)] on a string of digits: the number nearest to the
    integer the digits denote. *)
Definition digitValue (c : ascii) : Z := Z.of_nat (code c - 48).

Definition parseInt (s : string) : Number :=
  roundToDouble (fold_left (fun acc c => 10 * acc + digitValue c) (chars s) 0).

(** [a.join(sep)] *)
Fixpoint join (sep : string) (l : list string) : string :=
  match l with
  | [] => ""
  | [x] => x
  | x :: l' => x +:+ sep +:+ join sep l'
  end.

End Js.
Export Js.

(** ** Regular expressions: the fragment the stack-frame patterns use *)

Module Regex.

Inductive Regex :=
| Lit (c : ascii)
| Class (p : ascii → bool)                   (* one character of a class *)
| WordBoundary                               (* \b *)
| Plus (greedy : bool) (p : ascii → bool)    (* p+  and  p+? *)
| Group (r : Regex)                          (* ( r ) *)
| Seq (r1 r2 : Regex)
| Eps.

(** What remains to be matched: previous character, rest of the input,
    the groups captured so far. *)
Definition Cont := option ascii → list ascii → list string → option (list string).

Definition wordAt (c : option ascii) : bool :=
  match c with
  | Some c => isWord c
  | None => false
  end.

(** One or more characters of class [p]; the greedy form tries the longest
    run first, the lazy form the shortest. *)
Fixpoint plus (greedy : bool) (p : ascii → bool) (s : list ascii)
    (caps : list string) (k : Cont) : option (list string) :=
  match s with
  | [] => None
  | c :: s' =>
      if p c then
        if greedy then
          match plus greedy p s' caps k with
          | Some r => Some r
          | None => k (Some c) s' caps
          end
        else
          match k (Some c) s' caps with
          | Some r => Some r
          | None => plus greedy p s' caps k
          end
      else None
  end.

(** The characters consumed between input [s] and its suffix [s']. *)
Definition consumed (s s' : list ascii) : string :=
  str (take (length s - length s') s).

(** Backtracking matcher anchored at the current position. *)
Fixpoint matchAt (r : Regex) (prev : option ascii) (s : list ascii)
    (caps : list string) (k : Cont) : option (list string) :=
  match r with
  | Lit c =>
      match s with
      | c' :: s' => if Ascii.eqb c c' then k (Some c') s' caps else None
      | [] => None
      end
  | Class p =>
      match s with
      | c' :: s' => if p c' then k (Some c') s' caps else None
      | [] => None
      end
  | WordBoundary =>
      if xorb (wordAt prev) (wordAt (head s)) then k prev s caps else None
  | Plus greedy p => plus greedy p s caps k
  | Group r1 =>
      matchAt r1 prev s caps
        (fun prev' s' caps' => k prev' s' (caps' ++ [consumed s s']))
  | Seq r1 r2 =>
      matchAt r1 prev s caps (fun prev' s' caps' => matchAt r2 prev' s' caps' k)
  | Eps => k prev s caps
  end.

(** [re.exec(s)]: the leftmost match; the result lists the groups
    [m[1]], [m[2]], ... *)
Fixpoint execFrom (r : Regex) (prev : option ascii) (s : list ascii)
    : option (list string) :=
  match matchAt r prev s [] (fun _ _ caps => Some caps) with
  | Some caps => Some caps
  | None =>
      match s with
      | [] => None
      | c :: s' => execFrom r (Some c) s'
      end
  end.

Definition exec (r : Regex) (s : string) : option (list string) :=
  execFrom r None (chars s).

Definition lit (s : string) : Regex :=
  fold_right (fun c r => Seq (Lit c) r) Eps (chars s).

Definition seqs (l : list Regex) : Regex := fold_right Seq Eps l.

Definition backslash : ascii := ascii_of_nat 92.

Definition colon : ascii := ascii_of_nat 58.

(** [[A-Z]:\\[^:]+] *)
Definition windowsPath : Regex :=
  seqs [Class isUpper; Lit colon; Lit backslash; Plus true isNotColon].

(** [file:\/\/\/(.+?)] without the group *)
Definition fileUrlPrefix : Regex := lit "file:///".

(** [:(\d+):(\d+)] *)
Definition lineAndColumn : Regex :=
  seqs [Lit colon; Group (Plus true isDigit); Lit colon; Group (Plus true isDigit)].

(** [\bat\s+] *)
Definition atPrefix : Regex := seqs [WordBoundary; lit "at"; Plus true isSpace].

(** Pattern 1: [/\bat\s+file:\/\/\/(.+?):(\d+):(\d+)/] *)
Definition pattern1 : Regex :=
  seqs [atPrefix; fileUrlPrefix; Group (Plus false isDot); lineAndColumn].

(** Pattern 2: [/\bat\s+([A-Z]:\\[^:]+):(\d+):(\d+)/] *)
Definition pattern2 : Regex :=
  seqs [atPrefix; Group windowsPath; lineAndColumn].

(** Pattern 3: [/\bat\s+.+?\s+\(([A-Z]:\\[^:]+):(\d+):(\d+)\)/] *)
Definition pattern3 : Regex :=
  seqs [atPrefix; Plus false isDot; Plus true isSpace; lit "(";
        Group windowsPath; lineAndColumn; lit ")"].

(** Pattern 4: [/\bat\s+.+?\s+\(file:\/\/\/(.+?):(\d+):(\d+)\)/] *)
Definition pattern4 : Regex :=
  seqs [atPrefix; Plus false isDot; Plus true isSpace; lit "("; fileUrlPrefix;
        Group (Plus false isDot); lineAndColumn; lit ")"].

End Regex.

(** ** [types.ts] *)

Module Types.

Record SafeError := mkSafeError {
  se_name : option string;
  se_message : string;
  se_file : option string;
  se_line : option Number;
  se_column : option Number;
  se_stack : option (list string)
}.

Inductive TestStatus := passed | failed | skipped.

Record TestResult := mkTestResult {
  tr_suite : string;
  tr_test : string;
  tr_status : TestStatus;
  tr_duration : Z;
  tr_error : option SafeError
}.

(** A hook or a test body: [() => void | Promise<void>], run to
    settlement; [Some v] when it throws (or rejects with) [v]. *)
Definition HookFn (W : Type) := W → option JsValue * W.
Definition TestFn (W : Type) := W → option JsValue * W.

(** [describeBlock], the link back to the owning block, is the block whose
    [tests] list holds the test case ([it] pushes the test on the very
    block it stores in [describeBlock]). *)
Record TestCase (W : Type) := mkTestCase {
  tc_name : string;
  tc_fn : TestFn W;
  tc_tags : list string
}.
Global Arguments mkTestCase {W} _ _ _.
Global Arguments tc_name {W} _.
Global Arguments tc_fn {W} _.
Global Arguments tc_tags {W} _.

(** [parent] is the next block of the ancestor list a block travels with;
    [ranBeforeAll] and [executed] are kept in [RunState]. *)
#[warnings="-register-all"]
Inductive DescribeBlock (W : Type) := mkDescribeBlock {
  name : string;
  children : list (DescribeBlock W);
  tests : list (TestCase W);
  beforeAllHooks : list (HookFn W);
  beforeEachHooks : list (HookFn W);
  afterEachHooks : list (HookFn W);
  afterAllHooks : list (HookFn W)
}.
Global Arguments mkDescribeBlock {W} _ _ _ _ _ _ _.
Global Arguments name {W} _.
Global Arguments children {W} _.
Global Arguments tests {W} _.
Global Arguments beforeAllHooks {W} _.
Global Arguments beforeEachHooks {W} _.
Global Arguments afterEachHooks {W} _.
Global Arguments afterAllHooks {W} _.

(** A block is identified by its position: the index among its parent's
    children, then the parent's position; the root is [[]]. *)
Definition BlockId := list nat.

End Types.
Export Types.

(** ** The error normaliser ([parseError] of runner.ts) *)

Module ErrorNormalizer.

Record StackFrame := mkStackFrame {
  sf_file : string;
  sf_line : Number;
  sf_column : Number;
  isTestFile : bool
}.

(** [!file] *)
Definition noFile (file : option string) : bool :=
  match file with
  | None => true
  | Some f => String.eqb f ""
  end.

(** [m[i]]: group [i] of a match. *)
Definition group (m : list string) (i : nat) : string := default "" (m !! (i - 1)%nat).

Definition Found : Type := option string * option Number * option Number.

(** [m = re.exec(frameLine); if (m) { file = m[1]; line = ...; column = ... }] *)
Definition tryPattern (re : Regex.Regex) (frameLine : string) (cur : Found) : Found :=
  match Regex.exec re frameLine with
  | Some m => (Some (group m 1), Some (parseInt (group m 2)), Some (parseInt (group m 3)))
  | None => cur
  end.

Definition tryPatternIfNoFile (re : Regex.Regex) (frameLine : string) (cur : Found) : Found :=
  if noFile (cur.1.1) then tryPattern re frameLine cur else cur.

(** The body of [for (const frameLine of lines)]. *)
Definition scanFrameLine (frames : list StackFrame) (frameLine : string) : list StackFrame :=
  if negb (startsWith frameLine "at ") then frames
  else
    let found :=
      tryPatternIfNoFile Regex.pattern4 frameLine
        (tryPatternIfNoFile Regex.pattern3 frameLine
          (tryPatternIfNoFile Regex.pattern2 frameLine
            (tryPattern Regex.pattern1 frameLine (None, None, None)))) in
    match found with
    | (Some file, Some line, Some column) =>
        if String.eqb file "" then frames
        else
          let isTest := includes file "\test\" || includes file "/test/"
                        || endsWith file ".test.ts" in
          frames ++ [mkStackFrame file line column isTest]
    | _ => frames
    end.

(** The comparator given to [frames.sort]. *)
Definition compareFrames (a b : StackFrame) : Z :=
  if isTestFile a && negb (isTestFile b) then -1
  else if negb (isTestFile a) && isTestFile b then 1
  else 0.

(** [Array.prototype.sort] is stable: insertion after the elements that
    do not compare greater. *)
Fixpoint insertFrame (x : StackFrame) (l : list StackFrame) : list StackFrame :=
  match l with
  | [] => [x]
  | y :: l' => if compareFrames x y <? 0 then x :: l else y :: insertFrame x l'
  end.

Definition sortFrames (frames : list StackFrame) : list StackFrame :=
  fold_left (fun sorted x => insertFrame x sorted) frames [].

(** [stack ? stack.split('\n').map(l => l.trim()) : []] *)
Definition stackLines (stack : StackValue) : Completion (list string) :=
  match stack with
  | StackAbsent => Normal []
  | StackString s =>
      if String.eqb s "" then Normal [] else Normal (map trim (split_newline s))
  | StackNotString => Abrupt (TypeError "stack.split is not a function")
  end.

(** The [try] block. *)
Definition parseErrorTry (e : JsValue) : Completion SafeError :=
  match e with
  | JsErrorObject name message stack =>
      cbind (stackLines stack) (fun lines =>
        let frames := sortFrames (fold_left scanFrameLine lines []) in
        match head frames with
        | Some bestFrame =>
            let correctedLine := sf_line bestFrame in
            Normal (mkSafeError (Some name) message (Some (sf_file bestFrame))
                      (Some correctedLine) (Some (sf_column bestFrame)) (Some lines))
        | None => Normal (mkSafeError (Some name) message None None None (Some lines))
        end)
  | _ =>
      cbind (String_ e) (fun s => Normal (mkSafeError None s None None None None))
  end.

(** [try { ... } catch { return { message: `Unknown error (${String(e)})` } }] *)
Definition parseError (e : JsValue) : Completion SafeError :=
  match parseErrorTry e with
  | Normal r => Normal r
  | Abrupt _ =>
      cbind (String_ e) (fun s =>
        Normal (mkSafeError None ("Unknown error (" +:+ s +:+ ")") None None None None))
  end.

End ErrorNormalizer.
Export ErrorNormalizer.

(** ** The registry and the helpers of the runner ([dsl.ts]) *)

Module Dsl.

Inductive HookType := BeforeAll | BeforeEach | AfterEach | AfterAll.

Section WithWorld.
Context {W : Type}.

(** The module-level state: the tree under [rootDescribeBlock] and the
    cursor [currentDescribeBlock] ([None] stands for a null cursor, the
    case the guards of [it] and of the hook registrations test for). *)
Record Registry := mkRegistry {
  rootDescribeBlock : DescribeBlock W;
  currentDescribeBlock : option BlockId
}.

(** A registration call: it changes the registry and may throw. *)
Definition Reg (A : Type) := Registry → Completion A * Registry.

Definition createDescribeBlock (name : string) : DescribeBlock W :=
  mkDescribeBlock name [] [] [] [] [] [].

(** [rootDescribeBlock = createDescribeBlock('Root', null)] and
    [currentDescribeBlock = rootDescribeBlock]. *)
Definition initialRegistry : Registry :=
  mkRegistry (createDescribeBlock "Root") (Some []).

(** The block at a position, read from the root down ([path] is the
    position reversed). *)
Fixpoint blockAt (path : list nat) (b : DescribeBlock W) : option (DescribeBlock W) :=
  match path with
  | [] => Some b
  | i :: path' =>
      match children b !! i with
      | Some c => blockAt path' c
      | None => None
      end
  end.

(** In-place update of the block at a position. *)
Fixpoint alterBlock (f : DescribeBlock W → DescribeBlock W) (path : list nat)
    (b : DescribeBlock W) : DescribeBlock W :=
  match path with
  | [] => f b
  | i :: path' =>
      mkDescribeBlock (name b) (alter (alterBlock f path') i (children b)) (tests b)
        (beforeAllHooks b) (beforeEachHooks b) (afterEachHooks b) (afterAllHooks b)
  end.

Definition pushChild (c : DescribeBlock W) (b : DescribeBlock W) : DescribeBlock W :=
  mkDescribeBlock (name b) (children b ++ [c]) (tests b)
    (beforeAllHooks b) (beforeEachHooks b) (afterEachHooks b) (afterAllHooks b).

Definition pushTest (t : TestCase W) (b : DescribeBlock W) : DescribeBlock W :=
  mkDescribeBlock (name b) (children b) (tests b ++ [t])
    (beforeAllHooks b) (beforeEachHooks b) (afterEachHooks b) (afterAllHooks b).

Definition hooksOf (type : HookType) (b : DescribeBlock W) : list (HookFn W) :=
  match type with
  | BeforeAll => beforeAllHooks b
  | BeforeEach => beforeEachHooks b
  | AfterEach => afterEachHooks b
  | AfterAll => afterAllHooks b
  end.

Definition pushHook (type : HookType) (fn : HookFn W) (b : DescribeBlock W)
    : DescribeBlock W :=
  match type with
  | BeforeAll =>
      mkDescribeBlock (name b) (children b) (tests b)
        (beforeAllHooks b ++ [fn]) (beforeEachHooks b) (afterEachHooks b) (afterAllHooks b)
  | BeforeEach =>
      mkDescribeBlock (name b) (children b) (tests b)
        (beforeAllHooks b) (beforeEachHooks b ++ [fn]) (afterEachHooks b) (afterAllHooks b)
  | AfterEach =>
      mkDescribeBlock (name b) (children b) (tests b)
        (beforeAllHooks b) (beforeEachHooks b) (afterEachHooks b ++ [fn]) (afterAllHooks b)
  | AfterAll =>
      mkDescribeBlock (name b) (children b) (tests b)
        (beforeAllHooks b) (beforeEachHooks b) (afterEachHooks b) (afterAllHooks b ++ [fn])
  end.

(** [name.replace(/@\w+/g, match => { tags.push(match.slice(1)); return '' })]:
    [tag] is [Some t] while the scan is inside a candidate match, [t] the
    word characters read after the [@] (latest first). *)
Fixpoint scanTags (l : list ascii) (tag : option (list ascii))
    (out : list ascii) (tags : list string) : list ascii * list string :=
  match l with
  | [] =>
      match tag with
      | None => (rev out, tags)
      | Some [] => (rev ("@"%char :: out), tags)
      | Some t => (rev out, tags ++ [str (rev t)])
      end
  | c :: l' =>
      match tag with
      | None =>
          if Ascii.eqb c "@" then scanTags l' (Some []) out tags
          else scanTags l' None (c :: out) tags
      | Some t =>
          if isWord c then scanTags l' (Some (c :: t)) out tags
          else
            let out1 := match t with [] => "@"%char :: out | _ => out end in
            let tags1 := match t with [] => tags | _ => tags ++ [str (rev t)] end in
            if Ascii.eqb c "@" then scanTags l' (Some []) out1 tags1
            else scanTags l' None (c :: out1) tags1
      end
  end.

Definition extractTags (name : string) : string * list string :=
  let '(clean, tags) := scanTags (chars name) None [] [] in
  (trim (str clean), tags).

Definition referenceError (what : string) : JsValue :=
  JsErrorObject "Error" what StackAbsent.

(** [describe(name, fn)] *)
Definition describe (name : string) (fn : Reg unit) : Reg unit :=
  fun st =>
    match currentDescribeBlock st with
    | None => (Abrupt (TypeError "Cannot read properties of null"), st)
    | Some parent =>
        let blockName := (extractTags name).1 in
        let newBlock := createDescribeBlock blockName in
        let index :=
          match blockAt (rev parent) (rootDescribeBlock st) with
          | Some p => length (children p)
          | None => 0%nat
          end in
        let st1 :=
          mkRegistry (alterBlock (pushChild newBlock) (rev parent) (rootDescribeBlock st))
                     (Some (index :: parent)) in
        (* try { fn() } finally { currentDescribeBlock = parent } *)
        let '(r, st2) := fn st1 in
        (r, mkRegistry (rootDescribeBlock st2) (Some parent))
    end.

(** [it(name, fn)] *)
Definition it (name : string) (fn : TestFn W) : Reg unit :=
  fun st =>
    match currentDescribeBlock st with
    | None =>
        (Abrupt (referenceError
           "Cannot call 'it' outside of a 'describe' block (or globally if supported)."),
         st)
    | Some current =>
        let '(testName, testTags) := extractTags name in
        let testCase := mkTestCase testName fn testTags in
        (Normal tt,
         mkRegistry (alterBlock (pushTest testCase) (rev current) (rootDescribeBlock st))
                    (currentDescribeBlock st))
    end.

Definition registerHook (type : HookType) (what : string) (fn : HookFn W) : Reg unit :=
  fun st =>
    match currentDescribeBlock st with
    | None => (Abrupt (referenceError what), st)
    | Some current =>
        (Normal tt,
         mkRegistry (alterBlock (pushHook type fn) (rev current) (rootDescribeBlock st))
                    (currentDescribeBlock st))
    end.

Definition beforeAll : HookFn W → Reg unit :=
  registerHook BeforeAll "Cannot call 'beforeAll' outside of a 'describe' block.".
Definition beforeEach : HookFn W → Reg unit :=
  registerHook BeforeEach "Cannot call 'beforeEach' outside of a 'describe' block.".
Definition afterEach : HookFn W → Reg unit :=
  registerHook AfterEach "Cannot call 'afterEach' outside of a 'describe' block.".
Definition afterAll : HookFn W → Reg unit :=
  registerHook AfterAll "Cannot call 'afterAll' outside of a 'describe' block.".

(** Statements of a registration script, one after the other; a throw
    ends the script. *)
Fixpoint script (l : list (Reg unit)) : Reg unit :=
  fun st =>
    match l with
    | [] => (Normal tt, st)
    | c :: l' =>
        match c st with
        | (Normal _, st1) => script l' st1
        | (Abrupt v, st1) => (Abrupt v, st1)
        end
    end.

(** *** Helpers of the runner

    A block is passed as the list [chain] made of the block, its parent,
    ..., the root: [current.parent] is the tail of the list and [null]
    the empty list. *)

(** [while (current && current.parent) { path.unshift(current.name); ... }] *)
Fixpoint suitePathLoop (current : list (DescribeBlock W)) (path : list string)
    : list string :=
  match current with
  | b :: ((_ :: _) as parent) => suitePathLoop parent (name b :: path)
  | _ => path
  end.

Definition getSuitePath (chain : list (DescribeBlock W)) : string :=
  join " > " (suitePathLoop chain []).

(** [while (current) { blockChain.push(current); current = current.parent }] *)
Fixpoint walkUp (current : list (DescribeBlock W)) (blockChain : list (DescribeBlock W))
    : list (DescribeBlock W) :=
  match current with
  | [] => blockChain
  | b :: parent => walkUp parent (blockChain ++ [b])
  end.

Definition hooksAt (type : HookType) (blockChain : list (DescribeBlock W)) (i : nat)
    : list (HookFn W) :=
  match blockChain !! i with
  | Some b => hooksOf type b
  | None => []
  end.

(** [for (let i = blockChain.length - 1; i >= 0; i--)], entered with
    [n = i + 1]. *)
Fixpoint outermostFirst (type : HookType) (blockChain : list (DescribeBlock W))
    (n : nat) (hooks : list (HookFn W)) : list (HookFn W) :=
  match n with
  | O => hooks
  | S i => outermostFirst type blockChain i (hooks ++ hooksAt type blockChain i)
  end.

(** [for (let i = 0; i < blockChain.length; i++)], with [todo] the
    number of iterations left. *)
Fixpoint innermostFirst (type : HookType) (blockChain : list (DescribeBlock W))
    (todo i : nat) (hooks : list (HookFn W)) : list (HookFn W) :=
  match todo with
  | O => hooks
  | S todo' =>
      innermostFirst type blockChain todo' (S i) (hooks ++ hooksAt type blockChain i)
  end.

Definition collectHooks (chain : list (DescribeBlock W)) (type : HookType)
    : list (HookFn W) :=
  let blockChain := walkUp chain [] in
  match type with
  | BeforeAll | BeforeEach =>
      outermostFirst type blockChain (length blockChain) []
  | AfterEach | AfterAll =>
      innermostFirst type blockChain (length blockChain) 0 []
  end.

(** [{ success: true }] or [{ success: false, error }]. *)
Inductive HooksResult :=
| HooksOk
| HooksFailed (error : JsValue).

Definition success (r : HooksResult) : bool :=
  match r with
  | HooksOk => true
  | HooksFailed _ => false
  end.

(** [runHooks]: the hooks one after the other, stopping at the first
    that throws (the [console.error] line is not modelled). *)
Fixpoint runHooks (hooks : list (HookFn W)) (w : W) : HooksResult * W :=
  match hooks with
  | [] => (HooksOk, w)
  | hook :: rest =>
      match hook w with
      | (None, w1) => runHooks rest w1
      | (Some error, w1) => (HooksFailed error, w1)
      end
  end.

End WithWorld.
Global Arguments Registry : clear implicits.
Global Arguments Reg : clear implicits.

End Dsl.
Export Dsl.

(** ** The runner ([runner.ts]) *)

Module Runner.

Inductive TestEvent :=
| EvStart (suite test : string)
| EvPass (suite test : string) (duration : Z)
| EvFail (suite test : string) (duration : Z) (error : SafeError)
| EvComplete (results : list TestResult).

Record TestMeta := mkTestMeta { tm_suite : string; tm_test : string }.

Record OnlyOption := mkOnly { only_suite : option string; only_test : option string }.

(** What the runner did, in order.  The history is a ghost variable: the
    runner writes it and never reads it.
    - [Entered b]: [block.executed = true] for block [b];
    - [SetRanBeforeAll b old]: [ancestor.ranBeforeAll = true] for block [b],
      whose flag was [old];
    - [BeforeAllRun b lineage]: [runHooks] is called for [b] on the
      before-all hooks of the blocks of [lineage];
    - [TestStarted b i] ... [TestFinished b i status]: the stages of the
      [i]th test of [b]; [TestBodyRun] is the call of [testCase.fn];
    - [AfterAllRun b]: [runHooks] is called on the after-all hooks of [b];
    - [BeforeAllFailed b], [AfterAllFailed b]: that call came back with
      [success: false]. *)
Inductive Step :=
| Entered (b : BlockId)
| SetRanBeforeAll (b : BlockId) (old : bool)
| BeforeAllRun (b : BlockId) (lineage : list BlockId)
| BeforeAllFailed (b : BlockId)
| TestStarted (b : BlockId) (i : nat)
| BeforeEachRun (b : BlockId) (i : nat)
| TestBodyRun (b : BlockId) (i : nat)
| AfterEachRun (b : BlockId) (i : nat)
| TestFinished (b : BlockId) (i : nat) (status : TestStatus)
| AfterAllRun (b : BlockId)
| AfterAllFailed (b : BlockId).

#[global] Instance TestStatus_eq_dec : EqDecision TestStatus.
Proof. solve_decision. Defined.

#[global] Instance Step_eq_dec : EqDecision Step.
Proof. solve_decision. Defined.

Section WithWorld.
Context {W : Type}.

(** [options.onEvent] acts on the state of its caller and may throw:
    [Some v] when it throws [v].  [options.filter] is assumed to be a
    function of its two arguments that does not throw. *)
Record RunOptions := mkRunOptions {
  opt_filter : option (string → string → bool);
  opt_only : option OnlyOption;
  opt_bail : bool;
  opt_onEvent : option (TestEvent → W → option JsValue * W)
}.

(** [performance.now()], read off the world. *)
Variable perf_now : W → Z.

(** The variables of one call of [runTests], the two flags of every
    block, and the world of the hooks and tests. *)
Record RunState := mkRunState {
  world : W;
  results : list TestResult;
  events : list TestEvent;          (* the calls of [onEvent] *)
  globalBail : bool;
  ranBeforeAll : gset BlockId;      (* blocks with [ranBeforeAll] set *)
  executed : gset BlockId;          (* blocks with [executed] set *)
  history : list Step
}.

Definition M (A : Type) := RunState → Completion A * RunState.

Definition ret {A} (a : A) : M A := fun st => (Normal a, st).

Definition bind {A B} (m : M A) (f : A → M B) : M B :=
  fun st =>
    match m st with
    | (Normal a, st1) => f a st1
    | (Abrupt v, st1) => (Abrupt v, st1)
    end.

Notation "x <- m ;; k" := (bind m (fun x => k))
  (at level 100, m at next level, right associativity).
Notation "m ;;; k" := (bind m (fun _ => k))
  (at level 100, right associativity).

Definition getState : M RunState := fun st => (Normal st, st).

Definition pushResult (r : TestResult) : M unit := fun st =>
  (Normal tt, mkRunState (world st) (results st ++ [r]) (events st) (globalBail st)
                (ranBeforeAll st) (executed st) (history st)).

Definition raiseBail : M unit := fun st =>
  (Normal tt, mkRunState (world st) (results st) (events st) true
                (ranBeforeAll st) (executed st) (history st)).

Definition markRanBeforeAll (b : BlockId) : M unit := fun st =>
  (Normal tt, mkRunState (world st) (results st) (events st) (globalBail st)
                ({[b]} ∪ ranBeforeAll st) (executed st) (history st)).

Definition markExecuted (b : BlockId) : M unit := fun st =>
  (Normal tt, mkRunState (world st) (results st) (events st) (globalBail st)
                (ranBeforeAll st) ({[b]} ∪ executed st) (history st)).

Definition logStep (s : Step) : M unit := fun st =>
  (Normal tt, mkRunState (world st) (results st) (events st) (globalBail st)
                (ranBeforeAll st) (executed st) (history st ++ [s])).

(** [options.onEvent?.(ev)]: the call is made outside any [try], so
    what the handler throws leaves the runner. *)
Definition emit (options : RunOptions) (ev : TestEvent) : M unit := fun st =>
  match opt_onEvent options with
  | Some onEvent =>
      let '(thrown, w) := onEvent ev (world st) in
      let st' := mkRunState w (results st) (events st ++ [ev])
                   (globalBail st) (ranBeforeAll st) (executed st) (history st) in
      match thrown with
      | None => (Normal tt, st')
      | Some v => (Abrupt v, st')
      end
  | None => (Normal tt, st)
  end.

Definition now : M Z := fun st => (Normal (perf_now (world st)), st).

(** [await runHooks(hooks, ...)] *)
Definition awaitHooks (hooks : list (HookFn W)) : M HooksResult := fun st =>
  let '(r, w) := runHooks hooks (world st) in
  (Normal r, mkRunState w (results st) (events st) (globalBail st)
               (ranBeforeAll st) (executed st) (history st)).

(** [try { await testCase.fn() } catch (error) ...]: the thrown value, if any. *)
Definition awaitTest (fn : TestFn W) : M (option JsValue) := fun st =>
  let '(r, w) := fn (world st) in
  (Normal r, mkRunState w (results st) (events st) (globalBail st)
               (ranBeforeAll st) (executed st) (history st)).

(** [parseError(error)]; when it throws, so does the runner. *)
Definition parse (error : JsValue) : M SafeError := fun st =>
  match parseError error with
  | Normal e => (Normal e, st)
  | Abrupt v => (Abrupt v, st)
  end.

Definition when (b : bool) (m : M unit) : M unit := if b then m else ret tt.

(** [!options.only.suite || options.only.suite === suitePath] *)
Definition onlyMatches (wanted : option string) (actual : string) : bool :=
  match wanted with
  | None => true
  | Some s => String.eqb s "" || String.eqb s actual
  end.

Definition shouldRun (options : RunOptions) (suitePath testName : string) : bool :=
  match opt_filter options with
  | None => true
  | Some filter => filter suitePath testName
  end
  &&
  match opt_only options with
  | None => true
  | Some only =>
      onlyMatches (only_suite only) suitePath && onlyMatches (only_test only) testName
  end.

(** *** 1. The before-all hooks *)

(** [while (current && !current.ranBeforeAll) { lineage.unshift(current); ... }] *)
Fixpoint lineageLoop (ran : gset BlockId) (id : BlockId)
    (current : list (DescribeBlock W)) (lineage : list (BlockId * DescribeBlock W))
    : list (BlockId * DescribeBlock W) :=
  match current with
  | [] => lineage
  | b :: parent =>
      if decide (id ∈ ran) then lineage
      else lineageLoop ran (tail id) parent ((id, b) :: lineage)
  end.

(** [for (const ancestor of lineage) { hooks.push(...); ancestor.ranBeforeAll = true }] *)
Fixpoint markLoop (lineage : list (BlockId * DescribeBlock W))
    (beforeAllHooksToRun : list (HookFn W)) : M (list (HookFn W)) :=
  match lineage with
  | [] => ret beforeAllHooksToRun
  | (a, ancestor) :: rest =>
      st <- getState ;;
      logStep (SetRanBeforeAll a (bool_decide (a ∈ ranBeforeAll st))) ;;;
      markRanBeforeAll a ;;;
      markLoop rest (beforeAllHooksToRun ++ beforeAllHooks ancestor)
  end.

(** [if (beforeAllHooksToRun.length > 0) { ... }]: the value of
    [beforeAllSuccess] it leaves. *)
Definition runCollected (options : RunOptions) (id : BlockId)
    (lineage : list BlockId) (suitePath : string)
    (beforeAllHooksToRun : list (HookFn W)) : M bool :=
  if (0 <? length beforeAllHooksToRun)%nat then
    logStep (BeforeAllRun id lineage) ;;;
    r <- awaitHooks beforeAllHooksToRun ;;
    match r with
    | HooksOk => ret true
    | HooksFailed error =>
        logStep (BeforeAllFailed id) ;;;
        beforeAllError <- parse error ;;
        pushResult (mkTestResult suitePath "(beforeAll hook)" failed 0
                      (Some beforeAllError)) ;;;
        emit options (EvFail suitePath "(beforeAll hook)" 0 beforeAllError) ;;;
        when (opt_bail options) raiseBail ;;;
        ret false
    end
  else ret true.

(** The value of [beforeAllSuccess] after section 1 of [runDescribeBlock]. *)
Definition beforeAllPhase (options : RunOptions) (id : BlockId)
    (chain : list (DescribeBlock W)) (suitePath : string) : M bool :=
  st <- getState ;;
  if decide (id ∈ ranBeforeAll st) then ret true
  else
    let lineage := lineageLoop (ranBeforeAll st) id chain [] in
    beforeAllHooksToRun <- markLoop lineage [] ;;
    runCollected options id lineage.*1 suitePath beforeAllHooksToRun.

(** *** 2. The tests of the block *)

(** The stage before the after-each hooks: [testSuccess], [testError]
    and [duration] when the before-each chain and the body are done. *)
Definition testStage (id : BlockId) (i : nat) (chain : list (DescribeBlock W))
    (testCase : TestCase W) : M (bool * option SafeError * Z) :=
  start <- now ;;
  logStep (BeforeEachRun id i) ;;;
  before <- awaitHooks (collectHooks chain BeforeEach) ;;
  match before with
  | HooksFailed beforeErr =>
      testError <- parse beforeErr ;;
      t <- now ;;
      ret (false, Some testError, t - start)
  | HooksOk =>
      logStep (TestBodyRun id i) ;;;
      thrown <- awaitTest (tc_fn testCase) ;;
      match thrown with
      | None =>
          t <- now ;;
          ret (true, None, t - start)
      | Some error =>
          testError <- parse error ;;
          t <- now ;;
          ret (false, Some testError, t - start)
      end
  end.

(** The after-each hooks and their effect on [testSuccess], [testError]. *)
Definition cleanupStage (id : BlockId) (i : nat) (chain : list (DescribeBlock W))
    (testSuccess : bool) (testError : option SafeError)
    : M (bool * option SafeError) :=
  logStep (AfterEachRun id i) ;;;
  after <- awaitHooks (collectHooks chain AfterEach) ;;
  match after with
  | HooksOk => ret (testSuccess, testError)
  | HooksFailed afterErr =>
      afterEachError <- parse afterErr ;;
      if testSuccess then ret (false, Some afterEachError)
      else ret (testSuccess, testError)
  end.

(** One iteration of the test loop past [if (!shouldRun) continue]; the
    result tells whether the loop is left ([break]). *)
Definition runTestCase (options : RunOptions) (id : BlockId) (i : nat)
    (chain : list (DescribeBlock W)) (suitePath : string) (testCase : TestCase W)
    : M bool :=
  emit options (EvStart suitePath (tc_name testCase)) ;;;
  logStep (TestStarted id i) ;;;
  staged <- testStage id i chain testCase ;;
  final <- cleanupStage id i chain staged.1.1 staged.1.2 ;;
  let duration := staged.2 in
  let status := if final.1 then passed else failed in
  pushResult (mkTestResult suitePath (tc_name testCase) status duration final.2) ;;;
  logStep (TestFinished id i status) ;;;
  if final.1 then
    emit options (EvPass suitePath (tc_name testCase) duration) ;;;
    ret false
  else
    match final.2 with
    | Some finalError =>
        emit options (EvFail suitePath (tc_name testCase) duration finalError)
    | None => ret tt     (* [finalError!]: a failed test carries an error *)
    end ;;;
    if opt_bail options then raiseBail ;;; ret true else ret false.

(** [for (const testCase of block.tests)], [i] the index of the first
    test of [tests]. *)
Fixpoint testLoop (options : RunOptions) (id : BlockId)
    (chain : list (DescribeBlock W)) (suitePath : string)
    (tests : list (TestCase W)) (i : nat) : M unit :=
  match tests with
  | [] => ret tt
  | testCase :: rest =>
      st <- getState ;;
      if globalBail st then ret tt
      else if negb (shouldRun options suitePath (tc_name testCase))
      then testLoop options id chain suitePath rest (S i)
      else
        stop <- runTestCase options id i chain suitePath testCase ;;
        if stop then ret tt
        else testLoop options id chain suitePath rest (S i)
  end.

(** *** 3. The child blocks *)

(** [for (const child of block.children)] over a function [run] for the
    recursive call. *)
Fixpoint childLoop (run : nat → DescribeBlock W → M bool)
    (children : list (DescribeBlock W)) (i : nat) : M unit :=
  match children with
  | [] => ret tt
  | child :: rest =>
      st <- getState ;;
      if globalBail st then ret tt
      else
        continueRunning <- run i child ;;
        if negb continueRunning then raiseBail
        else childLoop run rest (S i)
  end.

(** *** 4. The after-all hooks of the block

    [Some false] is the [return false] inside the section. *)
Definition afterAllPhase (options : RunOptions) (id : BlockId)
    (block : DescribeBlock W) (suitePath : string) (beforeAllSuccess : bool)
    : M (option bool) :=
  st <- getState ;;
  let runAfterAll := bool_decide (id ∈ executed st) && beforeAllSuccess in
  if runAfterAll then
    if (0 <? length (afterAllHooks block))%nat then
      logStep (AfterAllRun id) ;;;
      r <- awaitHooks (afterAllHooks block) ;;
      match r with
      | HooksOk => ret None
      | HooksFailed error =>
          logStep (AfterAllFailed id) ;;;
          afterAllError <- parse error ;;
          pushResult (mkTestResult suitePath "(afterAll hook)" failed 0
                        (Some afterAllError)) ;;;
          emit options (EvFail suitePath "(afterAll hook)" 0 afterAllError) ;;;
          if opt_bail options then raiseBail ;;; ret (Some false) else ret None
      end
    else ret None
  else ret None.

(** [runDescribeBlock(block)]; [ancestors] is the parent of [block], its
    parent, ..., the root, and [id] the position of [block]. *)
Fixpoint runDescribeBlock (options : RunOptions) (ancestors : list (DescribeBlock W))
    (id : BlockId) (block : DescribeBlock W) {struct block} : M bool :=
  st <- getState ;;
  if globalBail st then ret false
  else
    let chain := block :: ancestors in
    let suitePath := getSuitePath chain in
    markExecuted id ;;;
    logStep (Entered id) ;;;
    beforeAllSuccess <- beforeAllPhase options id chain suitePath ;;
    st1 <- getState ;;
    when (beforeAllSuccess && negb (globalBail st1))
      (testLoop options id chain suitePath (tests block) 0) ;;;
    st2 <- getState ;;
    when (beforeAllSuccess && negb (globalBail st2))
      (childLoop (fun i child => runDescribeBlock options chain (i :: id) child)
         (children block) 0) ;;;
    early <- afterAllPhase options id block suitePath beforeAllSuccess ;;
    match early with
    | Some r => ret r
    | None => st3 <- getState ;; ret (negb (globalBail st3))
    end.

(** [for (const topLevelDescribe of rootDescribeBlock.children)] *)
Fixpoint topLoop (options : RunOptions) (root : DescribeBlock W)
    (tops : list (DescribeBlock W)) (i : nat) : M unit :=
  match tops with
  | [] => ret tt
  | topLevelDescribe :: rest =>
      runDescribeBlock options [root] [i] topLevelDescribe ;;;
      st <- getState ;;
      if globalBail st then ret tt
      else topLoop options root rest (S i)
  end.

(** [children.forEach(f)], with the index of the child. *)
Fixpoint forEachChild {A} (f : nat → DescribeBlock W → A → A)
    (children : list (DescribeBlock W)) (i : nat) (a : A) : A :=
  match children with
  | [] => a
  | child :: rest => forEachChild f rest (S i) (f i child a)
  end.

(** [resetExecutionState(block)] on the two sets of flags. *)
Fixpoint resetExecutionState (id : BlockId) (block : DescribeBlock W)
    (flags : gset BlockId * gset BlockId) {struct block} : gset BlockId * gset BlockId :=
  forEachChild (fun i child => resetExecutionState (i :: id) child)
    (children block) 0 (flags.1 ∖ {[id]}, flags.2 ∖ {[id]}).

(** [runTests(options)] on the registry under [root], with the flags the
    blocks carry from earlier runs and the world as it is; the promise
    it returns is fulfilled with the results or rejected. *)
Definition runTests (options : RunOptions) (root : DescribeBlock W)
    (flags : gset BlockId * gset BlockId) (w : W)
    : Completion (list TestResult) * RunState :=
  let flags0 := resetExecutionState [] root flags in
  (topLoop options root (children root) 0 ;;;
   st <- getState ;;
   emit options (EvComplete (results st)) ;;;
   ret (results st))
    (mkRunState w [] [] false flags0.1 flags0.2 []).

(** [getTestList()] *)
Fixpoint traverse (ancestors : list (DescribeBlock W)) (block : DescribeBlock W)
    (found : list TestMeta) {struct block} : list TestMeta :=
  let currentSuitePath := getSuitePath (block :: ancestors) in
  let found1 :=
    if String.eqb currentSuitePath "" then found
    else found ++ map (fun test => mkTestMeta currentSuitePath (tc_name test)) (tests block) in
  forEachChild (fun _ child => traverse (block :: ancestors) child) (children block) 0 found1.

Definition getTestList (root : DescribeBlock W) : list TestMeta :=
  traverse [] root [].

End WithWorld.
Global Arguments RunOptions : clear implicits.
Global Arguments RunState : clear implicits.
Global Arguments M : clear implicits.

End Runner.
Export Runner.

(** ** The shape of a run

    The blocks of a tree with their ancestors and positions, and the
    histories a visit can leave.  These definitions describe the runner;
    they are related to it by [runDescribeBlock_shape] below. *)

Module Trace.

Section WithWorld.
Context {W : Type}.

(** [Node anc id b anc' id' b']: block [b'] at position [id'] with
    ancestors [anc'] lies in the subtree of block [b] at position [id]
    with ancestors [anc]. *)
Inductive Node : list (DescribeBlock W) → BlockId → DescribeBlock W →
                 list (DescribeBlock W) → BlockId → DescribeBlock W → Prop :=
| node_self anc id b : Node anc id b anc id b
| node_child anc id b k c anc' id' b' :
    children b !! k = Some c →
    Node (b :: anc) (k :: id) c anc' id' b' →
    Node anc id b anc' id' b'.

(** The blocks met from [b] down along [path], [b] first. *)
Fixpoint blocksOnPath (path : list nat) (b : DescribeBlock W) : list (DescribeBlock W) :=
  b ::
  match path with
  | [] => []
  | i :: path' =>
      match children b !! i with
      | Some c => blocksOnPath path' c
      | None => []
      end
  end.

Definition markSteps (lineage : list BlockId) : list Step :=
  (fun a => SetRanBeforeAll a false) <$> lineage.

(** Section 1 of a visit: the set of flags before and after, the
    history it adds, and whether the visit goes on to the tests ([ok]).
    [lineage] are the blocks whose flag the section sets. *)
Inductive BeforeShape (id : BlockId) (ran : gset BlockId) :
    gset BlockId → list Step → bool → Prop :=
| before_already :
    id ∈ ran → BeforeShape id ran ran [] true
| before_fresh lineage rest ok :
    id ∉ ran →
    id ∈ lineage →
    NoDup lineage →
    (∀ a, a ∈ lineage → (a ∉ ran) ∧ suffix a id) →
    rest = [] ∧ ok = true
      ∨ rest = [BeforeAllRun id lineage] ∧ ok = true
      ∨ rest = [BeforeAllRun id lineage; BeforeAllFailed id] ∧ ok = false →
    BeforeShape id ran (list_to_set lineage ∪ ran) (markSteps lineage ++ rest) ok.

(** A step of an accepted test of the block. *)
Definition TestStep (options : RunOptions W) (id : BlockId)
    (chain : list (DescribeBlock W)) (tests : list (TestCase W)) (s : Step) : Prop :=
  ∃ i testCase,
    tests !! i = Some testCase ∧
    shouldRun options (getSuitePath chain) (tc_name testCase) = true ∧
    (s = TestStarted id i ∨ s = BeforeEachRun id i ∨ s = TestBodyRun id i
     ∨ s = AfterEachRun id i
     ∨ s = TestFinished id i passed ∨ s = TestFinished id i failed).

(** A step of section 4 of the visit of the block. *)
Definition AfterStep (id : BlockId) (s : Step) : Prop :=
  s = AfterAllRun id ∨ s = AfterAllFailed id.

(** The history a visit of a block adds, with the set of blocks whose
    [ranBeforeAll] is set before and after. *)
Inductive VisitShape (options : RunOptions W) :
    list (DescribeBlock W) → BlockId → DescribeBlock W →
    gset BlockId → gset BlockId → list Step → Prop :=
| visit_bailed anc id block ran :
    VisitShape options anc id block ran ran []
| visit_stopped anc id block ran ran' d_before :
    BeforeShape id ran ran' d_before false →
    VisitShape options anc id block ran ran' (Entered id :: d_before)
| visit_full anc id block ran ran1 ran' d_before d_tests d_children d_after :
    BeforeShape id ran ran1 d_before true →
    Forall (TestStep options id (block :: anc) (tests block)) d_tests →
    ChildrenShape options (block :: anc) id (children block) 0 ran1 ran' d_children →
    Forall (AfterStep id) d_after →
    VisitShape options anc id block ran ran'
      (Entered id :: d_before ++ d_tests ++ d_children ++ d_after)
with ChildrenShape (options : RunOptions W) :
    list (DescribeBlock W) → BlockId → list (DescribeBlock W) → nat →
    gset BlockId → gset BlockId → list Step → Prop :=
| children_done chain id cs i ran :
    ChildrenShape options chain id cs i ran ran []
| children_next chain id c cs i ran ran1 ran' d1 d2 :
    VisitShape options chain (i :: id) c ran ran1 d1 →
    ChildrenShape options chain id cs (S i) ran1 ran' d2 →
    ChildrenShape options chain id (c :: cs) i ran ran' (d1 ++ d2).

Scheme VisitShape_mut := Minimality for VisitShape Sort Prop
  with ChildrenShape_mut := Minimality for ChildrenShape Sort Prop.

Definition notSkipped (r : TestResult) : Prop := tr_status r ≠ skipped.

(** From [st] to [st'] the history grows by [d], and the results by
    records that are passed or failed. *)
Definition Delta (st st' : RunState W) (d : list Step) : Prop :=
  history st' = history st ++ d ∧
  ∃ rs, results st' = results st ++ rs ∧ Forall notSkipped rs.

(** A computation that leaves the [ranBeforeAll] flags alone and adds
    only steps that satisfy [φ]. *)
Definition AllSteps {A} (φ : Step → Prop) (m : M W A) : Prop :=
  ∀ st r st', m st = (r, st') →
    ranBeforeAll st' = ranBeforeAll st ∧ ∃ d, Delta st st' d ∧ Forall φ d.

(** The steps of the [i]th test of block [id]. *)
Definition StepOfTest (id : BlockId) (i : nat) (s : Step) : Prop :=
  s = TestStarted id i ∨ s = BeforeEachRun id i ∨ s = TestBodyRun id i
  ∨ s = AfterEachRun id i
  ∨ s = TestFinished id i passed ∨ s = TestFinished id i failed.

Combined Scheme VisitShape_mutind from VisitShape_mut, ChildrenShape_mut.

(** The block a step belongs to; the setting of a flag belongs to the
    visit that sets it, not to the block whose flag it is. *)
Definition owner (s : Step) : option BlockId :=
  match s with
  | Entered b | BeforeAllRun b _ | BeforeAllFailed b
  | TestStarted b _ | BeforeEachRun b _ | TestBodyRun b _ | AfterEachRun b _
  | TestFinished b _ _ | AfterAllRun b | AfterAllFailed b => Some b
  | SetRanBeforeAll _ _ => None
  end.

(** Projections of a history. *)
Definition markedIds (h : list Step) : list BlockId :=
  omap (fun s => match s with SetRanBeforeAll n _ => Some n | _ => None end) h.

Definition ranIds (h : list Step) : list BlockId :=
  concat (omap (fun s => match s with BeforeAllRun _ l => Some l | _ => None end) h).

(** Does the step set the flag of [n]; does it hand the before-all
    hooks of [n] to [runHooks]? *)
Definition setsFlagOf (n : BlockId) (s : Step) : bool :=
  match s with
  | SetRanBeforeAll a _ => bool_decide (a = n)
  | _ => false
  end.

Definition runsBeforeAllOf (n : BlockId) (s : Step) : bool :=
  match s with
  | BeforeAllRun _ l => bool_decide (n ∈ l)
  | _ => false
  end.

(** A step of the subtree of [block]: it belongs to a block of the
    subtree and, for a step of a test, to a test of that block that the
    options accept; a flag is only ever set from [false]. *)
Definition StepValid (options : RunOptions W) (anc : list (DescribeBlock W))
    (id : BlockId) (block : DescribeBlock W) (s : Step) : Prop :=
  match s with
  | SetRanBeforeAll _ old => old = false
  | TestStarted n i | BeforeEachRun n i | TestBodyRun n i | AfterEachRun n i
  | TestFinished n i _ =>
      ∃ anc' b' testCase,
        Node anc id block anc' n b' ∧
        tests b' !! i = Some testCase ∧
        shouldRun options (getSuitePath (b' :: anc')) (tc_name testCase) = true
  | Entered n | BeforeAllRun n _ | BeforeAllFailed n | AfterAllRun n
  | AfterAllFailed n =>
      ∃ anc' b', Node anc id block anc' n b'
  end.

(** Two blocks with the same name and the same hooks (their tests and
    children may differ). *)
Definition sameScope (b b' : DescribeBlock W) : Prop :=
  name b = name b' ∧
  ∀ type, hooksOf type b = hooksOf type b'.

(** What is left of a suite whose before-all hooks failed: its entry
    and section 1. *)
Definition StoppedStep (b : BlockId) (s : Step) : Prop :=
  s = Entered b ∨ (∃ l, s = BeforeAllRun b l) ∨ s = BeforeAllFailed b.

(** Every [BeforeAllRun] comes after the setting of the flags of its
    lineage; [seen] are the blocks whose flag was set before [h]. *)
Fixpoint wellMarked (seen : list BlockId) (h : list Step) : Prop :=
  match h with
  | [] => True
  | SetRanBeforeAll n _ :: h' => wellMarked (n :: seen) h'
  | BeforeAllRun _ l :: h' => (∀ n, n ∈ l → n ∈ seen) ∧ wellMarked seen h'
  | _ :: h' => wellMarked seen h'
  end.

(** The flags [ran] and the history [h] of a run agree. *)
Definition FlagsInv (ran0 ran : gset BlockId) (h : list Step) : Prop :=
  (∀ n old, SetRanBeforeAll n old ∈ h → n ∈ ran ∧ old = false) ∧
  NoDup (markedIds h) ∧
  NoDup (ranIds h) ∧
  (∀ n, n ∈ ranIds h → n ∈ ran) ∧
  wellMarked [] h ∧
  (∀ n, n ∈ ran → n ∈ ran0 ∨ SetRanBeforeAll n false ∈ h) ∧
  (∀ n, Entered n ∈ h → n ∈ ran) ∧
  (∀ n old, SetRanBeforeAll n old ∈ h → ∃ b, Entered b ∈ h ∧ suffix n b).

End WithWorld.

End Trace.
Export Trace.

(** ** Scenarios *)

Module Scenario.

(** The hooks and tests of the scenarios push a label on an array. *)
Definition Log := list string.

Definition push (label : string) : HookFn Log := fun w => (None, w ++ [label]).

(** Push a label, then [throw v]. *)
Definition pushThenThrow (label : string) (v : JsValue) : HookFn Log :=
  fun w => (Some v, w ++ [label]).

Definition clock : Log → Z := fun w => Z.of_nat (length w).

Definition defaultOptions : RunOptions Log := mkRunOptions None None false None.
Definition bailOptions : RunOptions Log := mkRunOptions None None true None.

Definition noFlags : gset BlockId * gset BlockId := (∅, ∅).

Definition built (r : Reg Log unit) : DescribeBlock Log :=
  rootDescribeBlock (r initialRegistry).2.

(** Suite A with a before-all hook and test t1; its child suite B with a
    before-all hook and test t2. *)
Definition registerAB : Reg Log unit :=
  describe "A" (script [
    beforeAll (push "bA");
    it "t1" (push "t1");
    describe "B" (script [
      beforeAll (push "bB");
      it "t2" (push "t2")
    ])
  ]).

(** [throw new Error('boom')] *)
Definition boom : JsValue := JsErrorObject "Error" "boom" StackAbsent.

(** [Object.create(null)]: no [toString], no [valueOf]. *)
Definition bareObject : JsValue :=
  JsUnprintable (TypeError "Cannot convert object to primitive value").

(** Suite A whose before-all hook throws, with an after-all hook, a test
    and a child suite B. *)
Definition registerFailingBeforeAll : Reg Log unit :=
  describe "A" (script [
    beforeAll (pushThenThrow "bA" boom);
    afterAll (push "aA");
    it "t1" (push "t1");
    describe "B" (script [
      it "t2" (push "t2")
    ])
  ]).

(** Suite A with every kind of hook and two tests, the first of which
    throws [v]. *)
Definition registerThrowingTest (v : JsValue) : Reg Log unit :=
  describe "A" (script [
    beforeAll (push "bA");
    beforeEach (push "beA");
    afterEach (push "aeA");
    afterAll (push "aA");
    it "t1" (pushThenThrow "t1" v);
    it "t2" (push "t2")
  ]).

(** The same with a before-each hook that throws [v]. *)
Definition registerThrowingBeforeEach (v : JsValue) : Reg Log unit :=
  describe "A" (script [
    beforeEach (pushThenThrow "beA" v);
    afterEach (push "aeA");
    it "t1" (push "t1")
  ]).

(** [it] called before any [describe]. *)
Definition registerRootTest : Reg Log unit :=
  script [
    it "orphan" (push "orphan");
    describe "A" (script [ it "t1" (push "t1") ])
  ].

Definition treeAB : DescribeBlock Log := built registerAB.

(** The first child of a block. *)
Definition firstChild (b : DescribeBlock Log) : DescribeBlock Log :=
  default (createDescribeBlock "") (children b !! 0%nat).

Definition suiteA : DescribeBlock Log := firstChild treeAB.
Definition suiteB : DescribeBlock Log := firstChild suiteA.

Definition run (options : RunOptions Log) (r : Reg Log unit) :=
  runTests clock options (built r) noFlags [].

(** *** A hook that calls [runTests]

    Suite A with test t1 and the before-all hook
    [async () => { const first = !log.includes('bA'); log.push('bA');
                   if (first) await runTests(); }].
    The call of [runTests] in the hook runs the registry the hook is
    registered in: [reentrantTree (S depth)] is that registry when the
    hook may call [runTests] on [reentrantTree depth], and at depth 0 a
    call of [runTests] in the hook throws instead.  The nested call
    clears the flags it finds, so it is given none; the scenario states
    that it leaves the flags as the outer visit has set them, which the
    outer call goes on with. *)
Definition seen (label : string) (w : Log) : bool := existsb (String.eqb label) w.

Definition reentrantHook (runTestsAgain : HookFn Log) : HookFn Log := fun w =>
  let first := negb (seen "bA" w) in
  let w1 := w ++ ["bA"] in
  if first then runTestsAgain w1 else (None, w1).

Definition registerReentrant (runTestsAgain : HookFn Log) : Reg Log unit :=
  describe "A" (script [
    beforeAll (reentrantHook runTestsAgain);
    it "t1" (push "t1")
  ]).

(** [await runTests()] in a hook: the hook throws what the promise is
    rejected with. *)
Definition awaitRunTests (registry : DescribeBlock Log) : HookFn Log := fun w =>
  let nested := runTests clock defaultOptions registry noFlags w in
  (match nested.1 with
   | Normal _ => None
   | Abrupt v => Some v
   end, world nested.2).

Fixpoint reentrantTree (depth : nat) : DescribeBlock Log :=
  built (registerReentrant
           match depth with
           | O => fun w => (Some (JsNonError "too deep"), w)
           | S depth' => awaitRunTests (reentrantTree depth')
           end).

End Scenario.

(** ** The rest of [dsl.ts] *)

Module Teardown.

Section WithWorld.
Context {W : Type}.

(** [resetRegistry()]: [resetBlock(rootDescribeBlock)] empties the lists
    of the root block (its name stays) and the cursor goes back to the
    root.  The blocks that were below the root are no longer reachable.
    The two flags of the root, which [resetBlock] clears as well, are
    kept with the state of a run, and every run clears them again.
    The call is meant for the top level of a script: inside the body of a
    [describe] the cursor restored by [finally] would be a detached
    block, which a position cannot name. *)
Definition resetBlock (block : DescribeBlock W) : DescribeBlock W :=
  mkDescribeBlock (name block) [] [] [] [] [] [].

Definition resetRegistry : Reg W unit :=
  fun st => (Normal tt, mkRegistry (resetBlock (rootDescribeBlock st)) (Some [])).

End WithWorld.

End Teardown.
Export Teardown.

(** ** Notions used to state the properties of the registry *)

Module RegistrySpec.

(** No [@] is followed by a word character: [/@\w+/] has no match. *)
Fixpoint noTag (l : list ascii) : bool :=
  match l with
  | [] => true
  | c :: l' =>
      negb (Ascii.eqb c "@" && match l' with d :: _ => isWord d | [] => false end)
      && noTag l'
  end.

Section WithWorld.
Context {W : Type}.

(** [Extends b b']: block [b'] is block [b] after more registrations:
    the same name, every list of [b] a prefix of the list of [b'], and
    the children that [b] has extended in turn. *)
Inductive Extends : DescribeBlock W → DescribeBlock W → Prop :=
| extends_block b b' :
    name b = name b' →
    tests b `prefix_of` tests b' →
    (∀ type, hooksOf type b `prefix_of` hooksOf type b') →
    (length (children b) ≤ length (children b'))%nat →
    (∀ k c c', children b !! k = Some c → children b' !! k = Some c' → Extends c c') →
    Extends b b'.

End WithWorld.

End RegistrySpec.
Export RegistrySpec.

(** ** The caller of the runner ([scripts/run-tests.ts]) *)

Module Script.

(** [main] from the call of [runTests] on: the process exits with
    [results.every(r => r.status === 'passed') ? 0 : 1], and with 1 from
    [main().catch] when the promise of [runTests] is rejected. *)
Definition isPassed (r : TestResult) : bool :=
  match tr_status r with
  | passed => true
  | _ => false
  end.

Definition exitCode (outcome : Completion (list TestResult)) : Z :=
  match outcome with
  | Normal results => if forallb isPassed results then 0 else 1
  | Abrupt _ => 1
  end.

End Script.
Export Script.

(** ** Notions used to state the properties of a run *)

Module RunSpec.




(** The steps that come with a failed result. *)
Definition isFailureStep (s : Step) : bool :=
  match s with
  | BeforeAllFailed _ | AfterAllFailed _ | TestFinished _ _ failed => true
  | _ => false
  end.

Definition isFailed (r : TestResult) : bool :=
  match tr_status r with
  | failed => true
  | _ => false
  end.

(** The names under which the runner reports the failure of a
    before-all or after-all phase. *)
Definition isHookReport (test : string) : bool :=
  String.eqb test "(beforeAll hook)" || String.eqb test "(afterAll hook)".

(** A call of a before-all hook: the position of the block and the
    index of the hook among the before-all hooks of the block. *)
Definition HookCall : Type := BlockId * nat.

Section WithWorld.
Context {W : Type}.

(** [Holds I E m]: from a state that satisfies [I], [m] leads to a state
    that satisfies [I] when it returns and [E] when it throws. *)
Definition Holds (I E : RunState W → Prop) {A} (m : M W A) : Prop :=
  ∀ st r st', I st → m st = (r, st') →
    match r with
    | Normal _ => I st'
    | Abrupt _ => E st'
    end.


(** As many failed results as failures in the history. *)
Definition FailuresCounted (st : RunState W) : Prop :=
  length (List.filter isFailureStep (history st))
  = length (List.filter isFailed (results st)).

(** The blocks with [executed] set are the blocks entered. *)
Definition ExecutedEntered (st : RunState W) : Prop :=
  ∀ n, n ∈ executed st → Entered n ∈ history st.

(** The entries [traverse] adds for the blocks of a subtree. *)
Definition Listed (anc : list (DescribeBlock W)) (id : BlockId)
    (block : DescribeBlock W) (m : TestMeta) : Prop :=
  ∃ anc' id' b' t,
    Node anc id block anc' id' b' ∧ t ∈ tests b' ∧
    getSuitePath (b' :: anc') ≠ ""%string ∧
    m = mkTestMeta (getSuitePath (b' :: anc')) (tc_name t).

(** A result or an event that the options account for: it carries the
    suite path and the name of a test that the options accept, or it
    reports the failure of a before-all or after-all phase. *)
Definition resultAccepted (options : RunOptions W) (r : TestResult) : Prop :=
  shouldRun options (tr_suite r) (tr_test r) = true
  ∨ isHookReport (tr_test r) = true ∧ tr_status r = failed ∧ tr_duration r = 0.

Definition eventAccepted (options : RunOptions W) (ev : TestEvent) : Prop :=
  match ev with
  | EvStart suite test | EvPass suite test _ => shouldRun options suite test = true
  | EvFail suite test duration _ =>
      shouldRun options suite test = true ∨ isHookReport test = true ∧ duration = 0
  | EvComplete _ => True
  end.

(** Every result pushed and every event emitted is accounted for. *)
Definition AllAccepted (options : RunOptions W) (st : RunState W) : Prop :=
  Forall (resultAccepted options) (results st) ∧
  Forall (eventAccepted options) (events st).

(** The before-all hooks of the tree record their calls in the world:
    the [k]th before-all hook of the block at position [id] appends
    [(id, k)] to the log [log] reads off the world, and nothing else
    writes to that log: no other hook, no test, and not the handler of
    the events. *)
Definition Recorded (log : W → list HookCall) (options : RunOptions W)
    (root : DescribeBlock W) : Prop :=
  (∀ anc id b, Node [] [] root anc id b →
     (∀ k hook w, beforeAllHooks b !! k = Some hook →
        log (hook w).2 = log w ++ [(id, k)]) ∧
     (∀ hook w, hook ∈ beforeEachHooks b ++ afterEachHooks b ++ afterAllHooks b →
        log (hook w).2 = log w) ∧
     (∀ testCase w, testCase ∈ tests b → log (tc_fn testCase w).2 = log w)) ∧
  (∀ onEvent ev w, opt_onEvent options = Some onEvent → log (onEvent ev w).2 = log w).

(** The calls of the before-all hooks of the blocks of a lineage, in
    the order of the hooks [markLoop] collects. *)
Definition callsOf (lineage : list (BlockId * DescribeBlock W)) : list HookCall :=
  concat (map (fun p => imap (fun k _ => (p.1, k)) (beforeAllHooks p.2)) lineage).

(** Since the log was [before], no call has been recorded twice, and
    every call recorded is the call of a hook of a block whose
    [ranBeforeAll] flag is set. *)
Definition CalledOnce (log : W → list HookCall) (before : list HookCall)
    (st : RunState W) : Prop :=
  ∃ calls,
    log (world st) = before ++ calls ∧
    NoDup calls ∧
    ∀ n k, (n, k) ∈ calls → n ∈ ranBeforeAll st.

(** The flag [globalBail] is as it was and the history has grown. *)
Definition Grown (st0 st : RunState W) : Prop :=
  globalBail st = globalBail st0 ∧ ∃ d, history st = history st0 ++ d.

(** The part [d] of a history holds the visit of every block of the
    subtree that no failed before-all phase cuts off, and every test of
    these blocks that the options accept. *)
Definition Covered (options : RunOptions W) (anc : list (DescribeBlock W))
    (id : BlockId) (block : DescribeBlock W) (d : list Step) : Prop :=
  ∀ anc' id' b',
    Node anc id block anc' id' b' →
    (∀ a, suffix a id' → suffix id a → a ≠ id' → BeforeAllFailed a ∉ d) →
    Entered id' ∈ d ∧
    (BeforeAllFailed id' ∉ d →
     ∀ i t, tests b' !! i = Some t →
       shouldRun options (getSuitePath (b' :: anc')) (tc_name t) = true →
       TestStarted id' i ∈ d ∧
       (TestFinished id' i passed ∈ d ∨ TestFinished id' i failed ∈ d)).

End WithWorld.

End RunSpec.
Export RunSpec.

(** ** Assertions ([assertion.ts]) *)

Module Assertion.

(** *** Values

    The values [expect] is given, as far as [deepEqual] and the matchers
    below can tell them apart.
    - An object carries its identity [ref]: two values are the same
      object when they are built by the same constructor with the same
      [ref].  [VObject] stands for the objects that are neither arrays,
      functions, dates nor regular expressions, with the identity of
      their prototype ([None]: no prototype), their own enumerable
      properties [props] in the order of [Object.keys], and their own
      properties that are not enumerable, [hidden]; the keys of an
      object are strings and distinct, and reading a property runs no
      getter.
    - A value is a finite tree: an object does not contain itself. *)
#[warnings="-register-all"]
Inductive Value :=
| VUndefined
| VNull
| VBoolean (b : bool)
| VNumber (n : Number)
| VString (s : string)
| VBigInt (z : Z)
| VSymbol (ref : nat)
| VFunction (ref : nat)
| VDate (ref : nat) (time : Number)
| VRegExp (ref : nat) (text : string)
| VArray (ref : nat) (elements : list Value)
| VObject (ref : nat) (proto : option nat) (props hidden : list (string * Value)).

(** The order of two finite numbers. *)
Definition compareFinite (m1 e1 m2 e2 : Z) : comparison :=
  let low := Z.min e1 e2 in
  (m1 * 2 ^ (e1 - low) ?= m2 * 2 ^ (e2 - low)).

(** [x === y] on numbers. *)
Definition numberEquals (x y : Number) : bool :=
  match x, y with
  | Infinity s1, Infinity s2 => Bool.eqb s1 s2
  | Finite m1 e1, Finite m2 e2 =>
      match compareFinite m1 e1 m2 e2 with
      | Eq => true
      | _ => false
      end
  | _, _ => false
  end.

(** [x < y] on numbers. *)
Definition numberLess (x y : Number) : bool :=
  match x, y with
  | NaN, _ | _, NaN => false
  | Infinity true, Infinity true => false
  | Infinity true, _ => true
  | _, Infinity true => false
  | Infinity false, _ => false
  | Finite _ _, Infinity false => true
  | Finite m1 e1, Finite m2 e2 =>
      match compareFinite m1 e1 m2 e2 with
      | Lt => true
      | _ => false
      end
  end.

(** [x <= y] on numbers. *)
Definition numberLessOrEqual (x y : Number) : bool :=
  match x, y with
  | NaN, _ | _, NaN => false
  | _, _ => negb (numberLess y x)
  end.

(** [typeof value] *)
Definition typeOf (value : Value) : string :=
  match value with
  | VUndefined => "undefined"
  | VNull => "object"
  | VBoolean _ => "boolean"
  | VNumber _ => "number"
  | VString _ => "string"
  | VBigInt _ => "bigint"
  | VSymbol _ => "symbol"
  | VFunction _ => "function"
  | VDate _ _ | VRegExp _ _ | VArray _ _ | VObject _ _ _ _ => "object"
  end.

(** [a === b] *)
Definition strictEquals (a b : Value) : bool :=
  match a, b with
  | VUndefined, VUndefined => true
  | VNull, VNull => true
  | VBoolean x, VBoolean y => Bool.eqb x y
  | VNumber x, VNumber y => numberEquals x y
  | VString x, VString y => String.eqb x y
  | VBigInt x, VBigInt y => Z.eqb x y
  | VSymbol r1, VSymbol r2 => Nat.eqb r1 r2
  | VFunction r1, VFunction r2 => Nat.eqb r1 r2
  | VDate r1 _, VDate r2 _ => Nat.eqb r1 r2
  | VRegExp r1 _, VRegExp r2 _ => Nat.eqb r1 r2
  | VArray r1 _, VArray r2 _ => Nat.eqb r1 r2
  | VObject r1 _ _ _, VObject r2 _ _ _ => Nat.eqb r1 r2
  | _, _ => false
  end.

(** [value == null] *)
Definition isNullish (value : Value) : bool :=
  match value with
  | VUndefined | VNull => true
  | _ => false
  end.


Definition isArray (value : Value) : bool :=
  match value with
  | VArray _ _ => true
  | _ => false
  end.

(** [getType(value)] *)
Definition getType (value : Value) : string :=
  match value with
  | VNull => "null"
  | VUndefined => "undefined"
  | VArray _ _ => "array"
  | _ => typeOf value
  end.

(** [b[key]] for an own property, and [hasOwnProperty.call(b, key)],
    on the own properties of [b], enumerable or not. *)
Fixpoint getOwn (key : string) (props : list (string * Value)) : option Value :=
  match props with
  | [] => None
  | (k, v) :: props' => if String.eqb k key then Some v else getOwn key props'
  end.

Definition sameProto (p1 p2 : option nat) : bool :=
  match p1, p2 with
  | None, None => true
  | Some r1, Some r2 => Nat.eqb r1 r2
  | _, _ => false
  end.

(** [deepEqual(a, b)].  In the branch of objects the loop over
    [Object.keys(a)] reads [a[key]] off the list it walks, and looks
    [key] up among all the own properties of [b]. *)
Fixpoint deepEqual (a b : Value) {struct a} : bool :=
  if strictEquals a b then true
  else if isNullish a || isNullish b then strictEquals a b
  else if negb (String.eqb (getType a) (getType b)) then false
  else
    match a, b with
    | VDate _ t1, VDate _ t2 => numberEquals t1 t2
    | VRegExp _ s1, VRegExp _ s2 => String.eqb s1 s2
    | VArray _ l1, VArray _ l2 =>
        if negb (length l1 =? length l2)%nat then false
        else
          (fix elements (l1 l2 : list Value) : bool :=
             match l1, l2 with
             | x :: l1', y :: l2' => if negb (deepEqual x y) then false else elements l1' l2'
             | _, _ => true
             end) l1 l2
    | VObject _ p1 props1 _, VObject _ p2 props2 hidden2 =>
        if negb (sameProto p1 p2) then false
        else if negb (length props1 =? length props2)%nat then false
        else
          (fix keys (props : list (string * Value)) : bool :=
             match props with
             | [] => true
             | (key, x) :: props' =>
                 match getOwn key (props2 ++ hidden2) with
                 | None => false
                 | Some y => if negb (deepEqual x y) then false else keys props'
                 end
             end) props1
    | _, _ =>
        (* two objects of different kinds: their prototypes differ;
           two functions, two symbols: nothing applies *)
        false
    end.

(** *** Replacing a placeholder

    [s.replace(pattern, replacement)] with two strings: the first
    occurrence of [pattern] is replaced, and [$$], [$&], [$`] and [$']
    in [replacement] stand for a dollar, the match, what precedes it and
    what follows it. *)
Fixpoint findFirst (pattern : list ascii) (before s : list ascii)
    : option (list ascii * list ascii) :=
  if isPrefix pattern s then Some (rev before, drop (length pattern) s)
  else
    match s with
    | [] => None
    | c :: s' => findFirst pattern (c :: before) s'
    end.

Fixpoint getSubstitution (matched before after : list ascii) (replacement : list ascii)
    : list ascii :=
  match replacement with
  | [] => []
  | c :: rest =>
      if Ascii.eqb c "$" then
        match rest with
        | d :: rest' =>
            if Ascii.eqb d "$" then "$"%char :: getSubstitution matched before after rest'
            else if Ascii.eqb d "&" then matched ++ getSubstitution matched before after rest'
            else if Ascii.eqb d "`" then before ++ getSubstitution matched before after rest'
            else if Ascii.eqb d "'" then after ++ getSubstitution matched before after rest'
            else c :: getSubstitution matched before after rest
        | [] => [c]
        end
      else c :: getSubstitution matched before after rest
  end.

Definition replace (s pattern replacement : string) : string :=
  match findFirst (chars pattern) [] (chars s) with
  | None => s
  | Some (before, after) =>
      str (before ++ getSubstitution (chars pattern) before after (chars replacement)
           ++ after)
  end.

(** *** The class [Assertion] *)

Record Assertion := mkAssertion {
  actual : Value;
  isNegated : bool
}.

(** [expect(actual)] *)
Definition expect (actual : Value) : Assertion := mkAssertion actual false.

(** [get not()] *)
Definition not_ (this : Assertion) : Assertion :=
  mkAssertion (actual this) (negb (isNegated this)).

Section WithHost.

(** What the host does and this development leaves open: the rendering
    of a value in a message ([stringify], which throws on a date that is
    not a valid time) and the error object [new Error(message)]. *)
Context (stringify : Value → Completion string) (newError : string → JsValue).

(** [throw new Error(message)] where evaluating the message may throw. *)
Definition throwError {A} (message : Completion string) : Completion A :=
  match message with
  | Normal m => Abrupt (newError m)
  | Abrupt v => Abrupt v
  end.

Definition generateErrorMessage (this : Assertion) (expected : Value)
    (messageTpl : string) : Completion string :=
  let negation := if isNegated this then "not " else "" in
  cbind (stringify (actual this)) (fun actualStr =>
  cbind (if includes messageTpl "%{expected}" then stringify expected else Normal "")
    (fun expectedStr =>
  Normal (replace (replace (replace messageTpl "%{negation}" negation)
                     "%{actual}" actualStr)
            "%{expected}" expectedStr))).

Definition check (this : Assertion) (condition : bool) (expected : Value)
    (messageTpl : string) : Completion unit :=
  if (if isNegated this then condition else negb condition) then
    throwError (generateErrorMessage this expected messageTpl)
  else Normal tt.


Definition toEqual (this : Assertion) (expected : Value) : Completion unit :=
  check this (deepEqual (actual this) expected) expected
    "Expected %{actual} %{negation}to deeply equal %{expected}".








(** The guard of the four comparisons:
    [typeof this.actual !== 'number' || typeof expected !== 'number']. *)
Definition notNumbers (this : Assertion) (expected : Value) : bool :=
  negb (String.eqb (typeOf (actual this)) "number")
  || negb (String.eqb (typeOf expected) "number").

Definition mustBeNumbers (this : Assertion) (expected : Value) (matcher : string)
    : Completion string :=
  cbind (stringify (actual this)) (fun actualStr =>
  cbind (stringify expected) (fun expectedStr =>
  Normal ("Both actual (" +:+ actualStr +:+ ") and expected (" +:+ expectedStr
          +:+ ") must be numbers for " +:+ matcher))).

(** The number a value of type number holds. *)
Definition numberOf (value : Value) : Number :=
  match value with
  | VNumber n => n
  | _ => NaN
  end.

Definition toBeGreaterThan (this : Assertion) (expected : Value) : Completion unit :=
  if notNumbers this expected
  then throwError (mustBeNumbers this expected "toBeGreaterThan")
  else
    check this (numberLess (numberOf expected) (numberOf (actual this))) expected
      "Expected %{actual} %{negation}to be greater than %{expected}".

Definition gt := toBeGreaterThan.

Definition toBeGreaterThanOrEqual (this : Assertion) (expected : Value)
    : Completion unit :=
  if notNumbers this expected
  then throwError (mustBeNumbers this expected "toBeGreaterThanOrEqual")
  else
    check this (numberLessOrEqual (numberOf expected) (numberOf (actual this))) expected
      "Expected %{actual} %{negation}to be greater than or equal to %{expected}".

Definition gte := toBeGreaterThanOrEqual.

Definition toBeLessThan (this : Assertion) (expected : Value) : Completion unit :=
  if notNumbers this expected
  then throwError (mustBeNumbers this expected "toBeLessThan")
  else
    check this (numberLess (numberOf (actual this)) (numberOf expected)) expected
      "Expected %{actual} %{negation}to be less than %{expected}".

Definition lt := toBeLessThan.

Definition toBeLessThanOrEqual (this : Assertion) (expected : Value) : Completion unit :=
  if notNumbers this expected
  then throwError (mustBeNumbers this expected "toBeLessThanOrEqual")
  else
    check this (numberLessOrEqual (numberOf (actual this)) (numberOf expected)) expected
      "Expected %{actual} %{negation}to be less than or equal to %{expected}".

Definition lte := toBeLessThanOrEqual.



End WithHost.

(** *** Well-formed values: the keys of every object are distinct. *)
Fixpoint distinctKeys (value : Value) : Prop :=
  match value with
  | VArray _ l =>
      (fix all (l : list Value) : Prop :=
         match l with
         | [] => True
         | x :: l' => distinctKeys x ∧ all l'
         end) l
  | VObject _ _ props hidden =>
      NoDup (props ++ hidden).*1 ∧
      (fix all (props : list (string * Value)) : Prop :=
         match props with
         | [] => True
         | (_, x) :: props' => distinctKeys x ∧ all props'
         end) props ∧
      (fix all (props : list (string * Value)) : Prop :=
         match props with
         | [] => True
         | (_, x) :: props' => distinctKeys x ∧ all props'
         end) hidden
  | _ => True
  end.



Definition keyEqual (own2 : list (string * Value)) (kv : string * Value) : bool :=
  match getOwn kv.1 own2 with
  | None => false
  | Some y => deepEqual kv.2 y
  end.

End Assertion.

(** ** More scenarios *)

Module MoreScenarios.
Import Scenario.



(** The state [runTests] starts from on a fresh registry. *)
Definition freshState : RunState Log := mkRunState [] [] [] false ∅ ∅ [].

(** A stack as Node prints it, with a frame of a test file after a frame
    of a library. *)
Definition stackOfBoom : string := "Error: boom
  at f (file:///C:/lib/node_modules/x.js:3:4)
  at C:\proj\test\a.test.ts:10:15".

Definition linesOfBoom : list string :=
  ["Error: boom"; "at f (file:///C:/lib/node_modules/x.js:3:4)";
   "at C:\proj\test\a.test.ts:10:15"].

(** A registry with one test on the root block. *)
Definition withOrphan : Registry Log := (it "orphan" (push "orphan") initialRegistry).2.

(** A host for the examples of assertions: a value is rendered as its
    type, and an error has no stack. *)
Definition hostStringify (value : Assertion.Value) : Completion string :=
  Normal (Assertion.typeOf value).

Definition hostError (message : string) : JsValue :=
  JsErrorObject "Error" message StackAbsent.

(** Hooks that record their calls: the world is the log of the calls.
    Suite A with two before-all hooks and test t1, its child suite B
    with a before-all hook and test t2. *)
Definition recordCall (id : BlockId) (k : nat) : HookFn (list HookCall) :=
  fun w => (None, w ++ [(id, k)]).

Definition silent : HookFn (list HookCall) := fun w => (None, w).

Definition registerRecording : Reg (list HookCall) unit :=
  describe "A" (script [
    beforeAll (recordCall [0%nat] 0);
    beforeAll (recordCall [0%nat] 1);
    it "t1" silent;
    describe "B" (script [
      beforeAll (recordCall [0%nat; 0%nat] 0);
      it "t2" silent
    ])
  ]).

Definition recordingTree : DescribeBlock (list HookCall) :=
  rootDescribeBlock (registerRecording initialRegistry).2.

Definition recordingOptions : RunOptions (list HookCall) :=
  mkRunOptions None None false None.

(** [1], [2], and the objects [{a: 1, b: 2}] and [{b: 2, a: 1}]. *)
Definition one : Assertion.Value := Assertion.VNumber (Finite 1 0).
Definition two : Assertion.Value := Assertion.VNumber (Finite 2 0).

Definition propsAB : list (string * Assertion.Value) := [("a", one); ("b", two)].
Definition propsBA : list (string * Assertion.Value) := [("b", two); ("a", one)].

Definition objectAB : Assertion.Value := Assertion.VObject 1 (Some 0%nat) propsAB [].
Definition objectBA : Assertion.Value := Assertion.VObject 2 (Some 0%nat) propsBA [].

(** [{x: 1}], and [{y: 2}] with
    [Object.defineProperty(_, 'x', { value: 1, enumerable: false })]. *)
Definition objectX : Assertion.Value :=
  Assertion.VObject 3 (Some 0%nat) [("x", one)] [].
Definition objectYHiddenX : Assertion.Value :=
  Assertion.VObject 4 (Some 0%nat) [("y", two)] [("x", one)].

End MoreScenarios.

(** * Properties *)

(** ** Induction on a tree of blocks *)

Lemma DescribeBlock_rect_nested {W} (P : DescribeBlock W → Prop) :
  (∀ n cs ts h1 h2 h3 h4, Forall P cs → P (mkDescribeBlock n cs ts h1 h2 h3 h4)) →
  ∀ b, P b.
Proof.
  intros step. fix IH 1. intros [n cs ts h1 h2 h3 h4].
  apply step. induction cs as [|c cs IHcs]; constructor; [apply IH | exact IHcs].
Qed.

(** ** The hook collector *)

Section Collector.
Context {W : Type}.
Implicit Types (chain anc : list (DescribeBlock W)) (b root : DescribeBlock W).
Implicit Types (type : HookType) (id : BlockId).

Lemma walkUp_app chain acc : walkUp chain acc = acc ++ chain.
Proof.
  revert acc. induction chain as [|b chain IH]; intros acc; simpl.
  - by rewrite app_nil_r.
  - by rewrite IH, <- app_assoc.
Qed.

Lemma outermostFirst_spec type chain n hooks :
  outermostFirst type chain n hooks
  = hooks ++ concat (map (hooksOf type) (rev (take n chain))).
Proof.
  revert hooks. induction n as [|i IH]; intros hooks; simpl.
  - by rewrite app_nil_r.
  - rewrite IH. unfold hooksAt. destruct (chain !! i) as [b|] eqn:Hb.
    + rewrite (take_S_r _ _ _ Hb), rev_app_distr. simpl.
      by rewrite <- app_assoc.
    + apply lookup_ge_None in Hb.
      rewrite !take_ge by lia. by rewrite app_nil_r.
Qed.

Lemma innermostFirst_spec type chain todo i hooks :
  innermostFirst type chain todo i hooks
  = hooks ++ concat (map (hooksOf type) (take todo (drop i chain))).
Proof.
  revert i hooks. induction todo as [|todo IH]; intros i hooks; simpl.
  - by rewrite app_nil_r.
  - rewrite IH. unfold hooksAt. destruct (chain !! i) as [b|] eqn:Hb.
    + rewrite (drop_S _ _ _ Hb). simpl. by rewrite <- app_assoc.
    + apply lookup_ge_None in Hb.
      rewrite !drop_ge by lia. rewrite !take_nil. simpl. by rewrite !app_nil_r.
Qed.

(** On the list made of a block and its ancestors, innermost first: the
    before phases take the hooks from the far end, the after phases from
    the near end. *)
Lemma collectHooks_chain chain type :
  collectHooks chain type
  = match type with
    | BeforeAll | BeforeEach => concat (map (hooksOf type) (rev chain))
    | AfterEach | AfterAll => concat (map (hooksOf type) chain)
    end.
Proof.
  unfold collectHooks. rewrite walkUp_app. simpl.
  destruct type; rewrite ?outermostFirst_spec, ?innermostFirst_spec; simpl;
    rewrite ?take_ge, ?drop_0 by (simpl; lia); try done.
  all: by rewrite firstn_all.
Qed.

(** The list a node travels with is the path from the root, reversed. *)
Lemma Node_path anc id b anc' id' b' :
  Node anc id b anc' id' b' →
  ∃ l, id' = l ++ id ∧ rev (b' :: anc') = rev anc ++ blocksOnPath (rev l) b.
Proof.
  induction 1 as [anc id b|anc id b k c anc' id' b' Hk _ (l & -> & IH)].
  - exists []. by split.
  - exists (l ++ [k]). split; [by rewrite <- app_assoc|].
    rewrite IH, rev_app_distr. simpl. rewrite Hk. by rewrite <- app_assoc.
Qed.

Lemma Node_root_path root anc id b :
  Node [] [] root anc id b → rev (b :: anc) = blocksOnPath (rev id) root.
Proof.
  intros (l & -> & ->)%Node_path. by rewrite app_nil_r.
Qed.

(** C4.  For every block of the tree under [root] and every phase,
    [collectHooks] returns the concatenation of the hook lists of the
    blocks on the path from the root to the block: in path order (root
    first, the block's own hooks last) for before-all and before-each, in
    the reverse order (own hooks first, root last) for after-each and
    after-all. *)
Theorem collectHooks_root_to_node root anc id b type :
  Node [] [] root anc id b →
  collectHooks (b :: anc) type
  = match type with
    | BeforeAll | BeforeEach =>
        concat (map (hooksOf type) (blocksOnPath (rev id) root))
    | AfterEach | AfterAll =>
        concat (map (hooksOf type) (rev (blocksOnPath (rev id) root)))
    end.
Proof.
  intros Hnode. rewrite collectHooks_chain.
  rewrite <- (Node_root_path _ _ _ _ Hnode), rev_involutive.
  by destruct type.
Qed.

End Collector.

(** ** The error normaliser *)

Section Normaliser.

(** Error objects: name, message and the stack split into trimmed lines;
    the location fields are those of the first frame of the sorted list
    when a frame is recognised. *)
Lemma parseError_error_object name message stack lines :
  stackLines stack = Normal lines →
  ∃ file line column,
    parseError (JsErrorObject name message stack)
    = Normal (mkSafeError (Some name) message file line column (Some lines)) ∧
    match head (sortFrames (fold_left scanFrameLine lines [])) with
    | Some frame =>
        file = Some (sf_file frame) ∧ line = Some (sf_line frame)
        ∧ column = Some (sf_column frame)
    | None => file = None ∧ line = None ∧ column = None
    end.
Proof.
  intros Hlines. unfold parseError, parseErrorTry. rewrite Hlines. simpl.
  destruct (head _) as [frame|]; eauto 10.
Qed.

(** Other values whose coercion to a string returns: the string is the
    message. *)
Lemma parseError_non_error s :
  parseError (JsNonError s) = Normal (mkSafeError None s None None None None).
Proof. reflexivity. Qed.

(** A failure inside the [try] block on an error object degrades to the
    fallback record. *)
Lemma parseError_fallback name message :
  parseError (JsErrorObject name message StackNotString)
  = Normal (mkSafeError None
              ("Unknown error (" +:+ errorToString name message +:+ ")")
              None None None None).
Proof. reflexivity. Qed.

(** C8.  On a value whose coercion to a string throws, [parseError]
    itself throws: [String(e)] fails in the [try] block, and the [catch]
    block evaluates [String(e)] again.  The exception that leaves
    [parseError] is the one thrown by the coercion. *)
Theorem parseError_throws_on_unprintable thrown :
  parseError (JsUnprintable thrown) = Abrupt thrown.
Proof. reflexivity. Qed.

(** X8.  These are the only values on which [parseError] throws: on a
    value whose coercion to a string does not throw, it returns. *)
Lemma parseError_returns e :
  (∀ thrown, e ≠ JsUnprintable thrown) → ∃ r, parseError e = Normal r.
Proof.
  intros Hprintable. destruct e as [name message stack|s|thrown].
  - destruct stack as [|s|].
    + destruct (parseError_error_object name message StackAbsent [] eq_refl)
        as (f & l & c & -> & _). eauto.
    + destruct (stackLines (StackString s)) as [lines|v] eqn:Hlines.
      * destruct (parseError_error_object name message _ lines Hlines)
          as (f & l & c & -> & _). eauto.
      * simpl in Hlines. by destruct (String.eqb s "").
    + rewrite parseError_fallback. eauto.
  - rewrite parseError_non_error. eauto.
  - by destruct (Hprintable thrown).
Qed.

(** A stack as Node prints it: the first frame that lies in a test file is
    preferred to the frames before it. *)
Example parseError_test_frame_first :
  parseError (JsErrorObject "Error" "boom" (StackString "Error: boom
  at f (file:///C:/lib/node_modules/x.js:3:4)
  at C:\proj\test\a.test.ts:10:15
at g (file:///C:/proj/test/b.ts:1:2)"))
  = Normal (mkSafeError (Some "Error") "boom" (Some "C:\proj\test\a.test.ts")
              (Some (Finite 10 0)) (Some (Finite 15 0))
              (Some ["Error: boom"; "at f (file:///C:/lib/node_modules/x.js:3:4)";
                     "at C:\proj\test\a.test.ts:10:15";
                     "at g (file:///C:/proj/test/b.ts:1:2)"])).
Proof. vm_compute. reflexivity. Qed.

Example stack_frame_patterns :
  Regex.exec Regex.pattern1 "at file:///C:/path/to/file.ts:10:15"
    = Some ["C:/path/to/file.ts"; "10"; "15"] ∧
  Regex.exec Regex.pattern2 "at C:\path\to\file.ts:10:15"
    = Some ["C:\path\to\file.ts"; "10"; "15"] ∧
  Regex.exec Regex.pattern3 "at functionName (C:\path\to\file.ts:10:15)"
    = Some ["C:\path\to\file.ts"; "10"; "15"] ∧
  Regex.exec Regex.pattern4 "at functionName (file:///C:/path/to/file.ts:10:15)"
    = Some ["C:/path/to/file.ts"; "10"; "15"] ∧
  Regex.exec Regex.pattern1 "at file:///a:b:1:2" = Some ["a:b"; "1"; "2"] ∧
  Regex.exec Regex.pattern1 "xat file:///a:1:2" = None.
Proof. vm_compute. repeat split. Qed.

End Normaliser.

(** ** The registry *)

Section Registry.
Context {W : Type}.
Implicit Types (st : Registry W) (fn : TestFn W) (root : DescribeBlock W).

(** The cursor is a block after every registration call that finds it on
    a block: the [null] case of the guards does not arise from the
    initial registry. *)
Lemma it_keeps_cursor name fn st :
  currentDescribeBlock (it name fn st).2 = currentDescribeBlock st.
Proof.
  unfold it. destruct (currentDescribeBlock st) eqn:Hc; [|done].
  by destruct (extractTags name).
Qed.

Lemma registerHook_keeps_cursor type what (fn : HookFn W) st :
  currentDescribeBlock (registerHook type what fn st).2 = currentDescribeBlock st.
Proof. unfold registerHook. by destruct (currentDescribeBlock st) eqn:Hc. Qed.

Lemma describe_restores_cursor name (body : Reg W unit) st :
  currentDescribeBlock (describe name body st).2 = currentDescribeBlock st.
Proof.
  unfold describe. destruct (currentDescribeBlock st) eqn:Hc; [|done].
  by destruct (body _).
Qed.

(** [it] with the cursor on the root: the test is pushed on the root's
    own list and the call returns. *)
Lemma it_at_root name fn root :
  it name fn (mkRegistry root (Some []))
  = (Normal tt,
     mkRegistry (pushTest (mkTestCase (extractTags name).1 fn (extractTags name).2) root)
                (Some [])).
Proof. unfold it. simpl. by destruct (extractTags name). Qed.

(** C7.  [it] called with no enclosing [describe], on the registry as the
    module creates it: the call returns normally (no error is raised) and
    the test is registered on the root block. *)
Theorem it_outside_describe_registers name fn :
  (it name fn initialRegistry).1 = Normal tt ∧
  tests (rootDescribeBlock (it name fn initialRegistry).2)
  = [mkTestCase (extractTags name).1 fn (extractTags name).2].
Proof. unfold initialRegistry. rewrite it_at_root. by split. Qed.

End Registry.

(** ** The runner: what a visit adds to the history *)

Section RunnerShape.
Context {W : Type} (perf_now : W → Z) (options : RunOptions W).
Implicit Types (st : RunState W) (chain anc : list (DescribeBlock W)).
Implicit Types (block : DescribeBlock W) (id : BlockId) (d : list Step).

Lemma bind_inv {A B} (m : M W A) (f : A → M W B) st r st' :
  bind m f st = (r, st') →
  (∃ a st1, m st = (Normal a, st1) ∧ f a st1 = (r, st'))
  ∨ (∃ v, m st = (Abrupt v, st') ∧ r = Abrupt v).
Proof.
  unfold bind. destruct (m st) as [[a|v] st1]; intros Heq.
  - left. eauto.
  - right. injection Heq as <- <-. eauto.
Qed.

Lemma Delta_refl st : Delta st st [].
Proof.
  split; [by rewrite app_nil_r|]. exists []. by rewrite app_nil_r.
Qed.

Lemma Delta_trans st st1 st2 d1 d2 :
  Delta st st1 d1 → Delta st1 st2 d2 → Delta st st2 (d1 ++ d2).
Proof.
  intros [Hh1 (rs1 & Hr1 & Hs1)] [Hh2 (rs2 & Hr2 & Hs2)]. split.
  - by rewrite Hh2, Hh1, app_assoc.
  - exists (rs1 ++ rs2). split; [by rewrite Hr2, Hr1, app_assoc|].
    by apply Forall_app.
Qed.

(** *** Rules for [AllSteps] *)

Lemma AllSteps_quiet {A} φ (m : M W A) :
  (∀ st r st', m st = (r, st') →
     ranBeforeAll st' = ranBeforeAll st ∧ history st' = history st
     ∧ results st' = results st) →
  AllSteps φ m.
Proof.
  intros Hq st r st' Hm. destruct (Hq _ _ _ Hm) as (Hran & Hh & Hr).
  split; [done|]. exists []. split; [|done].
  split; [by rewrite app_nil_r|]. exists []. by rewrite app_nil_r.
Qed.

Lemma AllSteps_ret {A} φ (a : A) : AllSteps φ (ret a : M W A).
Proof. apply AllSteps_quiet. by intros st r st' [= <- <-]. Qed.

Lemma AllSteps_getState φ : AllSteps φ (@getState W).
Proof. apply AllSteps_quiet. by intros st r st' [= <- <-]. Qed.

Lemma AllSteps_now φ : AllSteps φ (now perf_now).
Proof. apply AllSteps_quiet. by intros st r st' [= <- <-]. Qed.

Lemma AllSteps_raiseBail φ : AllSteps φ (@raiseBail W).
Proof. apply AllSteps_quiet. by intros st r st' [= <- <-]. Qed.

Lemma AllSteps_markExecuted φ id : AllSteps φ (@markExecuted W id).
Proof. apply AllSteps_quiet. by intros st r st' [= <- <-]. Qed.

Lemma AllSteps_emit φ ev : AllSteps φ (emit options ev).
Proof.
  apply AllSteps_quiet. intros st r st'. unfold emit.
  destruct (opt_onEvent options) as [onEvent|]; [|by intros [= <- <-]].
  destruct (onEvent ev (world st)) as [[thrown|] w]; by intros [= <- <-].
Qed.

(** The handler touches the world and nothing else. *)
Lemma emit_fields ev st :
  results (emit options ev st).2 = results st ∧
  history (emit options ev st).2 = history st ∧
  globalBail (emit options ev st).2 = globalBail st ∧
  ranBeforeAll (emit options ev st).2 = ranBeforeAll st ∧
  executed (emit options ev st).2 = executed st.
Proof.
  unfold emit. destruct (opt_onEvent options) as [onEvent|]; [|done].
  by destruct (onEvent ev (world st)) as [[thrown|] w].
Qed.

Lemma AllSteps_awaitHooks φ (hooks : list (HookFn W)) : AllSteps φ (awaitHooks hooks).
Proof.
  apply AllSteps_quiet. intros st r st'. unfold awaitHooks.
  destruct (runHooks hooks (world st)); by intros [= <- <-].
Qed.

Lemma AllSteps_awaitTest φ (fn : TestFn W) : AllSteps φ (awaitTest fn).
Proof.
  apply AllSteps_quiet. intros st r st'. unfold awaitTest.
  destruct (fn (world st)); by intros [= <- <-].
Qed.

Lemma AllSteps_parse φ e : AllSteps φ (@parse W e).
Proof.
  apply AllSteps_quiet. intros st r st'. unfold parse.
  destruct (parseError e); by intros [= <- <-].
Qed.

Lemma AllSteps_pushResult φ r : notSkipped r → AllSteps φ (@pushResult W r).
Proof.
  intros Hr st r' st' [= <- <-]. split; [done|]. exists []. split; [|done].
  split; [by rewrite app_nil_r|]. exists [r]. split; [done|]. by constructor.
Qed.

Lemma AllSteps_logStep (φ : Step → Prop) s : φ s → AllSteps φ (@logStep W s).
Proof.
  intros Hs st r st' [= <- <-]. split; [done|]. exists [s]. split.
  - split; [done|]. exists []. by rewrite app_nil_r.
  - by constructor.
Qed.

Lemma AllSteps_bind {A B} φ (m : M W A) (f : A → M W B) :
  AllSteps φ m → (∀ a, AllSteps φ (f a)) → AllSteps φ (bind m f).
Proof.
  intros Hm Hf st r st' [(a & st1 & H1 & H2)|(v & H1 & ->)]%bind_inv.
  - destruct (Hm _ _ _ H1) as (Hran1 & d1 & HD1 & Hφ1).
    destruct (Hf a _ _ _ H2) as (Hran2 & d2 & HD2 & Hφ2).
    split; [congruence|]. exists (d1 ++ d2).
    split; [by eapply Delta_trans | by apply Forall_app].
  - by apply Hm in H1.
Qed.

Lemma AllSteps_when φ (b : bool) (m : M W unit) :
  AllSteps φ m → AllSteps φ (when b m).
Proof. destruct b; [done|]. intros _. apply AllSteps_ret. Qed.

Lemma AllSteps_weaken {A} (φ ψ : Step → Prop) (m : M W A) :
  (∀ s, φ s → ψ s) → AllSteps φ m → AllSteps ψ m.
Proof.
  intros Himp Hm st r st' Hrun. destruct (Hm _ _ _ Hrun) as (Hran & d & HD & Hφ).
  split; [done|]. exists d. split; [done|]. eapply Forall_impl; eauto.
Qed.

Ltac all_steps :=
  repeat first
    [ apply AllSteps_ret | apply AllSteps_getState | apply AllSteps_now
    | apply AllSteps_raiseBail | apply AllSteps_markExecuted | apply AllSteps_emit
    | apply AllSteps_awaitHooks | apply AllSteps_awaitTest | apply AllSteps_parse
    | apply AllSteps_bind; [|intros ?]
    | apply AllSteps_when
    | match goal with
      | |- AllSteps _ (match ?x with _ => _ end) => destruct x
      end ].

(** *** Sections 2 and 4 *)

Lemma runTestCase_steps id i chain suitePath testCase :
  AllSteps (StepOfTest id i) (runTestCase perf_now options id i chain suitePath testCase).
Proof.
  unfold runTestCase, testStage, cleanupStage, StepOfTest.
  all_steps;
    try (apply AllSteps_logStep; repeat case_match; by eauto 10);
    try (apply AllSteps_pushResult; unfold notSkipped; simpl;
         by repeat case_match).
Qed.

Lemma testLoop_steps id chain tests done_ rest :
  tests = done_ ++ rest →
  AllSteps (TestStep options id chain tests)
    (testLoop perf_now options id chain (getSuitePath chain) rest (length done_)).
Proof.
  revert done_. induction rest as [|testCase rest IH]; intros done_ Htests; simpl.
  - apply AllSteps_ret.
  - apply AllSteps_bind; [apply AllSteps_getState|]. intros st.
    destruct (globalBail st); [apply AllSteps_ret|].
    assert (AllSteps (TestStep options id chain tests)
              (testLoop perf_now options id chain (getSuitePath chain) rest
                 (S (length done_)))) as Hrest.
    { specialize (IH (done_ ++ [testCase])). rewrite length_app in IH. simpl in IH.
      rewrite Nat.add_1_r in IH. apply IH. by rewrite <- app_assoc. }
    destruct (shouldRun _ _ _) eqn:Hrun; simpl; [|done].
    apply AllSteps_bind.
    + eapply AllSteps_weaken; [|apply runTestCase_steps].
      intros s Hs. exists (length done_), testCase. split; [|done].
      rewrite Htests. by rewrite list_lookup_middle.
    + intros []; [apply AllSteps_ret | done].
Qed.

Lemma afterAllPhase_steps id block suitePath beforeAllSuccess :
  AllSteps (AfterStep id) (afterAllPhase options id block suitePath beforeAllSuccess).
Proof.
  unfold afterAllPhase, AfterStep.
  all_steps;
    try (apply AllSteps_logStep; by eauto);
    try (by apply AllSteps_pushResult).
Qed.

Lemma afterAllPhase_skipped id block suitePath st :
  afterAllPhase options id block suitePath false st = (Normal None, st).
Proof.
  unfold afterAllPhase, bind, getState. simpl. by rewrite andb_false_r.
Qed.

(** *** Section 1 *)

Lemma lineage_ids ran chain id acc :
  (length chain ≤ S (length id))%nat →
  ∃ new,
    (lineageLoop ran id chain acc).*1 = new ++ acc.*1 ∧
    NoDup new ∧
    (∀ a, a ∈ new → (a ∉ ran) ∧ suffix a id) ∧
    (chain ≠ [] → id ∉ ran → id ∈ new).
Proof.
  revert id acc. induction chain as [|b parent IH]; intros id acc Hlen; simpl.
  - exists []. split; [done|]. split; [constructor|]. split; [|done].
    intros a Ha. by apply elem_of_nil in Ha.
  - destruct (decide (id ∈ ran)) as [Hin|Hout].
    { exists []. split; [done|]. split; [constructor|]. split; [|done].
      intros a Ha. by apply elem_of_nil in Ha. }
    destruct id as [|x id'].
    + destruct parent; [|simpl in Hlen; lia]. simpl.
      exists [[]]. split; [done|]. split; [apply NoDup_singleton|]. split.
      * by intros a ->%list_elem_of_singleton.
      * intros _ _. by apply list_elem_of_singleton.
    + simpl in Hlen.
      destruct (IH id' ((x :: id', b) :: acc)) as (new & Heq & Hnd & Hall & _); [lia|].
      exists (new ++ [x :: id']). split; [|split; [|split]].
      * etrans; [exact Heq|]. simpl. by rewrite <- app_assoc.
      * apply NoDup_app. split; [done|]. split; [|apply NoDup_singleton].
        intros a Ha ->%list_elem_of_singleton.
        destruct (Hall _ Ha) as [_ Hsuf]. apply suffix_length in Hsuf.
        simpl in Hsuf. lia.
      * intros a [Ha| ->%list_elem_of_singleton]%elem_of_app; [|done].
        destruct (Hall _ Ha) as [Hran Hsuf]. split; [done|]. by apply suffix_cons_r.
      * intros _ _. apply elem_of_app. right. by apply list_elem_of_singleton.
Qed.

Lemma markLoop_spec (lineage : list (BlockId * DescribeBlock W)) hooks st :
  NoDup lineage.*1 →
  (∀ a, a ∈ lineage.*1 → a ∉ ranBeforeAll st) →
  ∃ st',
    markLoop lineage hooks st
    = (Normal (hooks ++ concat (map (fun p => beforeAllHooks p.2) lineage)), st') ∧
    ranBeforeAll st' = list_to_set lineage.*1 ∪ ranBeforeAll st ∧
    history st' = history st ++ markSteps lineage.*1 ∧
    results st' = results st.
Proof.
  revert hooks st. induction lineage as [|[a ancestor] lineage IH];
    intros hooks st Hnd Hfresh; simpl.
  - exists st. rewrite !app_nil_r. repeat split. set_solver.
  - simpl in Hnd. apply NoDup_cons in Hnd as [Ha Hnd].
    unfold bind at 1. simpl. unfold bind at 1. simpl. unfold bind at 1. simpl.
    edestruct (IH (hooks ++ beforeAllHooks ancestor)) as (st' & -> & Hran & Hh & Hr);
      [done| |].
    { simpl. intros a' Ha'. specialize (Hfresh a'). set_solver. }
    exists st'. repeat split.
    + by rewrite <- app_assoc.
    + rewrite Hran. simpl. set_solver.
    + rewrite Hh. simpl. rewrite <- app_assoc. simpl.
      rewrite bool_decide_eq_false_2; [done|]. apply Hfresh. set_solver.
    + by rewrite Hr.
Qed.

Lemma runCollected_shape id lineage suitePath hooks st r st' :
  runCollected options id lineage suitePath hooks st = (r, st') →
  ranBeforeAll st' = ranBeforeAll st ∧
  ∃ rest ok,
    Delta st st' rest ∧
    (rest = [] ∧ ok = true
     ∨ rest = [BeforeAllRun id lineage] ∧ ok = true
     ∨ rest = [BeforeAllRun id lineage; BeforeAllFailed id] ∧ ok = false) ∧
    (ok = true ↔ r = Normal true).
Proof.
  unfold runCollected. destruct (0 <? length hooks)%nat.
  2:{ intros [= <- <-]. split; [done|]. exists [], true.
      split; [apply Delta_refl|]. split; [by left|done]. }
  unfold bind, logStep, awaitHooks. simpl.
  destruct (runHooks hooks (world st)) as [[|error] w]; simpl.
  { intros [= <- <-]. split; [done|]. exists [BeforeAllRun id lineage], true.
    split; [|split; [by right; left|done]].
    split; [done|]. exists []. by rewrite app_nil_r. }
  unfold parse. simpl. destruct (parseError error) as [e|v]; simpl.
  2:{ intros [= <- <-]. split; [done|].
      exists [BeforeAllRun id lineage; BeforeAllFailed id], false.
      split; [|split; [by right; right|done]].
      split; [by rewrite <- app_assoc|]. exists []. by rewrite app_nil_r. }
  unfold emit, when.
  destruct (opt_onEvent options) as [onEvent|];
    [destruct (onEvent _ _) as [[thrown|] w']|];
    destruct (opt_bail options); simpl;
    intros [= <- <-]; (split; [done|]);
    exists [BeforeAllRun id lineage; BeforeAllFailed id], false;
    (split; [|split; [by right; right|done]]);
    (split; [by rewrite <- app_assoc|]);
    eexists [_]; (split; [done|]); by constructor.
Qed.

Lemma beforeAllPhase_shape id chain suitePath st r st' :
  length chain = S (length id) →
  beforeAllPhase options id chain suitePath st = (r, st') →
  ∃ d ok,
    Delta st st' d ∧
    BeforeShape id (ranBeforeAll st) (ranBeforeAll st') d ok ∧
    (ok = true ↔ r = Normal true).
Proof.
  intros Hlen. unfold beforeAllPhase. unfold bind at 1. simpl.
  destruct (decide (id ∈ ranBeforeAll st)) as [Hin|Hout].
  { intros [= <- <-]. exists [], true. split; [apply Delta_refl|].
    split; [by constructor|done]. }
  destruct (lineage_ids (ranBeforeAll st) chain id []) as (new & Heq & Hnd & Hall & Hid);
    [lia|].
  simpl in Heq. rewrite app_nil_r in Heq.
  destruct (markLoop_spec (lineageLoop (ranBeforeAll st) id chain []) [] st)
    as (st1 & Hmark & Hran1 & Hh1 & Hr1).
  { by rewrite Heq. }
  { rewrite Heq. intros a Ha. by destruct (Hall a Ha). }
  intros [(hooks & st1' & Hm & Hrun)|(v & Hm & ->)]%bind_inv;
    rewrite Hmark in Hm; [|done].
  injection Hm as <- <-.
  apply runCollected_shape in Hrun as (Hran & rest & ok & HD & Hrest & Hok).
  exists (markSteps new ++ rest), ok. split; [|split; [|done]].
  - eapply Delta_trans; [|done]. split; [by rewrite Hh1, Heq|].
    exists []. by rewrite app_nil_r.
  - rewrite Hran, Hran1, Heq. rewrite Heq in Hrest.
    apply before_fresh; try done. apply Hid; [|done].
    destruct chain; [done|done].
Qed.

(** *** Section 3 and the whole visit *)

Lemma Delta_quiet st st' :
  history st' = history st → results st' = results st → Delta st st' [].
Proof.
  intros Hh Hr. split; [by rewrite app_nil_r|]. exists []. by rewrite app_nil_r.
Qed.

Lemma childLoop_shape (run : nat → DescribeBlock W → M W bool) chain id cs i st r st' :
  Forall (fun c => ∀ i st r st', run i c st = (r, st') →
            ∃ d, Delta st st' d ∧
                 VisitShape options chain (i :: id) c
                   (ranBeforeAll st) (ranBeforeAll st') d) cs →
  childLoop run cs i st = (r, st') →
  ∃ d, Delta st st' d ∧
       ChildrenShape options chain id cs i (ranBeforeAll st) (ranBeforeAll st') d.
Proof.
  intros Hcs. revert i st. induction Hcs as [|c cs Hc _ IH]; intros i st; simpl.
  - intros [= <- <-]. exists []. split; [apply Delta_refl|constructor].
  - unfold bind at 1. simpl. destruct (globalBail st).
    { intros [= <- <-]. exists []. split; [apply Delta_refl|constructor]. }
    intros [(continueRunning & st1 & Hrun & Hrest)|(v & Hrun & ->)]%bind_inv.
    + apply Hc in Hrun as (d1 & HD1 & Hshape1).
      destruct continueRunning; simpl in Hrest.
      * apply IH in Hrest as (d2 & HD2 & Hshape2).
        exists (d1 ++ d2). split; [by eapply Delta_trans|].
        by eapply children_next.
      * injection Hrest as <- <-. exists (d1 ++ []). split.
        { eapply Delta_trans; [done|]. by apply Delta_quiet. }
        eapply children_next; [done|]. simpl. constructor.
    + apply Hc in Hrun as (d1 & HD1 & Hshape1).
      exists (d1 ++ []). split; [by rewrite app_nil_r|].
      eapply children_next; [done|constructor].
Qed.

Lemma runDescribeBlock_eq anc id block :
  runDescribeBlock perf_now options anc id block
  = bind getState (fun st =>
      if globalBail st then ret false
      else
        bind (markExecuted id) (fun _ =>
        bind (logStep (Entered id)) (fun _ =>
        bind (beforeAllPhase options id (block :: anc) (getSuitePath (block :: anc)))
          (fun beforeAllSuccess =>
        bind getState (fun st1 =>
        bind (when (beforeAllSuccess && negb (globalBail st1))
                (testLoop perf_now options id (block :: anc)
                   (getSuitePath (block :: anc)) (tests block) 0)) (fun _ =>
        bind getState (fun st2 =>
        bind (when (beforeAllSuccess && negb (globalBail st2))
                (childLoop
                   (fun i child =>
                      runDescribeBlock perf_now options (block :: anc) (i :: id) child)
                   (children block) 0)) (fun _ =>
        bind (afterAllPhase options id block (getSuitePath (block :: anc))
                beforeAllSuccess) (fun early =>
        match early with
        | Some r => ret r
        | None => bind getState (fun st3 => ret (negb (globalBail st3)))
        end))))))))).
Proof. by destruct block. Qed.

(** The phases of a visit after section 1 when [beforeAllSuccess] is true. *)
Lemma visit_rest_shape anc id block st r st' :
  Forall (fun c => ∀ i st r st',
            runDescribeBlock perf_now options (block :: anc) (i :: id) c st = (r, st') →
            ∃ d, Delta st st' d ∧
                 VisitShape options (block :: anc) (i :: id) c
                   (ranBeforeAll st) (ranBeforeAll st') d) (children block) →
  bind getState (fun st1 =>
    bind (when (true && negb (globalBail st1))
            (testLoop perf_now options id (block :: anc)
               (getSuitePath (block :: anc)) (tests block) 0)) (fun _ =>
    bind getState (fun st2 =>
    bind (when (true && negb (globalBail st2))
            (childLoop
               (fun i child =>
                  runDescribeBlock perf_now options (block :: anc) (i :: id) child)
               (children block) 0)) (fun _ =>
    bind (afterAllPhase options id block (getSuitePath (block :: anc)) true)
      (fun early =>
    match early with
    | Some r => ret r
    | None => bind getState (fun st3 => ret (negb (globalBail st3)))
    end))))) st = (r, st') →
  ∃ d_tests d_children d_after,
    Delta st st' (d_tests ++ d_children ++ d_after) ∧
    Forall (TestStep options id (block :: anc) (tests block)) d_tests ∧
    ChildrenShape options (block :: anc) id (children block) 0
      (ranBeforeAll st) (ranBeforeAll st') d_children ∧
    Forall (AfterStep id) d_after.
Proof.
  intros IH. unfold bind at 1. simpl.
  intros [([] & st_t & Htests & Hrest)|(v & Htests & ->)]%bind_inv.
  2:{ eapply AllSteps_when in Htests as (Hran & d_t & HD & Hsteps);
        [|by apply (testLoop_steps id (block :: anc) (tests block) [])].
      exists d_t, [], []. rewrite !app_nil_r. rewrite Hran.
      split; [done|]. split; [done|]. split; constructor. }
  eapply AllSteps_when in Htests as (Hran_t & d_t & HD_t & Hsteps);
    [|by apply (testLoop_steps id (block :: anc) (tests block) [])].
  revert Hrest. unfold bind at 1. simpl.
  intros [([] & st_c & Hchildren & Hrest)|(v & Hchildren & ->)]%bind_inv.
  2:{ assert (∃ d_c, Delta st_t st' d_c ∧
                ChildrenShape options (block :: anc) id (children block) 0
                  (ranBeforeAll st_t) (ranBeforeAll st') d_c) as (d_c & HD_c & Hshape).
      { destruct (negb (globalBail st_t)); simpl in Hchildren; [|done].
        eapply childLoop_shape; [exact IH|exact Hchildren]. }
      exists d_t, d_c, []. rewrite app_nil_r. rewrite <- Hran_t.
      split; [by eapply Delta_trans|]. split; [done|]. split; [done|constructor]. }
  assert (∃ d_c, Delta st_t st_c d_c ∧
            ChildrenShape options (block :: anc) id (children block) 0
              (ranBeforeAll st_t) (ranBeforeAll st_c) d_c) as (d_c & HD_c & Hshape).
  { destruct (negb (globalBail st_t)); simpl in Hchildren.
    - eapply childLoop_shape; [exact IH|exact Hchildren].
    - injection Hchildren as <-. exists []. split; [apply Delta_refl|constructor]. }
  apply bind_inv in Hrest as [(early & st_a & Hafter & Hrest)|(v & Hafter & ->)];
    apply afterAllPhase_steps in Hafter as (Hran_a & d_a & HD_a & Hsteps_a).
  - assert (st' = st_a) as ->.
    { destruct early; [by injection Hrest|].
      unfold bind, getState, ret in Hrest. by injection Hrest. }
    exists d_t, d_c, d_a. rewrite Hran_a, <- Hran_t.
    split; [|done]. eapply Delta_trans; [done|]. by eapply Delta_trans.
  - exists d_t, d_c, d_a. rewrite Hran_a, <- Hran_t.
    split; [|done]. eapply Delta_trans; [done|]. by eapply Delta_trans.
Qed.

(** Every visit leaves a history of the shape [VisitShape]. *)
Lemma runDescribeBlock_shape block : ∀ anc id st r st',
  length anc = length id →
  runDescribeBlock perf_now options anc id block st = (r, st') →
  ∃ d, Delta st st' d ∧
       VisitShape options anc id block (ranBeforeAll st) (ranBeforeAll st') d.
Proof.
  induction block as [n cs ts h1 h2 h3 h4 IH] using DescribeBlock_rect_nested.
  intros anc id st r st' Hlen. rewrite runDescribeBlock_eq.
  set (block := mkDescribeBlock n cs ts h1 h2 h3 h4) in *.
  unfold bind at 1. simpl. destruct (globalBail st) eqn:Hbail.
  { intros [= <- <-]. exists []. split; [apply Delta_refl|constructor]. }
  unfold bind at 1. simpl. unfold bind at 1. simpl.
  set (st_e := mkRunState _ _ _ _ _ _ _).
  assert (Delta st st_e [Entered id]) as HD_e.
  { split; [done|]. exists []. by rewrite app_nil_r. }
  intros [(ok & st_b & Hbefore & Hrest)|(v & Hbefore & ->)]%bind_inv;
    apply beforeAllPhase_shape in Hbefore as (d_b & ok' & HD_b & Hshape_b & Hok);
    try (simpl; lia).
  2:{ exists ([Entered id] ++ d_b). split; [by eapply Delta_trans|].
      simpl. apply visit_stopped. destruct ok'; [|done].
      by destruct Hok as [Hok _]; specialize (Hok eq_refl). }
  destruct ok.
  - assert (ok' = true) as -> by by apply Hok.
    apply visit_rest_shape in Hrest as (d_t & d_c & d_a & HD & Ht & Hc & Ha).
    + exists ([Entered id] ++ d_b ++ d_t ++ d_c ++ d_a). split.
      * eapply Delta_trans; [done|]. by eapply Delta_trans.
      * simpl. by eapply visit_full.
    + eapply Forall_impl; [exact IH|]. intros c Hc i st0 r0 st0' Hrun.
      eapply Hc; [|done]. simpl. lia.
  - assert (ok' = false) as ->.
    { destruct ok'; [|done]. by destruct Hok as [Hok _]; specialize (Hok eq_refl). }
    assert (st' = st_b) as ->.
    { revert Hrest. unfold bind at 1. simpl. unfold bind at 1. simpl.
      unfold bind at 1. simpl. unfold bind at 1. simpl. unfold bind at 1.
      rewrite afterAllPhase_skipped. unfold bind, getState, ret. by intros [= _ <-]. }
    exists ([Entered id] ++ d_b). split; [by eapply Delta_trans|].
    simpl. by apply visit_stopped.
Qed.

Lemma topLoop_shape root tops i st r st' :
  topLoop perf_now options root tops i st = (r, st') →
  ∃ d, Delta st st' d ∧
       ChildrenShape options [root] [] tops i (ranBeforeAll st) (ranBeforeAll st') d.
Proof.
  revert i st. induction tops as [|top tops IH]; intros i st; simpl.
  - intros [= <- <-]. exists []. split; [apply Delta_refl|constructor].
  - intros [(continue & st1 & Hrun & Hrest)|(v & Hrun & ->)]%bind_inv;
      apply runDescribeBlock_shape in Hrun as (d1 & HD1 & Hshape1); try done.
    + revert Hrest. unfold bind at 1. simpl. destruct (globalBail st1).
      * intros [= <- <-]. exists (d1 ++ []). split; [by rewrite app_nil_r|].
        eapply children_next; [done|constructor].
      * intros (d2 & HD2 & Hshape2)%IH. exists (d1 ++ d2).
        split; [by eapply Delta_trans|]. by eapply children_next.
    + exists (d1 ++ []). split; [by rewrite app_nil_r|].
      eapply children_next; [done|constructor].
Qed.

(** The history of a run is that of the visits of the top-level blocks;
    no result is [skipped]; a fulfilled promise carries the results. *)
Lemma runTests_shape root flags w :
  let run := runTests perf_now options root flags w in
  ChildrenShape options [root] [] (children root) 0
    (resetExecutionState [] root flags).1 (ranBeforeAll run.2) (history run.2) ∧
  Forall notSkipped (results run.2) ∧
  (∀ rs, run.1 = Normal rs → rs = results run.2).
Proof.
  simpl. unfold runTests.
  set (st0 := mkRunState _ _ _ _ _ _ _).
  destruct (bind _ _ st0) as [r st'] eqn:Hrun. simpl.
  apply bind_inv in Hrun as [([] & st1 & Htop & Hrest)|(v & Htop & ->)];
    apply topLoop_shape in Htop as (d & [Hh (rs & Hr & Hns)] & Hshape);
    simpl in Hh, Hr.
  - revert Hrest. unfold bind at 1. simpl. unfold emit, bind, ret.
    destruct (opt_onEvent options) as [onEvent|];
      [destruct (onEvent _ _) as [[thrown|] w']|];
      intros [= <- <-]; simpl;
      rewrite Hh, Hr; (split; [done|]); (split; [done|]); by intros ? [= <-].
  - rewrite Hh, Hr. split; [done|]. split; [done|]. by intros.
Qed.

End RunnerShape.

(** ** Facts about the shape of a run *)

Section ShapeFacts.
Context {W : Type} (options : RunOptions W).
Implicit Types (anc chain : list (DescribeBlock W)) (block : DescribeBlock W).
Implicit Types (id b o : BlockId) (d h : list Step) (ran : gset BlockId).

Lemma suffix_same_length (a c o : BlockId) :
  suffix a o → suffix c o → length a = length c → a = c.
Proof.
  intros [k1 ->] [k2 Heq] Hlen.
  assert (length k1 = length k2) as Hk.
  { apply (f_equal length) in Heq. rewrite !length_app in Heq. lia. }
  by apply app_inj_1 in Heq as [_ ->].
Qed.

Lemma suffix_siblings i j id o :
  suffix (i :: id) o → suffix (j :: id) o → i = j.
Proof.
  intros Hi Hj. by injection (suffix_same_length _ _ _ Hi Hj eq_refl).
Qed.

Lemma suffix_cons_not id o k : suffix (k :: o) id → ¬ suffix id o.
Proof.
  intros H1%suffix_length H2%suffix_length. simpl in H1. lia.
Qed.

(** The steps of section 1. *)
Lemma BeforeShape_inv id ran ran' d ok :
  BeforeShape id ran ran' d ok →
  ∃ lineage rest,
    d = markSteps lineage ++ rest ∧
    (rest = [] ∧ ok = true
     ∨ rest = [BeforeAllRun id lineage] ∧ ok = true
     ∨ rest = [BeforeAllRun id lineage; BeforeAllFailed id] ∧ ok = false).
Proof.
  intros [Hin|lineage rest ok' _ _ _ _ Hrest].
  - exists [], []. split; [done|]. by left.
  - by exists lineage, rest.
Qed.

Lemma markSteps_owner lineage s : s ∈ markSteps lineage → owner s = None.
Proof. by intros (a & -> & _)%list_elem_of_fmap. Qed.

Lemma BeforeShape_steps id ran ran' d ok s :
  BeforeShape id ran ran' d ok → s ∈ d →
  owner s = None ∨ (∃ l, s = BeforeAllRun id l) ∨ (s = BeforeAllFailed id ∧ ok = false).
Proof.
  intros (lineage & rest & -> & Hrest)%BeforeShape_inv
    [Hs%markSteps_owner|Hs]%elem_of_app; [by left|].
  destruct Hrest as [[-> _]|[[-> _]|[-> ->]]].
  - by apply elem_of_nil in Hs.
  - apply list_elem_of_singleton in Hs as ->. right. left. eauto.
  - apply elem_of_cons in Hs as [->|Hs]; [right; left; eauto|].
    apply list_elem_of_singleton in Hs as ->. by right; right.
Qed.

Lemma TestStep_owner id chain tests s :
  TestStep options id chain tests s → ∃ i, StepOfTest id i s.
Proof. intros (i & tc & _ & _ & Hs). by exists i. Qed.

Lemma StepOfTest_owner id i s : StepOfTest id i s → owner s = Some id.
Proof. by intros [->|[->|[->|[->|[->| ->]]]]]. Qed.

Lemma AfterStep_owner id s : AfterStep id s → owner s = Some id.
Proof. by intros [->| ->]. Qed.

(** Every step of a visit belongs to the block or to a block below it;
    the steps of a loop over children belong to the subtrees of the
    children still to come. *)
Lemma shape_local :
  (∀ anc id block ran ran' d,
     VisitShape options anc id block ran ran' d →
     ∀ s o, s ∈ d → owner s = Some o → suffix id o) ∧
  (∀ chain id cs i ran ran' d,
     ChildrenShape options chain id cs i ran ran' d →
     ∀ s o, s ∈ d → owner s = Some o → ∃ k, (i ≤ k)%nat ∧ suffix (k :: id) o).
Proof.
  apply VisitShape_mutind.
  - intros anc id block ran s o Hs. by apply elem_of_nil in Hs.
  - intros anc id block ran ran' d_b Hb s o [->|Hs]%elem_of_cons Ho.
    + by injection Ho as <-.
    + destruct (BeforeShape_steps _ _ _ _ _ _ Hb Hs) as [Hn|[[l ->]|[-> _]]];
        [congruence|by injection Ho as <-..].
  - intros anc id block ran ran1 ran' d_b d_t d_c d_a Hb Ht _ IHc Ha s o Hs Ho.
    apply elem_of_cons in Hs as [->|Hs]; [by injection Ho as <-|].
    apply elem_of_app in Hs as [Hs|Hs].
    { destruct (BeforeShape_steps _ _ _ _ _ _ Hb Hs) as [Hn|[[l ->]|[-> _]]];
        [congruence|by injection Ho as <-..]. }
    apply elem_of_app in Hs as [Hs|Hs].
    { rewrite Forall_forall in Ht. destruct (TestStep_owner _ _ _ _ (Ht _ Hs)) as [i Hi].
      apply StepOfTest_owner in Hi. by replace o with id by congruence. }
    apply elem_of_app in Hs as [Hs|Hs].
    { destruct (IHc _ _ Hs Ho) as (k & _ & Hk). by eapply suffix_cons_l. }
    rewrite Forall_forall in Ha. apply Ha, AfterStep_owner in Hs.
    by replace o with id by congruence.
  - intros chain id cs i ran s o Hs. by apply elem_of_nil in Hs.
  - intros chain id c cs i ran ran1 ran' d1 d2 _ IH1 _ IH2 s o Hs Ho.
    apply elem_of_app in Hs as [Hs|Hs].
    + exists i. split; [done|]. by eapply IH1.
    + destruct (IH2 _ _ Hs Ho) as (k & Hk & Hsuf). exists k. split; [lia|done].
Qed.

Lemma StepValid_child anc id block k c s :
  children block !! k = Some c →
  StepValid options (block :: anc) (k :: id) c s → StepValid options anc id block s.
Proof.
  intros Hk. destruct s; simpl; try done;
    try (intros (anc' & b' & Hnode); exists anc', b'; by eapply node_child);
    intros (anc' & b' & tc & Hnode & Htc & Hrun); exists anc', b', tc;
    (split; [by eapply node_child|done]).
Qed.

(** Every step of a visit is a step of a block of the subtree and, when
    it is a step of a test, of a test the options accept. *)
Lemma shape_valid :
  (∀ anc id block ran ran' d,
     VisitShape options anc id block ran ran' d →
     Forall (StepValid options anc id block) d) ∧
  (∀ chain id cs i ran ran' d,
     ChildrenShape options chain id cs i ran ran' d →
     ∀ anc block, chain = block :: anc →
       (∀ k c, cs !! k = Some c → children block !! (i + k)%nat = Some c) →
       Forall (StepValid options anc id block) d).
Proof.
  assert (∀ anc id block ran ran' d ok,
            BeforeShape id ran ran' d ok →
            Forall (StepValid options anc id block) d) as Hbefore.
  { intros anc id block ran ran' d ok (lineage & rest & -> & Hrest)%BeforeShape_inv.
    apply Forall_app. split.
    - apply Forall_forall. by intros s (a & -> & _)%list_elem_of_fmap.
    - destruct Hrest as [[-> _]|[[-> _]|[-> _]]]; repeat constructor;
        simpl; eexists _, _; apply node_self. }
  apply VisitShape_mutind.
  - constructor.
  - intros anc id block ran ran' d_b Hb. constructor; [|by eapply Hbefore].
    simpl. eexists _, _. apply node_self.
  - intros anc id block ran ran1 ran' d_b d_t d_c d_a Hb Ht _ IHc Ha.
    constructor; [simpl; eexists _, _; apply node_self|].
    apply Forall_app. split; [by eapply Hbefore|].
    apply Forall_app. split.
    { eapply Forall_impl; [exact Ht|].
      intros s (i & tc & Htc & Hrun & Hs).
      assert (∃ anc' block' testCase,
                Node anc id block anc' id block' ∧ tests block' !! i = Some testCase ∧
                shouldRun options (getSuitePath (block' :: anc')) (tc_name testCase)
                = true)
        as Hex by (exists anc, block, tc; split; [apply node_self|done]).
      by destruct Hs as [->|[->|[->|[->|[->| ->]]]]]. }
    apply Forall_app. split; [by apply (IHc anc block)|].
    eapply Forall_impl; [exact Ha|].
    intros s [->| ->]; simpl; eexists _, _; apply node_self.
  - constructor.
  - intros chain id c cs i ran ran1 ran' d1 d2 _ IH1 _ IH2 anc block -> Hcs.
    apply Forall_app. split.
    + eapply Forall_impl; [exact IH1|]. intros s. apply StepValid_child.
      specialize (Hcs 0%nat c eq_refl). by rewrite Nat.add_0_r in Hcs.
    + apply (IH2 anc block eq_refl). intros k c' Hk.
      specialize (Hcs (S k) c' Hk). by rewrite Nat.add_succ_r in Hcs.
Qed.

(** *** A suite whose before-all hooks failed *)

Lemma not_below (k : nat) id o : suffix (k :: id) o → o ≠ id.
Proof. intros Hsuf%suffix_length ->. simpl in Hsuf. lia. Qed.

(** Once [BeforeAllFailed b] is in the history of a visit, the only steps
    of [b] and of the blocks below [b] are the entry of [b] and its
    section 1. *)
Lemma shape_stopped :
  (∀ anc id block ran ran' d,
     VisitShape options anc id block ran ran' d →
     ∀ b, BeforeAllFailed b ∈ d →
     ∀ s o, s ∈ d → owner s = Some o → suffix b o → StoppedStep b s) ∧
  (∀ chain id cs i ran ran' d,
     ChildrenShape options chain id cs i ran ran' d →
     ∀ b, BeforeAllFailed b ∈ d →
     ∀ s o, s ∈ d → owner s = Some o → suffix b o → StoppedStep b s).
Proof.
  destruct shape_local as [Hlocal_v Hlocal_c].
  apply VisitShape_mutind.
  - intros anc id block ran b Hb. by apply elem_of_nil in Hb.
  - intros anc id block ran ran' d_b Hshape b Hb s o Hs Ho Hsuf.
    assert (b = id) as ->.
    { apply elem_of_cons in Hb as [?|Hb]; [done|].
      destruct (BeforeShape_steps _ _ _ _ _ _ Hshape Hb) as [?|[[l ?]|[? _]]];
        [done|done|congruence]. }
    apply elem_of_cons in Hs as [->|Hs]; [by left|].
    destruct (BeforeShape_steps _ _ _ _ _ _ Hshape Hs) as [?|[[l ->]|[-> _]]];
      [congruence|right; left; eauto|by right; right].
  - intros anc id block ran ran1 ran' d_b d_t d_c d_a Hshape Ht Hc IHc Ha
      b Hb s o Hs Ho Hsuf.
    rewrite Forall_forall in Ht. rewrite Forall_forall in Ha.
    assert (BeforeAllFailed b ∈ d_c) as Hb_c.
    { apply elem_of_cons in Hb as [?|Hb]; [done|].
      apply elem_of_app in Hb as [Hb|Hb].
      { destruct (BeforeShape_steps _ _ _ _ _ _ Hshape Hb) as [?|[[l ?]|[_ ?]]]; done. }
      apply elem_of_app in Hb as [Hb|Hb].
      { destruct (TestStep_owner _ _ _ _ (Ht _ Hb)) as [i Hi].
        by destruct Hi as [?|[?|[?|[?|[?|?]]]]]. }
      apply elem_of_app in Hb as [Hb|Hb]; [done|].
      by destruct (Ha _ Hb). }
    destruct (Hlocal_c _ _ _ _ _ _ _ Hc _ b Hb_c eq_refl) as (k & _ & Hk).
    assert (o ≠ id) as Hne.
    { eapply (not_below k). by etrans. }
    apply elem_of_cons in Hs as [->|Hs]; [by injection Ho|].
    apply elem_of_app in Hs as [Hs|Hs].
    { destruct (BeforeShape_steps _ _ _ _ _ _ Hshape Hs) as [?|[[l ->]|[-> _]]];
        [congruence|by injection Ho..]. }
    apply elem_of_app in Hs as [Hs|Hs].
    { destruct (TestStep_owner _ _ _ _ (Ht _ Hs)) as [i Hi].
      apply StepOfTest_owner in Hi. congruence. }
    apply elem_of_app in Hs as [Hs|Hs]; [by eapply IHc|].
    apply Ha, AfterStep_owner in Hs. congruence.
  - intros chain id cs i ran b Hb. by apply elem_of_nil in Hb.
  - intros chain id c cs i ran ran1 ran' d1 d2 Hv IH1 Hc IH2 b Hb s o Hs Ho Hsuf.
    apply elem_of_app in Hb as [Hb|Hb]; apply elem_of_app in Hs as [Hs|Hs].
    + by eapply IH1.
    + pose proof (Hlocal_v _ _ _ _ _ _ Hv _ b Hb eq_refl) as Hb_i.
      destruct (Hlocal_c _ _ _ _ _ _ _ Hc _ o Hs Ho) as (k & Hk & Ho_k).
      assert (i = k) by (eapply suffix_siblings; [by etrans|done]). lia.
    + destruct (Hlocal_c _ _ _ _ _ _ _ Hc _ b Hb eq_refl) as (k & Hk & Hb_k).
      pose proof (Hlocal_v _ _ _ _ _ _ Hv _ o Hs Ho) as Ho_i.
      assert (k = i) by (eapply suffix_siblings; [by etrans|done]). lia.
    + by eapply IH2.
Qed.

(** *** The [ranBeforeAll] flags *)

Lemma markedIds_app h d : markedIds (h ++ d) = markedIds h ++ markedIds d.
Proof. apply omap_app. Qed.

Lemma ranIds_app h d : ranIds (h ++ d) = ranIds h ++ ranIds d.
Proof. unfold ranIds. by rewrite omap_app, concat_app. Qed.

Lemma markedIds_marks lineage : markedIds (markSteps lineage) = lineage.
Proof. induction lineage as [|a l IH]; simpl; [done|]. by f_equal. Qed.

Lemma ranIds_marks lineage : ranIds (markSteps lineage) = [].
Proof. by induction lineage. Qed.

Lemma elem_of_markedIds n h :
  n ∈ markedIds h ↔ ∃ old, SetRanBeforeAll n old ∈ h.
Proof.
  unfold markedIds. rewrite list_elem_of_omap. split.
  - intros (s & Hs & Heq). destruct s; try done. injection Heq as ->. eauto.
  - intros (old & Hs). eauto.
Qed.

Lemma wellMarked_app seen h d :
  wellMarked seen (h ++ d)
  ↔ wellMarked seen h ∧ wellMarked (rev (markedIds h) ++ seen) d.
Proof.
  revert seen. induction h as [|s h IH]; intros seen; simpl; [tauto|].
  destruct s; simpl; rewrite ?IH, <- ?app_assoc; simpl; tauto.
Qed.

Lemma wellMarked_marks seen lineage : wellMarked seen (markSteps lineage).
Proof. revert seen. induction lineage as [|a l IH]; intros seen; simpl; auto. Qed.

(** A step of a test or of the after-all hooks. *)
Lemma FlagsInv_snoc ran0 ran h s :
  (∃ id, (∃ i, StepOfTest id i s) ∨ AfterStep id s) →
  FlagsInv ran0 ran h → FlagsInv ran0 ran (h ++ [s]).
Proof.
  intros Hs (I1 & I2 & I3 & I4 & I5 & I6 & I7 & I8).
  assert (markedIds [s] = [] ∧ ranIds [s] = [] ∧ wellMarked (rev (markedIds h)) [s]
          ∧ (∀ n old, s ≠ SetRanBeforeAll n old) ∧ (∀ n, s ≠ Entered n))
    as (Hm & Hr & Hw & Hns & Hne).
  { destruct Hs as (id & [(i & [->|[->|[->|[->|[->| ->]]]]])|[->| ->]]); by repeat split. }
  unfold FlagsInv. rewrite markedIds_app, ranIds_app, Hm, Hr, !app_nil_r.
  split; [|split; [done|split; [done|split; [done|split; [|split; [|split]]]]]].
  - intros n old [Hin|Hin%list_elem_of_singleton]%elem_of_app; [eauto|].
    by destruct (Hns n old).
  - apply wellMarked_app. rewrite app_nil_r. by split.
  - intros n Hn. destruct (I6 n Hn) as [?|?]; [by left|right].
    apply elem_of_app. by left.
  - intros n [Hin|Hin%list_elem_of_singleton]%elem_of_app; [eauto|].
    by destruct (Hne n).
  - intros n old [Hin|Hin%list_elem_of_singleton]%elem_of_app;
      [|by destruct (Hns n old)].
    destruct (I8 _ _ Hin) as (b & Hb & Hsuf). exists b. split; [|done].
    apply elem_of_app. by left.
Qed.

Lemma FlagsInv_plain ran0 ran h d :
  Forall (fun s => ∃ id, (∃ i, StepOfTest id i s) ∨ AfterStep id s) d →
  FlagsInv ran0 ran h → FlagsInv ran0 ran (h ++ d).
Proof.
  intros Hd. revert h. induction Hd as [|s d Hs _ IH]; intros h Hinv.
  - by rewrite app_nil_r.
  - replace (h ++ s :: d) with ((h ++ [s]) ++ d) by (by rewrite <- app_assoc).
    by apply IH, FlagsInv_snoc.
Qed.

Lemma elem_of_rev (n : BlockId) (l : list BlockId) : n ∈ rev l ↔ n ∈ l.
Proof. rewrite !list_elem_of_In. symmetry. apply in_rev. Qed.

Lemma rest_facts id lineage rest (ok : bool) :
  rest = [] ∧ ok = true
  ∨ rest = [BeforeAllRun id lineage] ∧ ok = true
  ∨ rest = [BeforeAllRun id lineage; BeforeAllFailed id] ∧ ok = false →
  markedIds rest = [] ∧ (ranIds rest = [] ∨ ranIds rest = lineage)
  ∧ (∀ n old, SetRanBeforeAll n old ∉ rest) ∧ (∀ n, Entered n ∉ rest)
  ∧ ∀ seen, wellMarked (rev lineage ++ seen) rest.
Proof.
  assert (∀ seen n, n ∈ lineage → n ∈ rev lineage ++ seen) as Hseen.
  { intros seen n Hn. apply elem_of_app. left. by apply elem_of_rev. }
  intros [[-> _]|[[-> _]|[-> _]]].
  - split; [done|]. split; [by left|]. split; [|split; [|done]];
      intros *; apply not_elem_of_nil.
  - split; [done|]. split; [right; apply app_nil_r|].
    split; [|split; [|by split; auto]];
      intros *; by intros [= ]%list_elem_of_singleton.
  - split; [done|]. split; [right; apply app_nil_r|].
    split; [|split; [|by split; auto]];
      intros * Hn; (apply elem_of_cons in Hn as [[= ]|Hn]);
      by apply list_elem_of_singleton in Hn.
Qed.

(** The entry of a block and its section 1. *)
Lemma FlagsInv_before ran0 id ran ran' d ok h :
  BeforeShape id ran ran' d ok →
  FlagsInv ran0 ran h → FlagsInv ran0 ran' (h ++ Entered id :: d).
Proof.
  intros Hshape (I1 & I2 & I3 & I4 & I5 & I6 & I7 & I8).
  destruct Hshape as [Hin|lineage rest ok Hout Hid Hnd Hall Hrest].
  - unfold FlagsInv. rewrite markedIds_app, ranIds_app. simpl. rewrite !app_nil_r.
    split; [|split; [done|split; [done|split; [done|split; [|split; [|split]]]]]].
    + intros n old [Hn|Hn%list_elem_of_singleton]%elem_of_app; [eauto|done].
    + apply wellMarked_app. by split.
    + intros n Hn. destruct (I6 n Hn) as [?|?]; [by left|right].
      apply elem_of_app. by left.
    + intros n [Hn|Hn%list_elem_of_singleton]%elem_of_app; [eauto|by injection Hn as ->].
    + intros n old [Hn|Hn%list_elem_of_singleton]%elem_of_app; [|done].
      destruct (I8 _ _ Hn) as (b & Hb & Hsuf). exists b. split; [|done].
      apply elem_of_app. by left.
  - destruct (rest_facts id lineage rest ok Hrest) as (Hm & Hr & Hns & Hne & Hw).
    assert (∀ n, n ∈ lineage → n ∉ markedIds h) as Hfresh_m.
    { intros n Hn (old & Hold)%elem_of_markedIds.
      destruct (Hall n Hn) as [Hran _]. by destruct (I1 _ _ Hold). }
    assert (∀ n, n ∈ lineage → n ∉ ranIds h) as Hfresh_r.
    { intros n Hn Hr'. destruct (Hall n Hn) as [Hran _]. auto. }
    unfold FlagsInv.
    change (Entered id :: markSteps lineage ++ rest)
      with ([Entered id] ++ markSteps lineage ++ rest).
    rewrite !markedIds_app, !ranIds_app, markedIds_marks, ranIds_marks, Hm, app_nil_r.
    change (markedIds [Entered id]) with (@nil BlockId).
    change (ranIds [Entered id]) with (@nil BlockId). simpl.
    split; [|split; [|split; [|split; [|split; [|split; [|split]]]]]].
    + intros n old [Hn|Hn]%elem_of_app.
      { destruct (I1 _ _ Hn). split; [set_solver|done]. }
      apply elem_of_cons in Hn as [?|Hn]; [done|].
      apply elem_of_app in Hn as [(a & [= -> ->] & Ha)%list_elem_of_fmap|Hn].
      * split; [|done]. apply elem_of_union. left. by apply elem_of_list_to_set.
      * by destruct (Hns n old).
    + apply NoDup_app. split; [done|]. split; [|done].
      intros n Hn Hn'. by apply (Hfresh_m n).
    + destruct Hr as [-> | ->]; [by rewrite app_nil_r|].
      apply NoDup_app. split; [done|]. split; [|done].
      intros n Hn Hn'. by apply (Hfresh_r n).
    + intros n [Hn|Hn]%elem_of_app; [set_solver|].
      destruct Hr as [Hr|Hr]; rewrite Hr in Hn; [by apply elem_of_nil in Hn|].
      apply elem_of_union. left. by apply elem_of_list_to_set.
    + apply wellMarked_app. split; [done|]. simpl.
      apply wellMarked_app. split; [apply wellMarked_marks|].
      rewrite markedIds_marks. apply Hw.
    + intros n [Hn%elem_of_list_to_set|Hn]%elem_of_union.
      * right. apply elem_of_app. right. apply elem_of_cons. right.
        apply elem_of_app. left. apply list_elem_of_fmap. eauto.
      * destruct (I6 n Hn) as [?|?]; [by left|right]. apply elem_of_app. by left.
    + intros n [Hn|Hn]%elem_of_app.
      { apply elem_of_union. right. auto. }
      apply elem_of_cons in Hn as [[= ->]|Hn].
      { apply elem_of_union. left. by apply elem_of_list_to_set. }
      apply elem_of_app in Hn as [(a & ? & _)%list_elem_of_fmap|Hn]; [done|].
      by destruct (Hne n).
    + intros n old [Hn|Hn]%elem_of_app.
      { destruct (I8 _ _ Hn) as (b & Hb & Hsuf). exists b. split; [|done].
        apply elem_of_app. by left. }
      apply elem_of_cons in Hn as [?|Hn]; [done|].
      apply elem_of_app in Hn as [(a & [= -> ->] & Ha)%list_elem_of_fmap|Hn];
        [|by destruct (Hns n old)].
      exists id. split; [|by destruct (Hall _ Ha)].
      apply elem_of_app. right. by apply elem_of_cons; left.
Qed.

(** A visit keeps the flags and the history in agreement. *)
Lemma shape_flags ran0 :
  (∀ anc id block ran ran' d,
     VisitShape options anc id block ran ran' d →
     ∀ h, FlagsInv ran0 ran h → FlagsInv ran0 ran' (h ++ d)) ∧
  (∀ chain id cs i ran ran' d,
     ChildrenShape options chain id cs i ran ran' d →
     ∀ h, FlagsInv ran0 ran h → FlagsInv ran0 ran' (h ++ d)).
Proof.
  apply VisitShape_mutind.
  - intros anc id block ran h Hinv. by rewrite app_nil_r.
  - intros anc id block ran ran' d_b Hshape h Hinv. by eapply FlagsInv_before.
  - intros anc id block ran ran1 ran' d_b d_t d_c d_a Hshape Ht _ IHc Ha h Hinv.
    replace (h ++ Entered id :: d_b ++ d_t ++ d_c ++ d_a)
      with ((((h ++ Entered id :: d_b) ++ d_t) ++ d_c) ++ d_a)
      by (by rewrite <- !app_assoc).
    apply FlagsInv_plain.
    { eapply Forall_impl; [exact Ha|]. intros s Hs. exists id. by right. }
    apply IHc. apply FlagsInv_plain.
    { eapply Forall_impl; [exact Ht|]. intros s (i & Hi)%TestStep_owner.
      exists id. left. eauto. }
    by eapply FlagsInv_before.
  - intros chain id cs i ran h Hinv. by rewrite app_nil_r.
  - intros chain id c cs i ran ran1 ran' d1 d2 _ IH1 _ IH2 h Hinv.
    rewrite app_assoc. by apply IH2, IH1.
Qed.

Lemma FlagsInv_initial ran0 : FlagsInv ran0 ran0 [].
Proof.
  unfold FlagsInv. simpl.
  split; [|split; [constructor|split; [constructor|split; [|split; [done|split; [by left|split]]]]]];
    intros *; by rewrite elem_of_nil.
Qed.

End ShapeFacts.

(** ** Properties of [runTests] *)

Section RunTests.
Context {W : Type} (perf_now : W → Z) (options : RunOptions W).
Implicit Types (anc : list (DescribeBlock W)) (block root : DescribeBlock W).
Implicit Types (id b n : BlockId) (flags : gset BlockId * gset BlockId).

(** [resetExecutionState] clears the flags of every block of the tree. *)
Lemma forEachChild_reset id cs : ∀ i flags,
  Forall (fun c => ∀ id flags,
            (resetExecutionState id c flags).1 ⊆ flags.1 ∧
            ∀ anc anc' n block',
              Node anc id c anc' n block' → n ∉ (resetExecutionState id c flags).1) cs →
  let flags' :=
    forEachChild (fun i child => resetExecutionState (i :: id) child) cs i flags in
  flags'.1 ⊆ flags.1 ∧
  ∀ k c, cs !! k = Some c →
    ∀ anc anc' n block', Node anc ((i + k)%nat :: id) c anc' n block' → n ∉ flags'.1.
Proof.
  induction cs as [|c cs IH]; intros i flags Hcs; simpl.
  - split; [done|]. intros k c Hk. by rewrite lookup_nil in Hk.
  - apply Forall_cons in Hcs as [Hc Hcs].
    destruct (Hc (i :: id) flags) as [Hsub1 Hclear1].
    destruct (IH (S i) (resetExecutionState (i :: id) c flags) Hcs) as [Hsub2 Hclear2].
    split; [set_solver|].
    intros [|k] c' Hk anc anc' n block' Hnode; simpl in Hk.
    + injection Hk as <-. rewrite Nat.add_0_r in Hnode.
      intros Hn. eapply Hclear1; [done|]. by apply Hsub2.
    + rewrite Nat.add_succ_r in Hnode. by eapply Hclear2.
Qed.

Lemma reset_clears block : ∀ id flags,
  (resetExecutionState id block flags).1 ⊆ flags.1 ∧
  ∀ anc anc' n block',
    Node anc id block anc' n block' → n ∉ (resetExecutionState id block flags).1.
Proof.
  induction block as [nm cs ts h1 h2 h3 h4 IH] using DescribeBlock_rect_nested.
  intros id flags. simpl.
  destruct (forEachChild_reset id cs 0 (flags.1 ∖ {[id]}, flags.2 ∖ {[id]}) IH)
    as [Hsub Hclear].
  simpl in Hsub. split; [set_solver|].
  intros anc anc' n block' Hnode.
  inversion Hnode as [|? ? ? k c ? ? ? Hk Hsubnode]; subst.
  - set_solver.
  - by eapply (Hclear k c).
Qed.

(** The history and the flags of a run agree. *)
Lemma runTests_flags root flags w :
  let run := runTests perf_now options root flags w in
  FlagsInv (resetExecutionState [] root flags).1 (ranBeforeAll run.2) (history run.2).
Proof.
  intros run. destruct (runTests_shape perf_now options root flags w) as (Hshape & _).
  destruct (shape_flags options (resetExecutionState [] root flags).1) as [_ Hflags].
  apply (Hflags _ _ _ _ _ _ _ Hshape []), FlagsInv_initial.
Qed.

(** Every step of a run is a step of a block of the tree. *)
Lemma runTests_valid root flags w :
  Forall (StepValid options [] [] root)
    (history (runTests perf_now options root flags w).2).
Proof.
  destruct (runTests_shape perf_now options root flags w) as (Hshape & _).
  destruct (shape_valid options) as [_ Hvalid].
  by apply (Hvalid _ _ _ _ _ _ _ Hshape [] root).
Qed.

(** *** A suite whose before-all hooks fail *)

(** C1 (amended).  For every suite whose before-all hook sequence fails
    during [runTests]: no stage of any of its own tests is run, no block
    below it is entered or touched in any way, and its own after-all hooks
    are not run either (section 4 of the visit requires
    [beforeAllSuccess]). *)
Theorem before_all_failure_stops_the_suite root flags w b
    (Hfailed : BeforeAllFailed b ∈ history (runTests perf_now options root flags w).2) :
  (∀ i s, StepOfTest b i s →
     s ∉ history (runTests perf_now options root flags w).2) ∧
  (∀ o s, suffix b o → o ≠ b → owner s = Some o →
     s ∉ history (runTests perf_now options root flags w).2) ∧
  (AfterAllRun b ∉ history (runTests perf_now options root flags w).2) ∧
  (AfterAllFailed b ∉ history (runTests perf_now options root flags w).2).
Proof.
  destruct (runTests_shape perf_now options root flags w) as (Hshape & _).
  destruct (shape_stopped options) as [_ Hstopped].
  pose proof (Hstopped _ _ _ _ _ _ _ Hshape b Hfailed) as Honly.
  split; [|split; [|split]].
  - intros i s Hs Hin.
    destruct (Honly s b Hin (StepOfTest_owner _ _ _ Hs)) as [->|[[l ->]| ->]];
      [done|by destruct Hs as [?|[?|[?|[?|[?|?]]]]]..].
  - intros o s Hsuf Hne Ho Hin.
    destruct (Honly s o Hin Ho Hsuf) as [->|[[l ->]| ->]]; by injection Ho.
  - intros Hin. by destruct (Honly _ b Hin eq_refl) as [?|[[l ?]|?]].
  - intros Hin. by destruct (Honly _ b Hin eq_refl) as [?|[[l ?]|?]].
Qed.

(** *** The [ranBeforeAll] flags *)

Lemma filter_setsFlagOf_nil n (h : list Step) :
  n ∉ markedIds h → List.filter (setsFlagOf n) h = [].
Proof.
  induction h as [|s h IH]; [done|]. intros Hn. simpl.
  destruct s; simpl in *; try by apply IH.
  apply not_elem_of_cons in Hn as [Hne Hn].
  rewrite bool_decide_eq_false_2 by done. by apply IH.
Qed.

Lemma filter_setsFlagOf_le n (h : list Step) :
  NoDup (markedIds h) → (length (List.filter (setsFlagOf n) h) ≤ 1)%nat.
Proof.
  induction h as [|s h IH]; [simpl; lia|]. intros Hnd. simpl.
  destruct s; simpl in *; try by apply IH.
  apply NoDup_cons in Hnd as [Hout Hnd]. case_bool_decide as Heq.
  - subst. rewrite filter_setsFlagOf_nil by done. simpl. lia.
  - by apply IH.
Qed.

Lemma filter_runsBeforeAllOf_nil n (h : list Step) :
  n ∉ ranIds h → List.filter (runsBeforeAllOf n) h = [].
Proof.
  induction h as [|s h IH]; [done|]. intros Hn. simpl.
  destruct s; simpl in *; try by apply IH.
  unfold ranIds in Hn. simpl in Hn. apply not_elem_of_app in Hn as [Hne Hn].
  rewrite bool_decide_eq_false_2 by done. by apply IH.
Qed.

Lemma filter_runsBeforeAllOf_le n (h : list Step) :
  NoDup (ranIds h) → (length (List.filter (runsBeforeAllOf n) h) ≤ 1)%nat.
Proof.
  induction h as [|s h IH]; [simpl; lia|]. intros Hnd. simpl.
  destruct s; simpl in *; try by apply IH.
  unfold ranIds in Hnd. simpl in Hnd. apply NoDup_app in Hnd as (Hl & Hdisj & Hnd).
  case_bool_decide as Hin.
  - rewrite filter_runsBeforeAllOf_nil by (by apply Hdisj). simpl. lia.
  - by apply IH.
Qed.

Lemma ranIds_lineage_NoDup (h : list Step) b l :
  NoDup (ranIds h) → BeforeAllRun b l ∈ h → NoDup l.
Proof.
  induction h as [|s h IH]; intros Hnd Hin; [by apply elem_of_nil in Hin|].
  apply elem_of_cons in Hin as [<-|Hin].
  - unfold ranIds in Hnd. simpl in Hnd. by apply NoDup_app in Hnd as (Hl & _ & _).
  - apply IH; [|done]. destruct s; try done.
    unfold ranIds in Hnd. simpl in Hnd. by apply NoDup_app in Hnd as (_ & _ & Hnd).
Qed.

Lemma filter_length_pos {A} (f : A → bool) (l : list A) x :
  x ∈ l → f x = true → (1 ≤ length (List.filter f l))%nat.
Proof.
  induction 1 as [x l|x y l _ IH]; intros Hf; simpl.
  - rewrite Hf. simpl. lia.
  - destruct (f y); simpl; [|by apply IH]. specialize (IH Hf). lia.
Qed.

(** The flags and the history.  Within one call of [runTests], for
    every block [n]: [runHooks] is called at most once on a lineage that
    holds [n]; the [ranBeforeAll] flag of [n] is set at most once, and
    only from [false]; it is set exactly once when the runner enters
    [n], and is only ever set for an entered block or one of its
    ancestors; and the flag of every block of a lineage is set before
    [runHooks] is called on the hooks of that lineage. *)
Lemma ranBeforeAll_set_at_most_once root flags w :
  (∀ n, (length (List.filter (runsBeforeAllOf n)
                   (history (runTests perf_now options root flags w).2)) ≤ 1)%nat) ∧
  (∀ b l, BeforeAllRun b l ∈ history (runTests perf_now options root flags w).2 →
          NoDup l) ∧
  (∀ n, (length (List.filter (setsFlagOf n)
                   (history (runTests perf_now options root flags w).2)) ≤ 1)%nat) ∧
  (∀ n old, SetRanBeforeAll n old ∈ history (runTests perf_now options root flags w).2 →
            old = false) ∧
  (∀ n, Entered n ∈ history (runTests perf_now options root flags w).2 →
        length (List.filter (setsFlagOf n)
                  (history (runTests perf_now options root flags w).2)) = 1%nat) ∧
  (∀ n old, SetRanBeforeAll n old ∈ history (runTests perf_now options root flags w).2 →
            ∃ b, Entered b ∈ history (runTests perf_now options root flags w).2
                 ∧ suffix n b) ∧
  (∀ h1 b l h2,
     history (runTests perf_now options root flags w).2 = h1 ++ BeforeAllRun b l :: h2 →
     ∀ n, n ∈ l → SetRanBeforeAll n false ∈ h1).
Proof.
  pose proof (runTests_flags root flags w) as (I1 & I2 & I3 & I4 & I5 & I6 & I7 & I8).
  pose proof (runTests_valid root flags w) as Hvalid.
  simpl in *.
  split; [|split; [|split; [|split; [|split; [|split]]]]].
  - intros n. by apply filter_runsBeforeAllOf_le.
  - intros b l. by apply ranIds_lineage_NoDup.
  - intros n. by apply filter_setsFlagOf_le.
  - intros n old Hin. by destruct (I1 _ _ Hin).
  - intros n Hentered. apply Nat.le_antisymm; [by apply filter_setsFlagOf_le|].
    destruct (I6 n (I7 n Hentered)) as [Hstale|Hset].
    + rewrite Forall_forall in Hvalid.
      destruct (Hvalid _ Hentered) as (anc' & block' & Hnode).
      by destruct (proj2 (reset_clears root [] flags) _ _ _ _ Hnode).
    + eapply filter_length_pos; [done|]. simpl. by apply bool_decide_eq_true_2.
  - done.
  - intros h1 b l h2 Heq n Hn. rewrite Heq in I5, I1.
    apply wellMarked_app in I5 as [_ [Hseen _]].
    specialize (Hseen n Hn). rewrite app_nil_r in Hseen.
    apply elem_of_rev, elem_of_markedIds in Hseen as [old Hold].
    assert (old = false) as ->; [|done].
    eapply I1. apply elem_of_app. by left.
Qed.

End RunTests.

(** ** Tests registered on the root block *)

Section RootTests.
Context {W : Type} (perf_now : W → Z) (options : RunOptions W).
Implicit Types (anc chain : list (DescribeBlock W)) (block root : DescribeBlock W).
Implicit Types (id : BlockId) (st : RunState W).

Lemma bind_ext {A B} (m m' : M W A) (k k' : A → M W B) st :
  m st = m' st → (∀ a st1, k a st1 = k' a st1) → bind m k st = bind m' k' st.
Proof.
  intros Hm Hk. unfold bind. rewrite Hm. by destruct (m' st) as [[a|v] st1].
Qed.

Lemma bind_getState {B} (k : RunState W → M W B) st : bind getState k st = k st st.
Proof. done. Qed.

Lemma sameScope_refl block : sameScope block block.
Proof. by split. Qed.

Lemma suitePathLoop_congr chain chain' path :
  Forall2 sameScope chain chain' →
  suitePathLoop chain path = suitePathLoop chain' path.
Proof.
  intros Hc. revert path. induction Hc as [|b b' c c' [Hname _] Hc IH]; intros path.
  - done.
  - simpl. destruct Hc as [|b1 b1' c1 c1' Hb1 Hc1]; [done|].
    rewrite Hname. apply IH.
Qed.

Lemma getSuitePath_congr chain chain' :
  Forall2 sameScope chain chain' → getSuitePath chain = getSuitePath chain'.
Proof. intros Hc. unfold getSuitePath. by rewrite (suitePathLoop_congr _ _ _ Hc). Qed.

Lemma collectHooks_congr chain chain' type :
  Forall2 sameScope chain chain' → collectHooks chain type = collectHooks chain' type.
Proof.
  intros Hc. rewrite !collectHooks_chain.
  assert (map (hooksOf type) chain = map (hooksOf type) chain') as Heq.
  { induction Hc as [|b b' c c' [_ Hhooks] _ IH]; simpl; [done|].
    by rewrite Hhooks, IH. }
  destruct type; by rewrite ?map_rev, Heq.
Qed.

Lemma lineageLoop_congr ran id chain chain'
    (lineage lineage' : list (BlockId * DescribeBlock W)) :
  Forall2 sameScope chain chain' →
  Forall2 (fun x y => x.1 = y.1 ∧ sameScope x.2 y.2) lineage lineage' →
  Forall2 (fun x y => x.1 = y.1 ∧ sameScope x.2 y.2)
    (lineageLoop ran id chain lineage) (lineageLoop ran id chain' lineage').
Proof.
  intros Hc. revert id lineage lineage'.
  induction Hc as [|b b' c c' Hb _ IH]; intros id lineage lineage' Hl; simpl; [done|].
  destruct (decide (id ∈ ran)); [done|]. apply IH. by constructor.
Qed.

Lemma markLoop_congr (lineage lineage' : list (BlockId * DescribeBlock W)) :
  Forall2 (fun x y => x.1 = y.1 ∧ sameScope x.2 y.2) lineage lineage' →
  ∀ hooks, markLoop lineage hooks = markLoop lineage' hooks.
Proof.
  induction 1 as [|[a x] [a' x'] l l' [Ha [_ Hhooks]] _ IH]; intros hooks; [done|].
  simpl in *. subst a'. specialize (Hhooks BeforeAll). simpl in Hhooks.
  by rewrite <- Hhooks, IH.
Qed.

Lemma lineage_ids_congr (lineage lineage' : list (BlockId * DescribeBlock W)) :
  Forall2 (fun x y => x.1 = y.1 ∧ sameScope x.2 y.2) lineage lineage' →
  lineage.*1 = lineage'.*1.
Proof.
  induction 1 as [|x y l l' [Hxy _] _ IH]; [done|].
  rewrite !fmap_cons. by f_equal.
Qed.

Lemma beforeAllPhase_congr id chain chain' suitePath st :
  Forall2 sameScope chain chain' →
  beforeAllPhase options id chain suitePath st
  = beforeAllPhase options id chain' suitePath st.
Proof.
  intros Hc. unfold beforeAllPhase. unfold bind at 1 3. simpl.
  destruct (decide (id ∈ ranBeforeAll st)); [done|].
  pose proof (lineageLoop_congr (ranBeforeAll st) id chain chain' [] [] Hc
                ltac:(constructor)) as Hl.
  rewrite (markLoop_congr _ _ Hl).
  by rewrite (lineage_ids_congr _ _ Hl).
Qed.

Lemma runTestCase_congr id i chain chain' suitePath testCase :
  Forall2 sameScope chain chain' →
  runTestCase perf_now options id i chain suitePath testCase
  = runTestCase perf_now options id i chain' suitePath testCase.
Proof.
  intros Hc. unfold runTestCase, testStage, cleanupStage.
  by rewrite !(collectHooks_congr chain chain' _ Hc).
Qed.

Lemma testLoop_congr id chain chain' suitePath tests i :
  Forall2 sameScope chain chain' →
  testLoop perf_now options id chain suitePath tests i
  = testLoop perf_now options id chain' suitePath tests i.
Proof.
  intros Hc. revert i. induction tests as [|testCase rest IH]; intros i; simpl; [done|].
  by rewrite (runTestCase_congr id i chain chain' suitePath testCase Hc), IH.
Qed.

Lemma childLoop_ext (run run' : nat → DescribeBlock W → M W bool) cs : ∀ i st,
  Forall (fun c => ∀ i st, run i c st = run' i c st) cs →
  childLoop run cs i st = childLoop run' cs i st.
Proof.
  induction cs as [|c cs IH]; intros i st Hcs; simpl; [done|].
  apply Forall_cons in Hcs as [Hc Hcs].
  unfold bind at 1 3. simpl. destruct (globalBail st); [done|].
  apply bind_ext; [apply Hc|]. intros [] st1; simpl; [exact (IH _ _ Hcs)|done].
Qed.

(** A visit reads the name and the hooks of the ancestors, nothing else. *)
Lemma runDescribeBlock_congr block : ∀ anc anc' id st,
  Forall2 sameScope anc anc' →
  runDescribeBlock perf_now options anc id block st
  = runDescribeBlock perf_now options anc' id block st.
Proof.
  induction block as [nm cs ts h1 h2 h3 h4 IH] using DescribeBlock_rect_nested.
  intros anc anc' id st Hanc. rewrite !runDescribeBlock_eq.
  set (block := mkDescribeBlock nm cs ts h1 h2 h3 h4) in *.
  assert (Forall2 sameScope (block :: anc) (block :: anc')) as Hchain.
  { constructor; [apply sameScope_refl|done]. }
  rewrite (getSuitePath_congr _ _ Hchain).
  rewrite (testLoop_congr id _ _ (getSuitePath (block :: anc')) (tests block) 0 Hchain).
  rewrite !bind_getState. destruct (globalBail st); [done|].
  apply bind_ext; [done|]. intros _ st1.
  apply bind_ext; [done|]. intros _ st2.
  apply bind_ext; [by apply beforeAllPhase_congr|]. intros ok st3.
  apply bind_ext; [done|]. intros st4 st5.
  apply bind_ext; [done|]. intros _ st6.
  apply bind_ext; [done|]. intros st7 st8.
  apply bind_ext; [|done].
  destruct (ok && negb (globalBail st7)); simpl; [|done].
  apply childLoop_ext. eapply Forall_impl; [exact IH|].
  intros c Hc i st9. by apply Hc.
Qed.

Lemma topLoop_congr root root' tops : ∀ i st,
  sameScope root root' →
  topLoop perf_now options root tops i st = topLoop perf_now options root' tops i st.
Proof.
  induction tops as [|top tops IH]; intros i st Hroot; simpl; [done|].
  apply bind_ext.
  - apply runDescribeBlock_congr. by constructor.
  - intros _ st1. unfold bind. simpl. destruct (globalBail st1); [done|]. by apply IH.
Qed.

(** [runTests] reads the children, the name and the hooks of the root:
    its own tests are never looked at. *)
Lemma runTests_ignores_root_tests root root' flags w :
  sameScope root root' → children root = children root' →
  runTests perf_now options root flags w = runTests perf_now options root' flags w.
Proof.
  intros Hscope Hchildren. unfold runTests.
  assert (resetExecutionState [] root flags = resetExecutionState [] root' flags) as ->.
  { destruct root, root'. simpl in *. by subst. }
  rewrite Hchildren. apply bind_ext; [by apply topLoop_congr|done].
Qed.

Lemma forEachChild_ext {A} (f g : nat → DescribeBlock W → A → A) cs : ∀ i a,
  Forall (fun c => ∀ i a, f i c a = g i c a) cs →
  forEachChild f cs i a = forEachChild g cs i a.
Proof.
  induction cs as [|c cs IH]; intros i a Hcs; simpl; [done|].
  apply Forall_cons in Hcs as [Hc Hcs]. rewrite Hc. by apply IH.
Qed.

Lemma traverse_congr block : ∀ anc anc' found,
  Forall2 sameScope anc anc' → traverse anc block found = traverse anc' block found.
Proof.
  induction block as [nm cs ts h1 h2 h3 h4 IH] using DescribeBlock_rect_nested.
  intros anc anc' found Hanc. simpl.
  set (block := mkDescribeBlock nm cs ts h1 h2 h3 h4) in *.
  assert (Forall2 sameScope (block :: anc) (block :: anc')) as Hchain.
  { constructor; [apply sameScope_refl|done]. }
  rewrite (getSuitePath_congr _ _ Hchain). apply forEachChild_ext.
  eapply Forall_impl; [exact IH|]. intros c Hc i a. by apply Hc.
Qed.

Lemma getTestList_ignores_root_tests root root' :
  sameScope root root' → children root = children root' →
  getTestList root = getTestList root'.
Proof.
  intros Hscope Hchildren. unfold getTestList.
  destruct root as [nm cs ts h1 h2 h3 h4], root' as [nm' cs' ts' h1' h2' h3' h4'].
  simpl in *. subst cs'. apply forEachChild_ext, Forall_forall.
  intros c _ i a. apply traverse_congr. by constructor.
Qed.

Lemma pushTest_sameScope (t : TestCase W) root :
  sameScope (pushTest t root) root ∧ children (pushTest t root) = children root.
Proof. split; [split; [done|by intros []]|done]. Qed.

(** C10.  A test registered with the cursor on the root block ([it]
    outside any [describe]) is pushed on the root's own list of tests;
    [runTests] and [getTestList] give the same outcome with and without
    it, and no stage of a test of the root is ever run. *)
Theorem root_tests_are_invisible root name (fn : TestFn W) flags w :
  (it name fn (mkRegistry root (Some []))).1 = Normal tt ∧
  tests (rootDescribeBlock (it name fn (mkRegistry root (Some []))).2)
  = tests root ++ [mkTestCase (extractTags name).1 fn (extractTags name).2] ∧
  runTests perf_now options
    (rootDescribeBlock (it name fn (mkRegistry root (Some []))).2) flags w
  = runTests perf_now options root flags w ∧
  getTestList (rootDescribeBlock (it name fn (mkRegistry root (Some []))).2)
  = getTestList root ∧
  (∀ i s, StepOfTest [] i s → s ∉ history (runTests perf_now options root flags w).2).
Proof.
  rewrite it_at_root. simpl.
  destruct (pushTest_sameScope
              (mkTestCase (extractTags name).1 fn (extractTags name).2) root)
    as [Hscope Hchildren].
  split; [done|]. split; [done|].
  split; [by apply runTests_ignores_root_tests|].
  split; [by apply getTestList_ignores_root_tests|].
  intros i s Hs Hin.
  destruct (runTests_shape perf_now options root flags w) as (Hshape & _).
  destruct (shape_local options) as [_ Hlocal].
  destruct (Hlocal _ _ _ _ _ _ _ Hshape s [] Hin (StepOfTest_owner _ _ _ Hs))
    as (k & _ & Hsuf%suffix_length).
  simpl in Hsuf. lia.
Qed.

End RootTests.

(** ** One test: which failure is reported *)

Section OneTest.
Context {W : Type} (perf_now : W → Z) (options : RunOptions W).
Implicit Types (chain : list (DescribeBlock W)) (id : BlockId) (st : RunState W).

(** X10.  When [parseError] returns on every value it is given, one
    iteration of the test loop records exactly one result, after running the
    after-each chain, and:
    - a before-each failure is the recorded error, and the body is not
      called;
    - otherwise a throw of the body is the recorded error;
    - otherwise a failure of the after-each chain is the recorded error;
    - otherwise the test passes;
    and with [bail] a failed test raises the flag and leaves the loop. *)
Lemma test_outcome_precedence id i chain suitePath testCase st stop :
  (runTestCase perf_now options id i chain suitePath testCase st).1 = Normal stop →
  ∃ status duration error,
    results (runTestCase perf_now options id i chain suitePath testCase st).2
    = results st ++ [mkTestResult suitePath (tc_name testCase) status duration error] ∧
    (status = failed → opt_bail options = true →
     stop = true ∧
     globalBail (runTestCase perf_now options id i chain suitePath testCase st).2 = true) ∧
    match runHooks (collectHooks chain BeforeEach)
            (world (emit options (EvStart suitePath (tc_name testCase)) st).2) with
    | (HooksFailed beforeErr, _) =>
        status = failed ∧ Normal <$> error = Some (parseError beforeErr) ∧
        history (runTestCase perf_now options id i chain suitePath testCase st).2
        = history st ++ [TestStarted id i; BeforeEachRun id i; AfterEachRun id i;
                         TestFinished id i failed]
    | (HooksOk, w1) =>
        history (runTestCase perf_now options id i chain suitePath testCase st).2
        = history st ++ [TestStarted id i; BeforeEachRun id i; TestBodyRun id i;
                         AfterEachRun id i; TestFinished id i status] ∧
        match tc_fn testCase w1 with
        | (Some thrown, _) =>
            status = failed ∧ Normal <$> error = Some (parseError thrown)
        | (None, w2) =>
            match runHooks (collectHooks chain AfterEach) w2 with
            | (HooksFailed afterErr, _) =>
                status = failed ∧ Normal <$> error = Some (parseError afterErr)
            | (HooksOk, _) => status = passed ∧ error = None
            end
        end
    end.
Proof.
  unfold runTestCase, testStage, cleanupStage, bind, emit, logStep, now, awaitHooks,
    awaitTest, parse, pushResult, raiseBail, ret.
  intros Hret.
  repeat (case_match; simplify_eq/=);
    eexists _, _, _; (split; [reflexivity|]);
    rewrite <- ?app_assoc; simpl; repeat split; (done || congruence).
Qed.

(** Once the flag is raised no visit, test or child is started. *)
Lemma bailed_visit anc id block st :
  globalBail st = true →
  runDescribeBlock perf_now options anc id block st = (Normal false, st).
Proof.
  intros Hbail. rewrite runDescribeBlock_eq. unfold bind, getState. by rewrite Hbail.
Qed.

Lemma bailed_testLoop id chain suitePath tests i st :
  globalBail st = true →
  testLoop perf_now options id chain suitePath tests i st = (Normal tt, st).
Proof.
  intros Hbail. destruct tests; [done|]. simpl. unfold bind, getState.
  by rewrite Hbail.
Qed.

Lemma bailed_childLoop (run : nat → DescribeBlock W → M W bool) cs i st :
  globalBail st = true → childLoop run cs i st = (Normal tt, st).
Proof.
  intros Hbail. destruct cs; [done|]. simpl. unfold bind, getState.
  by rewrite Hbail.
Qed.

End OneTest.

(** ** The scenarios *)

Section Scenarios.
Import Scenario.

(** C5.  Suite A with a before-all hook pushing bA and test t1 pushing
    t1, child suite B with a before-all hook pushing bB and test t2
    pushing t2: the run pushes bA, t1, bB, t2 in this order and both tests
    pass. *)
Theorem nested_suites_push_order :
  world (run defaultOptions registerAB).2 = ["bA"; "t1"; "bB"; "t2"] ∧
  (λ r, (tr_suite r, tr_test r, tr_status r)) <$> results (run defaultOptions registerAB).2
  = [("A", "t1", passed); ("A > B", "t2", passed)] ∧
  history (run defaultOptions registerAB).2
  = [Entered [0%nat]; SetRanBeforeAll [] false; SetRanBeforeAll [0%nat] false;
     BeforeAllRun [0%nat] [[]; [0%nat]];
     TestStarted [0%nat] 0; BeforeEachRun [0%nat] 0; TestBodyRun [0%nat] 0;
     AfterEachRun [0%nat] 0; TestFinished [0%nat] 0 passed;
     Entered [0%nat; 0%nat]; SetRanBeforeAll [0%nat; 0%nat] false;
     BeforeAllRun [0%nat; 0%nat] [[0%nat; 0%nat]];
     TestStarted [0%nat; 0%nat] 0; BeforeEachRun [0%nat; 0%nat] 0;
     TestBodyRun [0%nat; 0%nat] 0; AfterEachRun [0%nat; 0%nat] 0;
     TestFinished [0%nat; 0%nat] 0 passed].
Proof. vm_compute. by repeat split. Qed.

(** The registered tree of the scenario, as [getTestList] sees it. *)
Example nested_suites_listed :
  getTestList (built registerAB)
  = [mkTestMeta "A" "t1"; mkTestMeta "A > B" "t2"].
Proof. vm_compute. reflexivity. Qed.

(** C1, as first stated, fails on this run.  Suite A has a before-all
    hook that throws and an after-all hook pushing aA: the before-all
    phase of A fails, and the after-all hook of A is not run. *)
Lemma after_all_skipped_when_before_all_fails :
  BeforeAllFailed [0%nat] ∈ history (run defaultOptions registerFailingBeforeAll).2 ∧
  length (afterAllHooks (firstChild (built registerFailingBeforeAll))) = 1%nat ∧
  (AfterAllRun [0%nat] ∉ history (run defaultOptions registerFailingBeforeAll).2) ∧
  world (run defaultOptions registerFailingBeforeAll).2 = ["bA"].
Proof.
  split; [|split; [|split]].
  - apply (bool_decide_unpack _). vm_compute. exact I.
  - vm_compute. reflexivity.
  - apply (bool_decide_unpack _). vm_compute. exact I.
  - vm_compute. reflexivity.
Qed.

(** The run above meets the hypothesis of the theorem on failed before-all
    phases. *)
Lemma before_all_failure_witness :
  BeforeAllFailed [0%nat] ∈ history (run defaultOptions registerFailingBeforeAll).2 ∧
  (AfterAllRun [0%nat] ∉ history (run defaultOptions registerFailingBeforeAll).2).
Proof.
  assert (BeforeAllFailed [0%nat]
            ∈ history (run defaultOptions registerFailingBeforeAll).2) as Hfailed.
  { apply (bool_decide_unpack _). vm_compute. exact I. }
  split; [exact Hfailed|].
  exact (proj1 (proj2 (proj2
           (before_all_failure_stops_the_suite clock defaultOptions
              (built registerFailingBeforeAll) noFlags [] [0%nat] Hfailed)))).
Defined.

(** C3, as first stated, fails twice.
    - On the same run, suite B, the child of A, is a block of the tree
      and is never reached: its flag is not set at all, so it does not
      change exactly once.
    - A before-all hook that calls [runTests] is run again by that call:
      with the hook of [reentrantTree], which pushes bA and calls
      [runTests] the first time it runs, the run pushes bA twice, once
      in each call of [runTests], before t1 is pushed by the nested call
      and by the outer one.  The nested call, which starts when the
      log is [bA], leaves the flags as the outer call has them; no hook
      fails, so the bound [depth] is not reached. *)
Lemma flag_not_once_and_no_guard_on_reentry :
  (name <$> blockAt [0%nat; 0%nat] (built registerFailingBeforeAll) = Some "B" ∧
   length (List.filter (setsFlagOf [0%nat; 0%nat])
             (history (run defaultOptions registerFailingBeforeAll).2)) = 0%nat ∧
   ([0%nat; 0%nat] ∉ ranBeforeAll (run defaultOptions registerFailingBeforeAll).2)) ∧
  (∀ depth,
     world (runTests clock defaultOptions (reentrantTree (S depth)) noFlags []).2
     = ["bA"; "bA"; "t1"; "t1"] ∧
     (λ r, (tr_suite r, tr_test r, tr_status r))
       <$> results (runTests clock defaultOptions (reentrantTree (S depth)) noFlags []).2
     = [("A", "t1", passed)] ∧
     world (runTests clock defaultOptions (reentrantTree depth) noFlags ["bA"]).2
     = ["bA"; "bA"; "t1"] ∧
     ranBeforeAll (runTests clock defaultOptions (reentrantTree depth) noFlags ["bA"]).2
     = ranBeforeAll (runTests clock defaultOptions (reentrantTree (S depth)) noFlags []).2 ∧
     executed (runTests clock defaultOptions (reentrantTree depth) noFlags ["bA"]).2
     = executed (runTests clock defaultOptions (reentrantTree (S depth)) noFlags []).2).
Proof.
  split; [split; [|split]|].
  - vm_compute. reflexivity.
  - vm_compute. reflexivity.
  - apply (bool_decide_unpack _). vm_compute. exact I.
  - intros depth. destruct depth as [|depth]; vm_compute; by repeat split.
Qed.

(** Suite B of the nested scenario is a block of its tree, and its
    before-all hooks are collected root first. *)
Lemma collectHooks_witness :
  Node [] [] treeAB [suiteA; treeAB] [0%nat; 0%nat] suiteB ∧
  collectHooks [suiteB; suiteA; treeAB] BeforeAll
  = concat (map (hooksOf BeforeAll) (blocksOnPath (rev [0%nat; 0%nat]) treeAB)).
Proof.
  assert (Node [] [] treeAB [suiteA; treeAB] [0%nat; 0%nat] suiteB) as Hnode.
  { apply (node_child [] [] treeAB 0 suiteA); [vm_compute; reflexivity|].
    apply (node_child [treeAB] [0%nat] suiteA 0 suiteB); [vm_compute; reflexivity|].
    apply node_self. }
  split; [exact Hnode|].
  exact (collectHooks_root_to_node treeAB [suiteA; treeAB] [0%nat; 0%nat] suiteB
           BeforeAll Hnode).
Defined.

(** A before-each hook that throws an error object: the test is recorded
    as failed with that error, the body (which would push t1) is not
    called, the after-each hook runs. *)
Example before_each_error_is_recorded :
  (λ r, (tr_test r, tr_status r, se_message <$> tr_error r))
    <$> results (run defaultOptions (registerThrowingBeforeEach boom)).2
  = [("t1", failed, Some "boom")] ∧
  world (run defaultOptions (registerThrowingBeforeEach boom)).2 = ["beA"; "aeA"].
Proof. vm_compute. by split. Qed.

(** C2.  A before-each hook that throws a value whose coercion to a string
    throws ([Object.create(null)]): [parseError] throws inside the
    iteration, so [runTests] is rejected; no result is recorded for the
    test and the after-each hook (which would push aeA) is not run. *)
Theorem unprintable_before_each_error_rejects_the_run :
  (run defaultOptions (registerThrowingBeforeEach bareObject)).1
  = Abrupt (TypeError "Cannot convert object to primitive value") ∧
  results (run defaultOptions (registerThrowingBeforeEach bareObject)).2 = [] ∧
  world (run defaultOptions (registerThrowingBeforeEach bareObject)).2 = ["beA"] ∧
  history (run defaultOptions (registerThrowingBeforeEach bareObject)).2
  = [Entered [0%nat]; SetRanBeforeAll [] false; SetRanBeforeAll [0%nat] false;
     TestStarted [0%nat] 0; BeforeEachRun [0%nat] 0].
Proof. vm_compute. by repeat split. Qed.

(** With [bail], a test that throws an error object: its after-each hook
    and the after-all hook of the suite run, the second test does not. *)
Example bail_after_a_failed_test :
  (λ r, (tr_test r, tr_status r)) <$> results (run bailOptions (registerThrowingTest boom)).2
  = [("t1", failed)] ∧
  world (run bailOptions (registerThrowingTest boom)).2
  = ["bA"; "beA"; "t1"; "aeA"; "aA"].
Proof. vm_compute. by split. Qed.

(** C6.  With [bail], a test that throws a value whose coercion to a
    string throws: [parseError] throws in the [catch] clause of the test
    body, [runTests] is rejected, and neither the after-each hook of the
    failing test (aeA) nor the after-all hook of the entered suite (aA)
    is run. *)
Theorem unprintable_test_error_skips_cleanup :
  (run bailOptions (registerThrowingTest bareObject)).1
  = Abrupt (TypeError "Cannot convert object to primitive value") ∧
  results (run bailOptions (registerThrowingTest bareObject)).2 = [] ∧
  world (run bailOptions (registerThrowingTest bareObject)).2 = ["bA"; "beA"; "t1"] ∧
  history (run bailOptions (registerThrowingTest bareObject)).2
  = [Entered [0%nat]; SetRanBeforeAll [] false; SetRanBeforeAll [0%nat] false;
     BeforeAllRun [0%nat] [[]; [0%nat]];
     TestStarted [0%nat] 0; BeforeEachRun [0%nat] 0; TestBodyRun [0%nat] 0].
Proof. vm_compute. by repeat split. Qed.

(** A test registered before any [describe] is on the root's list, is not
    listed and is not run. *)
Example root_test_scenario :
  tc_name <$> tests (built registerRootTest) = ["orphan"] ∧
  getTestList (built registerRootTest) = [mkTestMeta "A" "t1"] ∧
  world (run defaultOptions registerRootTest).2 = ["t1"].
Proof. vm_compute. by repeat split. Qed.

End Scenarios.

(** ** Tags in names *)

Section Tags.

Lemma chars_str l : chars (str l) = l.
Proof. apply list_ascii_of_string_of_list_ascii. Qed.

Lemma str_chars s : str (chars s) = s.
Proof. apply string_of_list_ascii_of_string. Qed.

Lemma scanTags_no_at l : ∀ out tags,
  "@"%char ∉ l → scanTags l None out tags = (rev out ++ l, tags).
Proof.
  induction l as [|c l IH]; intros out tags Hat; simpl.
  - by rewrite app_nil_r.
  - apply not_elem_of_cons in Hat as [Hc Hl].
    destruct (Ascii.eqb_spec c "@") as [->|_]; [done|].
    rewrite IH by done. simpl. by rewrite <- app_assoc.
Qed.

(** X1.  A name without [@] holds no tag: [extractTags] returns the name
    trimmed and no tag. *)
Theorem extractTags_without_at name :
  "@"%char ∉ chars name → extractTags name = (trim name, []).
Proof.
  intros Hat. unfold extractTags. rewrite scanTags_no_at by done. simpl.
  by rewrite str_chars.
Qed.

Lemma noTag_snoc l c :
  noTag (l ++ [c]) = noTag l && negb (bool_decide (last l = Some "@"%char) && isWord c).
Proof.
  induction l as [|d l IH].
  - simpl. by rewrite andb_false_r.
  - change ((d :: l) ++ [c]) with (d :: (l ++ [c])). cbn [noTag]. rewrite IH.
    destruct l as [|e l].
    + simpl. destruct (Ascii.eqb_spec d "@") as [->|Hd]; simpl.
      * by rewrite andb_true_r.
      * rewrite bool_decide_eq_false_2 by congruence. done.
    + change (last (d :: e :: l)) with (last (e :: l)). simpl.
      by rewrite !andb_assoc.
Qed.

Lemma last_rev_head {A} (l : list A) : last (rev l) = head l.
Proof. destruct l as [|x l]; [done|]. simpl. by rewrite last_snoc. Qed.

Lemma scanTags_noTag l : ∀ tag out tags,
  noTag (rev out) = true →
  (tag = None → head out ≠ Some "@"%char) →
  noTag (scanTags l tag out tags).1 = true.
Proof.
  assert (Hpush : ∀ out c, noTag (rev out) = true →
            head out ≠ Some "@"%char ∨ isWord c = false →
            noTag (rev (c :: out)) = true).
  { intros out c Hout Hc. simpl. rewrite noTag_snoc, Hout, last_rev_head. simpl.
    destruct Hc as [Hc| ->].
    - by rewrite bool_decide_eq_false_2.
    - by rewrite andb_false_r. }
  induction l as [|c l IH]; intros tag out tags Hout Htag; simpl.
  - destruct tag as [[|d t]|]; simpl; [|done..].
    rewrite noTag_snoc, Hout. simpl. by rewrite andb_false_r.
  - destruct tag as [t|].
    + destruct (isWord c) eqn:Hword; [by apply IH|].
      assert (noTag (rev match t with [] => "@"%char :: out | _ => out end) = true)
        as Hout1.
      { destruct t; [|done]. apply Hpush; [done|]. by right. }
      destruct (Ascii.eqb_spec c "@") as [->|Hc].
      * by apply IH.
      * apply IH; [apply Hpush; [done|by right]|]. simpl. congruence.
    + destruct (Ascii.eqb_spec c "@") as [->|Hc].
      * by apply IH.
      * apply IH; [apply Hpush; [done|left; by apply Htag]|]. simpl. congruence.
Qed.

Lemma scanTags_id l :
  (∀ out tags, noTag l = true → scanTags l None out tags = (rev out ++ l, tags)) ∧
  (∀ out tags, noTag ("@"%char :: l) = true →
     scanTags l (Some []) out tags = (rev out ++ "@"%char :: l, tags)).
Proof.
  induction l as [|c l [IH1 IH2]]; (split; intros out tags Hl).
  - simpl. by rewrite app_nil_r.
  - done.
  - simpl. destruct (Ascii.eqb_spec c "@") as [->|Hc].
    + by rewrite IH2.
    + rewrite IH1; [simpl; by rewrite <- app_assoc|].
      simpl in Hl. by apply andb_prop in Hl as [_ ?].
  - change (noTag ("@"%char :: c :: l))
      with (negb (true && isWord c) && noTag (c :: l)) in Hl.
    apply andb_prop in Hl as [Hword Hl]. simpl in Hword.
    apply negb_true_iff in Hword. cbn [scanTags]. rewrite Hword.
    destruct (Ascii.eqb_spec c "@") as [->|Hc].
    + rewrite IH2 by done. simpl. by rewrite <- app_assoc.
    + rewrite IH1; [simpl; by rewrite <- !app_assoc|].
      simpl in Hl. by apply andb_prop in Hl as [_ ?].
Qed.

Lemma noTag_app l1 l2 : noTag (l1 ++ l2) = true → noTag l1 = true ∧ noTag l2 = true.
Proof.
  induction l1 as [|c l1 IH]; simpl; [done|].
  intros [Hc Hrest]%andb_prop. destruct (IH Hrest) as [H1 H2].
  split; [|done]. rewrite H1, andb_true_r.
  destruct l1 as [|d l1]; simpl in *; [by rewrite andb_false_r|done].
Qed.

Lemma dropWhile_suffix {A} (p : A → bool) (l : list A) :
  ∃ l1, l = l1 ++ dropWhile p l.
Proof.
  induction l as [|x l [l1 IH]]; simpl; [by exists []|].
  destruct (p x); [|by exists []]. exists (x :: l1). simpl. by f_equal.
Qed.

Lemma dropWhile_head {A} (p : A → bool) (l : list A) x :
  head (dropWhile p l) = Some x → p x = false.
Proof.
  induction l as [|y l IH]; simpl; [done|].
  destruct (p y) eqn:Hy; [done|]. simpl. by intros [= <-].
Qed.

Lemma dropWhile_fixed {A} (p : A → bool) (l : list A) :
  (∀ x, head l = Some x → p x = false) → dropWhile p l = l.
Proof. destruct l as [|x l]; [done|]. simpl. intros H. by rewrite H. Qed.

(** What [trim] returns has no space at either end. *)
Lemma trim_chars s :
  ∃ l1 l2, chars s = l1 ++ chars (trim s) ++ l2 ∧
    (∀ x, head (chars (trim s)) = Some x → isSpace x = false) ∧
    (∀ x, head (rev (chars (trim s))) = Some x → isSpace x = false).
Proof.
  unfold trim. rewrite chars_str.
  destruct (dropWhile_suffix isSpace (chars s)) as [l1 H1].
  destruct (dropWhile_suffix isSpace (rev (dropWhile isSpace (chars s)))) as [l2 H2].
  set (m := dropWhile isSpace (chars s)) in *.
  set (n := dropWhile isSpace (rev m)) in *.
  assert (m = rev n ++ rev l2) as Hm.
  { rewrite <- rev_app_distr, <- H2. by rewrite rev_involutive. }
  exists l1, (rev l2). split; [by rewrite <- Hm|]. split.
  - intros x Hx. apply (dropWhile_head isSpace (chars s)). fold m. rewrite Hm.
    destruct (rev n); [done|]. done.
  - intros x. rewrite rev_involutive. apply dropWhile_head.
Qed.

Lemma trim_fixed s :
  (∀ x, head (chars s) = Some x → isSpace x = false) →
  (∀ x, head (rev (chars s)) = Some x → isSpace x = false) →
  trim s = s.
Proof.
  intros H1 H2. unfold trim. rewrite (dropWhile_fixed _ _ H1).
  rewrite (dropWhile_fixed _ _ H2). by rewrite rev_involutive, str_chars.
Qed.

Lemma trim_idempotent s : trim (trim s) = trim s.
Proof. destruct (trim_chars s) as (l1 & l2 & _ & H1 & H2). by apply trim_fixed. Qed.

(** X2.  The clean name is a fixed point of [extractTags]: it is
    returned as it is, with no tag left in it. *)
Theorem extractTags_idempotent name :
  extractTags (extractTags name).1 = ((extractTags name).1, []).
Proof.
  unfold extractTags at 2 3.
  destruct (scanTags (chars name) None [] []) as [clean tags] eqn:Hscan. simpl.
  assert (noTag clean = true) as Hclean.
  { pose proof (scanTags_noTag (chars name) None [] [] eq_refl) as H.
    rewrite Hscan in H. by apply H. }
  destruct (trim_chars (str clean)) as (l1 & l2 & Hsplit & _).
  rewrite chars_str in Hsplit. rewrite Hsplit in Hclean.
  apply noTag_app in Hclean as [_ [Htrimmed _]%noTag_app].
  unfold extractTags.
  rewrite (proj1 (scanTags_id (chars (trim (str clean)))) [] [] Htrimmed). simpl.
  by rewrite str_chars, trim_idempotent.
Qed.

Lemma scanTags_tags l : ∀ tag out tags,
  Forall (fun t => t ≠ ""%string ∧ forallb isWord (chars t) = true) tags →
  (∀ t, tag = Some t → forallb isWord t = true) →
  Forall (fun t => t ≠ ""%string ∧ forallb isWord (chars t) = true)
    (scanTags l tag out tags).2.
Proof.
  assert (Hadd : ∀ d (t : list ascii) tags,
    Forall (fun t => t ≠ ""%string ∧ forallb isWord (chars t) = true) tags →
    forallb isWord (d :: t) = true →
    Forall (fun t => t ≠ ""%string ∧ forallb isWord (chars t) = true)
      (tags ++ [str (rev (d :: t))])).
  { intros d t tags Htags Ht. apply Forall_app. split; [done|].
    apply Forall_singleton. split.
    - intros Heq. apply (f_equal chars) in Heq. rewrite chars_str in Heq.
      simpl in Heq. by destruct (rev t).
    - rewrite chars_str. rewrite forallb_forall in *. intros x Hx.
      apply Ht. by apply in_rev. }
  induction l as [|c l IH]; intros tag out tags Htags Htag; simpl.
  - destruct tag as [[|d t]|]; simpl; [done| |done].
    apply Hadd; [done|]. by apply Htag.
  - destruct tag as [t|].
    + destruct (isWord c) eqn:Hword.
      * apply IH; [done|]. intros ? [= <-]. simpl. rewrite Hword. by apply Htag.
      * assert (Forall (fun t => t ≠ ""%string ∧ forallb isWord (chars t) = true)
                  match t with [] => tags | _ => tags ++ [str (rev t)] end) as Htags1.
        { destruct t as [|d t]; [done|]. apply Hadd; [done|]. by apply Htag. }
        destruct (Ascii.eqb c "@"); apply IH; try done. by intros ? [= <-].
    + destruct (Ascii.eqb c "@"); apply IH; try done. by intros ? [= <-].
Qed.

(** X3.  Every tag is a non-empty run of word characters; the clean
    name has no white space at either end and no [@] followed by a word
    character. *)
Theorem extractTags_tags_are_words name :
  (∀ t, t ∈ (extractTags name).2 → t ≠ ""%string ∧ forallb isWord (chars t) = true) ∧
  (∀ x, head (chars (extractTags name).1) = Some x → isSpace x = false) ∧
  (∀ x, last (chars (extractTags name).1) = Some x → isSpace x = false) ∧
  noTag (chars (extractTags name).1) = true.
Proof.
  unfold extractTags.
  destruct (scanTags (chars name) None [] []) as [clean tags] eqn:Hscan. simpl.
  destruct (trim_chars (str clean)) as (l1 & l2 & Hsplit & H1 & H2).
  split; [|split; [|split]].
  - pose proof (scanTags_tags (chars name) None [] [] ltac:(constructor)
                  ltac:(done)) as H.
    rewrite Hscan in H. simpl in H. by rewrite Forall_forall in H.
  - done.
  - intros x Hx. apply H2. by rewrite <- last_rev_head, rev_involutive.
  - pose proof (scanTags_noTag (chars name) None [] [] eq_refl) as H.
    rewrite Hscan in H. simpl in H. specialize (H ltac:(done)).
    rewrite chars_str in Hsplit. rewrite Hsplit in H.
    by apply noTag_app in H as [_ [? _]%noTag_app].
Qed.

End Tags.

(** ** Suite paths and hook chains *)

Section Paths.
Context {W : Type}.
Implicit Types (chain anc : list (DescribeBlock W)) (b root : DescribeBlock W).
Implicit Types (id : BlockId) (w : W) (hooks : list (HookFn W)).

Lemma suitePathLoop_spec chain : ∀ path,
  suitePathLoop chain path = (name <$> rev (removelast chain)) ++ path.
Proof.
  induction chain as [|b chain IH]; intros path; [done|].
  destruct chain as [|p chain]; [done|].
  change (suitePathLoop (b :: p :: chain) path)
    with (suitePathLoop (p :: chain) (name b :: path)).
  rewrite IH. change (removelast (b :: p :: chain)) with (b :: removelast (p :: chain)).
  simpl rev. rewrite fmap_app. simpl. by rewrite <- app_assoc.
Qed.

Lemma removelast_rev_tail {A} (l : list A) : rev (removelast l) = tail (rev l).
Proof.
  induction l as [|x l IH] using rev_ind; [done|].
  rewrite removelast_last, rev_app_distr. done.
Qed.

(** X5.  The suite path of a block of the tree is made of the names of
    the blocks on the path from the root to the block, the root left
    out, outermost first, joined by [" > "]. *)
Theorem getSuitePath_names root anc id b :
  Node [] [] root anc id b →
  getSuitePath (b :: anc) = join " > " (name <$> tail (blocksOnPath (rev id) root)).
Proof.
  intros Hnode. unfold getSuitePath. rewrite suitePathLoop_spec, app_nil_r.
  by rewrite removelast_rev_tail, (Node_root_path _ _ _ _ Hnode).
Qed.

Lemma runHooks_app hooks1 hooks2 w :
  runHooks (hooks1 ++ hooks2) w
  = match runHooks hooks1 w with
    | (HooksOk, w1) => runHooks hooks2 w1
    | (HooksFailed error, w1) => (HooksFailed error, w1)
    end.
Proof.
  revert w. induction hooks1 as [|hook hooks1 IH]; intros w; simpl; [done|].
  destruct (hook w) as [[error|] w1]; [done|]. apply IH.
Qed.

(** X6.  [runHooks] fails exactly when some hook throws after all the
    hooks before it have returned: the error is the one this hook throws,
    the state is the one it leaves, and no later hook is called. *)
Theorem runHooks_stops_at_first_failure hooks w error w' :
  runHooks hooks w = (HooksFailed error, w') ↔
  ∃ k hook wk,
    hooks !! k = Some hook ∧
    runHooks (take k hooks) w = (HooksOk, wk) ∧
    hook wk = (Some error, w').
Proof.
  revert w. induction hooks as [|hook hooks IH]; intros w; simpl.
  - split; [done|]. by intros (k & hook & wk & Hk & _).
  - destruct (hook w) as [[thrown|] w1] eqn:Hhook.
    + split.
      * intros [= -> ->]. by exists 0%nat, hook, w.
      * intros ([|k] & hook' & wk & Hk & Hrun & Hthrow); simpl in *.
        -- simplify_eq. by rewrite Hhook in Hthrow; simplify_eq.
        -- by rewrite Hhook in Hrun.
    + rewrite IH. split.
      * intros (k & hook' & wk & Hk & Hrun & Hthrow).
        exists (S k), hook', wk. simpl. by rewrite Hhook.
      * intros ([|k] & hook' & wk & Hk & Hrun & Hthrow); simpl in *.
        -- simplify_eq. by rewrite Hhook in Hthrow.
        -- rewrite Hhook in Hrun. by exists k, hook', wk.
Qed.

End Paths.

(** ** Registration only appends *)

Section Appends.
Context {W : Type}.
Implicit Types (b c root : DescribeBlock W) (st : Registry W) (path : list nat).

Lemma Extends_refl b : Extends b b.
Proof.
  induction b as [nm cs ts h1 h2 h3 h4 IH] using DescribeBlock_rect_nested.
  constructor; [done..|].
  intros k c c' Hc Hc'. simpl in *. simplify_eq.
  rewrite Forall_forall in IH. apply IH. by eapply list_elem_of_lookup_2.
Qed.

Lemma Extends_name b b' : Extends b b' → name b = name b'.
Proof. by intros []. Qed.

Lemma Extends_trans b1 b2 b3 : Extends b1 b2 → Extends b2 b3 → Extends b1 b3.
Proof.
  intros H12. revert b3. induction H12 as [b1 b2 Hname Htests Hhooks Hlen _ IH].
  intros b3 H23. destruct H23 as [b2 b3 Hname' Htests' Hhooks' Hlen' Hchildren'].
  constructor.
  - congruence.
  - by etrans.
  - intros type. etrans; [apply Hhooks|apply Hhooks'].
  - lia.
  - intros k c1 c3 H1 H3.
    destruct (lookup_lt_is_Some_2 (children b2) k) as [c2 H2].
    { apply lookup_lt_Some in H1. lia. }
    eapply IH; [done..|]. by eapply Hchildren'.
Qed.

Lemma alterBlock_extends (f : DescribeBlock W → DescribeBlock W) path :
  (∀ b, Extends b (f b)) → ∀ b, Extends b (alterBlock f path b).
Proof.
  intros Hf. induction path as [|i path IH]; intros b; simpl; [apply Hf|].
  constructor; simpl; [done|done|done| |].
  - by rewrite length_alter.
  - intros k c c' Hc Hc'. destruct (decide (k = i)) as [->|Hne].
    + rewrite list_lookup_alter_eq, Hc in Hc'. simpl in Hc'. simplify_eq. apply IH.
    + rewrite list_lookup_alter_ne in Hc' by done. simplify_eq. apply Extends_refl.
Qed.

Lemma pushTest_extends t b : Extends b (pushTest t b).
Proof.
  constructor; simpl; [done| |by intros []|done|].
  - by apply prefix_app_r.
  - intros k c c' Hc Hc'. simplify_eq. apply Extends_refl.
Qed.

Lemma pushChild_extends c b : Extends b (pushChild c b).
Proof.
  constructor; simpl; [done|done|by intros []| |].
  - rewrite length_app. lia.
  - intros k c1 c2 H1 H2. rewrite lookup_app_l in H2 by by eapply lookup_lt_Some.
    simplify_eq. apply Extends_refl.
Qed.

Lemma pushHook_extends type (fn : HookFn W) b : Extends b (pushHook type fn b).
Proof.
  constructor.
  - by destruct type.
  - by destruct type.
  - intros type'. destruct type, type'; simpl; try reflexivity; by apply prefix_app_r.
  - by destruct type.
  - intros k c c' Hc Hc'. assert (c = c') as ->; [|apply Extends_refl].
    destruct type; simpl in *; congruence.
Qed.

Lemma it_only_appends name (fn : TestFn W) st :
  Extends (rootDescribeBlock st) (rootDescribeBlock (it name fn st).2).
Proof.
  unfold it. destruct (currentDescribeBlock st); [|apply Extends_refl].
  destruct (extractTags name). simpl. apply alterBlock_extends, pushTest_extends.
Qed.

Lemma registerHook_only_appends type what (fn : HookFn W) st :
  Extends (rootDescribeBlock st) (rootDescribeBlock (registerHook type what fn st).2).
Proof.
  unfold registerHook. destruct (currentDescribeBlock st); [|apply Extends_refl].
  simpl. apply alterBlock_extends, pushHook_extends.
Qed.

Lemma Extends_blockAt path : ∀ b b' c,
  Extends b b' → blockAt path b = Some c →
  ∃ c', blockAt path b' = Some c' ∧ Extends c c'.
Proof.
  induction path as [|i path IH]; intros b b' c Hext Hc; simpl in *.
  - simplify_eq. eauto.
  - destruct (children b !! i) as [d|] eqn:Hd; [|done].
    destruct Hext as [b b' _ _ _ Hlen Hchildren].
    destruct (lookup_lt_is_Some_2 (children b') i) as [d' Hd'].
    { apply lookup_lt_Some in Hd. lia. }
    rewrite Hd'. eapply IH; [|done]. by eapply Hchildren.
Qed.

Lemma blockAt_alterBlock (f : DescribeBlock W → DescribeBlock W) path : ∀ root p,
  blockAt path root = Some p → blockAt path (alterBlock f path root) = Some (f p).
Proof.
  induction path as [|i path IH]; intros root p Hp; simpl in *; [congruence|].
  destruct (children root !! i) as [c|] eqn:Hc; [|done].
  rewrite list_lookup_alter_eq, Hc. simpl. by apply IH.
Qed.

Lemma blockAt_app path1 path2 : ∀ root,
  blockAt (path1 ++ path2) root = blockAt path1 root ≫= blockAt path2.
Proof.
  induction path1 as [|i path1 IH]; intros root; simpl; [done|].
  destruct (children root !! i); [apply IH|done].
Qed.

(** X4.  [describe] only appends.  With the cursor on block [p] and a
    body that only appends: every block of the tree stays where it is,
    with its name and its lists extended; the new block is the next child
    of [p], created empty under the name without its tags and extended
    by the body; the cursor is back on [p] at the end, also when the body
    throws. *)
Theorem describe_only_appends name (body : Reg W unit) st parent p :
  (∀ s, Extends (rootDescribeBlock s) (rootDescribeBlock (body s).2)) →
  currentDescribeBlock st = Some parent →
  blockAt (rev parent) (rootDescribeBlock st) = Some p →
  Extends (rootDescribeBlock st) (rootDescribeBlock (describe name body st).2) ∧
  (∀ path b,
     blockAt path (rootDescribeBlock st) = Some b →
     ∃ b', blockAt path (rootDescribeBlock (describe name body st).2) = Some b'
           ∧ Extends b b') ∧
  (∃ c, blockAt (rev (length (children p) :: parent))
          (rootDescribeBlock (describe name body st).2) = Some c
        ∧ Extends (createDescribeBlock (extractTags name).1) c) ∧
  currentDescribeBlock (describe name body st).2 = Some parent.
Proof.
  intros Hbody Hcursor Hp. unfold describe. rewrite Hcursor, Hp.
  match goal with |- context [body ?s] => pose proof (Hbody s) as Hs;
    destruct (body s) as [r st2] end.
  simpl in *.
  assert (Extends (rootDescribeBlock st) (rootDescribeBlock st2)) as Hext.
  { eapply Extends_trans; [|exact Hs].
    apply alterBlock_extends, pushChild_extends. }
  split; [done|]. split; [|split; [|done]].
  - intros path b Hb. by eapply Extends_blockAt.
  - eapply Extends_blockAt; [exact Hs|].
    rewrite blockAt_app, (blockAt_alterBlock _ _ _ _ Hp). simpl.
    by rewrite lookup_app_r, Nat.sub_diag by lia.
Qed.

Lemma script_only_appends (l : list (Reg W unit)) :
  Forall (fun call => ∀ s, Extends (rootDescribeBlock s) (rootDescribeBlock (call s).2))
    l →
  ∀ s, Extends (rootDescribeBlock s) (rootDescribeBlock (script l s).2).
Proof.
  induction 1 as [|call l Hcall _ IH]; intros s; simpl; [apply Extends_refl|].
  pose proof (Hcall s) as Hs. destruct (call s) as [[[]|v] s1]; simpl in *;
    [|exact Hs].
  eapply Extends_trans; [exact Hs|apply IH].
Qed.

End Appends.

(** ** Back to the initial registry *)

Section Forget.
Context {W : Type}.
Implicit Types (st : Registry W).

(** X7.  [resetRegistry] undoes the registrations: from any registry
    reached from the initial one by appending, it leads back to the
    initial registry. *)
Theorem resetRegistry_restores_the_initial_registry st :
  Extends (rootDescribeBlock initialRegistry) (rootDescribeBlock st) →
  resetRegistry st = (Normal tt, initialRegistry).
Proof.
  intros Hext.
  assert (name (rootDescribeBlock st) = "Root"%string) as Hname.
  { symmetry. apply (Extends_name _ _ Hext). }
  unfold resetRegistry, resetBlock, initialRegistry, createDescribeBlock.
  by rewrite Hname.
Qed.

End Forget.

(** ** The frame the normaliser reports *)

Section BestFrame.
Implicit Types (frames : list StackFrame) (x : StackFrame).

Lemma insertFrame_partition x frames1 frames2 :
  Forall (fun f => isTestFile f = true) frames1 →
  Forall (fun f => isTestFile f = false) frames2 →
  insertFrame x (frames1 ++ frames2)
  = if isTestFile x then (frames1 ++ [x]) ++ frames2 else frames1 ++ (frames2 ++ [x]).
Proof.
  intros H1 H2. induction H1 as [|y frames1 Hy _ IH]; simpl.
  - induction H2 as [|y frames2 Hy _ IH]; simpl; [by destruct (isTestFile x)|].
    unfold compareFrames. rewrite Hy. destruct (isTestFile x); simpl; [done|].
    by rewrite IH.
  - unfold compareFrames at 1. rewrite Hy. simpl.
    destruct (isTestFile x) eqn:Hx; simpl; rewrite IH, ?Hx; done.
Qed.

(** [frames.sort] with this comparator is a stable partition: the frames
    of test files first, the others after, each group in stack order. *)
Lemma sortFrames_partition frames :
  sortFrames frames
  = List.filter isTestFile frames ++ List.filter (fun f => negb (isTestFile f)) frames.
Proof.
  unfold sortFrames.
  assert (∀ frames sorted1 sorted2,
    Forall (fun f => isTestFile f = true) sorted1 →
    Forall (fun f => isTestFile f = false) sorted2 →
    fold_left (fun sorted x => insertFrame x sorted) frames (sorted1 ++ sorted2)
    = (sorted1 ++ List.filter isTestFile frames)
      ++ (sorted2 ++ List.filter (fun f => negb (isTestFile f)) frames)) as Hgen.
  { clear frames. induction frames as [|x frames IH]; intros sorted1 sorted2 H1 H2; simpl.
    - by rewrite !app_nil_r.
    - rewrite insertFrame_partition by done.
      destruct (isTestFile x) eqn:Hx; simpl.
      + rewrite IH; [by rewrite <- !app_assoc| |done].
        apply Forall_app. split; [done|]. by apply Forall_singleton.
      + rewrite IH; [by rewrite <- !app_assoc|done|].
        apply Forall_app. split; [done|]. by apply Forall_singleton. }
  apply (Hgen frames [] []); constructor.
Qed.

Lemma head_filter_find {A} (f : A → bool) (l : list A) :
  head (List.filter f l) = List.find f l.
Proof. induction l as [|a l IH]; simpl; [done|]. by destruct (f a). Qed.

Lemma find_none_filter {A} (f : A → bool) (l : list A) :
  List.find f l = None → List.filter f l = [] ∧ List.filter (fun a => negb (f a)) l = l.
Proof.
  induction l as [|a l IH]; simpl; [done|]. destruct (f a); [done|].
  intros [-> ->]%IH. done.
Qed.

Lemma sortFrames_head frames :
  head (sortFrames frames)
  = match List.find isTestFile frames with
    | Some frame => Some frame
    | None => head frames
    end.
Proof.
  rewrite sortFrames_partition.
  destruct (List.find isTestFile frames) as [frame|] eqn:Hfind.
  - rewrite <- head_filter_find in Hfind.
    destruct (List.filter isTestFile frames); by simplify_eq/=.
  - by destruct (find_none_filter _ _ Hfind) as [-> ->].
Qed.

(** Every frame the scan records carries the verdict of the test on its
    file. *)
Lemma scanFrameLine_isTestFile frames frameLine :
  Forall (fun frame =>
            isTestFile frame
            = includes (sf_file frame) "\test\" || includes (sf_file frame) "/test/"
              || endsWith (sf_file frame) ".test.ts") frames →
  Forall (fun frame =>
            isTestFile frame
            = includes (sf_file frame) "\test\" || includes (sf_file frame) "/test/"
              || endsWith (sf_file frame) ".test.ts") (scanFrameLine frames frameLine).
Proof.
  intros Hframes. unfold scanFrameLine.
  destruct (negb (startsWith frameLine "at ")); [done|].
  destruct (tryPatternIfNoFile _ _ _) as [[[file|] [line|]] [column|]]; try done.
  destruct (String.eqb file ""); [done|].
  apply Forall_app. split; [done|]. by apply Forall_singleton.
Qed.

Lemma scanned_isTestFile lines : ∀ frames,
  Forall (fun frame =>
            isTestFile frame
            = includes (sf_file frame) "\test\" || includes (sf_file frame) "/test/"
              || endsWith (sf_file frame) ".test.ts") frames →
  Forall (fun frame =>
            isTestFile frame
            = includes (sf_file frame) "\test\" || includes (sf_file frame) "/test/"
              || endsWith (sf_file frame) ".test.ts") (fold_left scanFrameLine lines frames).
Proof.
  induction lines as [|frameLine lines IH]; intros frames Hframes; simpl; [done|].
  by apply IH, scanFrameLine_isTestFile.
Qed.

Lemma find_ext_Forall {A} (f g : A → bool) (l : list A) :
  Forall (fun a => f a = g a) l → List.find f l = List.find g l.
Proof.
  induction 1 as [|a l Ha _ IH]; simpl; [done|]. rewrite Ha. by destruct (g a).
Qed.

(** X9.  For an error object, the location [parseError] reports is
    that of the first recognised frame whose file contains [\test\] or
    [/test/] or ends in [.test.ts], and of the first recognised frame
    when there is none; name, message and the trimmed lines of the stack
    are returned as they are. *)
Theorem parseError_reports_first_test_frame name message stack lines :
  stackLines stack = Normal lines →
  parseError (JsErrorObject name message stack)
  = Normal
      (let frames := fold_left scanFrameLine lines [] in
       let inTestFile frame :=
         includes (sf_file frame) "\test\" || includes (sf_file frame) "/test/"
         || endsWith (sf_file frame) ".test.ts" in
       let best :=
         match List.find inTestFile frames with
         | Some frame => Some frame
         | None => head frames
         end in
       mkSafeError (Some name) message (sf_file <$> best) (sf_line <$> best)
         (sf_column <$> best) (Some lines)).
Proof.
  intros Hlines.
  destruct (parseError_error_object name message stack lines Hlines)
    as (file & line & column & -> & Hbest).
  rewrite sortFrames_head in Hbest. simpl.
  rewrite <- (find_ext_Forall isTestFile); [|by apply scanned_isTestFile].
  destruct (match List.find isTestFile _ with Some _ => _ | None => _ end);
    by destruct Hbest as (-> & -> & ->).
Qed.

End BestFrame.

(** ** Invariants of a run *)

(** The steps of a visit, unfolded down to the state they leave. *)
Ltac step_by_step :=
  unfold Holds, runCollected, runTestCase, testStage, cleanupStage, afterAllPhase,
    bind, emit, logStep, now, awaitHooks, awaitTest, parse, pushResult, raiseBail,
    markExecuted, markRanBeforeAll, when, getState, ret;
  intros; repeat (case_match; simplify_eq/=); try done.

Section Invariants.
Context {W : Type} (perf_now : W → Z) (options : RunOptions W).
Context (I E : RunState W → Prop).
Implicit Types (anc chain : list (DescribeBlock W)) (block root : DescribeBlock W).
Implicit Types (id : BlockId) (st : RunState W).

Lemma Holds_ret {A} (a : A) : Holds I E (ret a : M W A).
Proof. by intros st r st' HI [= <- <-]. Qed.

Lemma Holds_bind {A B} (m : M W A) (f : A → M W B) :
  Holds I E m → (∀ a, Holds I E (f a)) → Holds I E (bind m f).
Proof.
  intros Hm Hf st r st' HI [(a & st1 & Hrun & Hrest)|(v & Hrun & ->)]%bind_inv.
  - eapply Hf; [|done]. by apply (Hm _ _ _ HI Hrun).
  - by apply (Hm _ _ _ HI Hrun).
Qed.

Lemma Holds_getState {B} (f : RunState W → M W B) :
  (∀ st, Holds I E (f st)) → Holds I E (bind getState f).
Proof. intros Hf. apply Holds_bind; [|done]. by intros st r st' HI [= <- <-]. Qed.

Lemma Holds_when (b : bool) (m : M W unit) : Holds I E m → Holds I E (when b m).
Proof. destruct b; [done|]. intros _. apply Holds_ret. Qed.

(** An invariant of the steps of a visit is an invariant of the run. *)
Hypothesis Hentry : ∀ id,
  Holds I E (bind (markExecuted id) (fun _ => logStep (Entered id))).
Hypothesis Hmark : ∀ a old,
  Holds I E (bind (logStep (SetRanBeforeAll a old)) (fun _ => markRanBeforeAll a)).
Hypothesis Hcollected : ∀ id lineage suitePath hooks,
  Holds I E (runCollected options id lineage suitePath hooks).
Hypothesis Htest : ∀ id i chain suitePath testCase,
  Holds I E (runTestCase perf_now options id i chain suitePath testCase).
Hypothesis Hafter : ∀ id block suitePath ok,
  Holds I E (afterAllPhase options id block suitePath ok).
Hypothesis Hbail : Holds I E (@raiseBail W).

Lemma Holds_markLoop (lineage : list (BlockId * DescribeBlock W)) : ∀ hooks,
  Holds I E (markLoop lineage hooks).
Proof.
  induction lineage as [|[a ancestor] lineage IH]; intros hooks; simpl;
    [apply Holds_ret|].
  apply Holds_getState. intros st0 st r st' HI Hrun.
  assert (Holds I E
    (bind (bind (logStep (SetRanBeforeAll a (bool_decide (a ∈ ranBeforeAll st0))))
             (fun _ => markRanBeforeAll a))
       (fun _ => markLoop lineage (hooks ++ beforeAllHooks ancestor)))) as Hall.
  { apply Holds_bind; [apply Hmark|]. intros _. apply IH. }
  by apply (Hall st r st' HI).
Qed.

Lemma Holds_beforeAllPhase id chain suitePath :
  Holds I E (beforeAllPhase options id chain suitePath).
Proof.
  unfold beforeAllPhase. apply Holds_getState. intros st.
  destruct (decide _); [apply Holds_ret|].
  apply Holds_bind; [apply Holds_markLoop|]. intros hooks. apply Hcollected.
Qed.
Lemma Holds_testLoop id chain suitePath tests : ∀ i,
  Holds I E (testLoop perf_now options id chain suitePath tests i).
Proof.
  induction tests as [|testCase tests IH]; intros i; simpl; [apply Holds_ret|].
  apply Holds_getState. intros st. destruct (globalBail st); [apply Holds_ret|].
  destruct (negb _); [apply IH|].
  apply Holds_bind; [apply Htest|]. intros []; [apply Holds_ret|apply IH].
Qed.

Lemma Holds_childLoop (run : nat → DescribeBlock W → M W bool) cs :
  Forall (fun c => ∀ i, Holds I E (run i c)) cs →
  ∀ i, Holds I E (childLoop run cs i).
Proof.
  induction 1 as [|c cs Hc _ IH]; intros i; simpl; [apply Holds_ret|].
  apply Holds_getState. intros st. destruct (globalBail st); [apply Holds_ret|].
  apply Holds_bind; [apply Hc|]. intros []; simpl; [apply IH|apply Hbail].
Qed.

Lemma Holds_runDescribeBlock block : ∀ anc id,
  Holds I E (runDescribeBlock perf_now options anc id block).
Proof.
  induction block as [n cs ts h1 h2 h3 h4 IH] using DescribeBlock_rect_nested.
  intros anc id. rewrite runDescribeBlock_eq.
  set (block := mkDescribeBlock n cs ts h1 h2 h3 h4) in *.
  apply Holds_getState. intros st. destruct (globalBail st); [apply Holds_ret|].
  intros st0 r st0' HI Hrun.
  assert (Holds I E
    (bind (bind (markExecuted id) (fun _ => logStep (Entered id))) (fun _ =>
     bind (beforeAllPhase options id (block :: anc) (getSuitePath (block :: anc)))
       (fun beforeAllSuccess =>
     bind getState (fun st1 =>
     bind (when (beforeAllSuccess && negb (globalBail st1))
             (testLoop perf_now options id (block :: anc)
                (getSuitePath (block :: anc)) (tests block) 0)) (fun _ =>
     bind getState (fun st2 =>
     bind (when (beforeAllSuccess && negb (globalBail st2))
             (childLoop
                (fun i child =>
                   runDescribeBlock perf_now options (block :: anc) (i :: id) child)
                (children block) 0)) (fun _ =>
     bind (afterAllPhase options id block (getSuitePath (block :: anc))
             beforeAllSuccess) (fun early =>
     match early with
     | Some r => ret r
     | None => bind getState (fun st3 => ret (negb (globalBail st3)))
     end))))))))) as Hall.
  { apply Holds_bind; [apply Hentry|]. intros _.
    apply Holds_bind; [apply Holds_beforeAllPhase|]. intros ok.
    apply Holds_getState. intros st1.
    apply Holds_bind; [apply Holds_when, Holds_testLoop|]. intros _.
    apply Holds_getState. intros st2.
    apply Holds_bind.
    { apply Holds_when, Holds_childLoop. simpl.
      eapply Forall_impl; [exact IH|]. intros c Hc i. apply Hc. }
    intros _. apply Holds_bind; [apply Hafter|].
    intros [r0|]; [apply Holds_ret|]. apply Holds_getState. intros st3. apply Holds_ret. }
  by apply (Hall st0 r st0' HI).
Qed.

Lemma Holds_topLoop root tops : ∀ i,
  Holds I E (topLoop perf_now options root tops i).
Proof.
  induction tops as [|top tops IH]; intros i; simpl; [apply Holds_ret|].
  apply Holds_bind; [apply Holds_runDescribeBlock|]. intros _.
  apply Holds_getState. intros st. destruct (globalBail st); [apply Holds_ret|apply IH].
Qed.

End Invariants.

(** *** The results of a run *)

Section Results.
Context {W : Type} (perf_now : W → Z) (options : RunOptions W).
Implicit Types (root : DescribeBlock W) (flags : gset BlockId * gset BlockId) (w : W).



(** A run is the loop over the top-level blocks, then the [complete]
    event. *)
Lemma runTests_topLoop root flags w :
  let st0 := mkRunState w [] [] false (resetExecutionState [] root flags).1
               (resetExecutionState [] root flags).2 [] in
  match topLoop perf_now options root (children root) 0 st0 with
  | (Normal _, st1) =>
      runTests perf_now options root flags w
      = (match (emit options (EvComplete (results st1)) st1).1 with
         | Normal _ => Normal (results st1)
         | Abrupt v => Abrupt v
         end,
         (emit options (EvComplete (results st1)) st1).2)
  | (Abrupt v, st1) => runTests perf_now options root flags w = (Abrupt v, st1)
  end.
Proof.
  simpl. destruct (topLoop _ _ _ _ _ _) as [[[]|v] st1] eqn:Htop;
    unfold runTests; unfold bind at 1; rewrite Htop; [|done].
  unfold bind, getState, ret. simpl.
  by destruct (emit options (EvComplete (results st1)) st1) as [[[]|v] st2].
Qed.


End Results.

Section Events.
Context {W : Type} (perf_now : W → Z) (options : RunOptions W).
Implicit Types (root : DescribeBlock W) (flags : gset BlockId * gset BlockId) (w : W).




(** *** Failures and the exit code *)

Lemma FailuresCounted_topLoop root i :
  Holds FailuresCounted (fun _ => True)
    (topLoop perf_now options root (children root) i).
Proof.
  unfold FailuresCounted. apply Holds_topLoop.
  all: step_by_step.
  all: rewrite ?List.filter_app, ?length_app in *; simpl in *; lia.
Qed.

Lemma filter_nil_Forall {A} (f : A → bool) (l : list A) :
  length (List.filter f l) = 0%nat ↔ Forall (fun x => f x = false) l.
Proof.
  induction l as [|x l IH]; simpl; [by split; [constructor|]|].
  destruct (f x) eqn:Hx; simpl.
  - split; [done|]. intros [Hx' _]%Forall_cons. congruence.
  - rewrite IH. split; [by constructor|]. by intros [_ ?]%Forall_cons.
Qed.

(** X13.  The process exits with 0 exactly when [runTests] is
    fulfilled and no test, before-all phase or after-all phase has
    failed. *)
Theorem exit_code_zero root flags w :
  exitCode (runTests perf_now options root flags w).1 = 0 ↔
  (∃ rs, (runTests perf_now options root flags w).1 = Normal rs) ∧
  Forall (fun s => isFailureStep s = false)
    (history (runTests perf_now options root flags w).2).
Proof.
  pose proof (runTests_topLoop perf_now options root flags w) as Hrun. simpl in Hrun.
  pose proof (runTests_shape perf_now options root flags w) as (_ & Hns & _).
  pose proof (FailuresCounted_topLoop root 0) as Hinv.
  revert Hns.
  destruct (topLoop _ _ _ _ _ _) as [[[]|v] st1] eqn:Htop;
    eapply Hinv in Htop; try done; rewrite Hrun; simpl.
  2:{ intros _. split; [done|]. by intros [[rs ?] _]. }
  destruct (emit_fields options (EvComplete (results st1)) st1) as (-> & -> & _).
  intros Hns.
  destruct (emit options (EvComplete (results st1)) st1).1 as [[]|thrown]; simpl.
  2:{ split; [done|]. by intros [[rs ?] _]. } rewrite <- filter_nil_Forall. unfold FailuresCounted in Htop.
  rewrite Htop, filter_nil_Forall.
  assert (forallb isPassed (results st1) = true
          ↔ Forall (λ x, isFailed x = false) (results st1)) as Hiff.
  { rewrite forallb_forall, Forall_forall. rewrite Forall_forall in Hns.
    split; intros H r Hr.
    - apply list_elem_of_In, H in Hr. unfold isPassed, isFailed in *.
      by destruct (tr_status r).
    - apply list_elem_of_In in Hr. specialize (H r Hr). specialize (Hns r Hr).
      unfold isPassed, isFailed, notSkipped in *. by destruct (tr_status r). }
  split.
  - intros Hcode. split; [eauto|]. apply Hiff.
    by destruct (forallb isPassed (results st1)).
  - intros [_ Hok]. apply Hiff in Hok. by rewrite Hok.
Qed.

End Events.

(** ** Positions and blocks *)

Section Positions.
Context {W : Type}.
Implicit Types (anc : list (DescribeBlock W)) (b c root : DescribeBlock W).
Implicit Types (id n : BlockId) (path : list nat).

Lemma blockAt_Node path : ∀ anc id b c,
  blockAt path b = Some c → ∃ anc', Node anc id b anc' (rev path ++ id) c.
Proof.
  induction path as [|i path IH]; intros anc id b c Hc; simpl in *.
  - simplify_eq. exists anc. constructor.
  - destruct (children b !! i) as [d|] eqn:Hd; [|done].
    destruct (IH (b :: anc) (i :: id) d c Hc) as [anc' Hnode].
    exists anc'. rewrite <- app_assoc. by eapply node_child.
Qed.

Lemma Node_blockAt anc id b anc' id' b' :
  Node anc id b anc' id' b' → ∃ l, id' = l ++ id ∧ blockAt (rev l) b = Some b'.
Proof.
  induction 1 as [anc id b|anc id b k c anc' id' b' Hk _ (l & -> & IH)].
  - by exists [].
  - exists (l ++ [k]). split; [by rewrite <- app_assoc|].
    rewrite rev_app_distr. simpl. by rewrite Hk.
Qed.

Lemma blockAt_prefix path1 path2 b c :
  blockAt (path1 ++ path2) b = Some c → is_Some (blockAt path1 b).
Proof.
  revert b. induction path1 as [|i path1 IH]; intros b; simpl; [eauto|].
  destruct (children b !! i); [apply IH|done].
Qed.

(** The positions above a block of the tree are blocks of the tree. *)
Lemma Node_suffix root anc id b n :
  Node [] [] root anc id b → suffix n id → ∃ anc' b', Node [] [] root anc' n b'.
Proof.
  intros (l & -> & Hb)%Node_blockAt [m Hm]. rewrite app_nil_r in Hm. subst l.
  rewrite rev_app_distr in Hb. apply blockAt_prefix in Hb as [c Hc].
  destruct (blockAt_Node _ [] [] _ _ Hc) as [anc' Hnode].
  rewrite app_nil_r, rev_involutive in Hnode. eauto.
Qed.

End Positions.

(** ** Running again *)

Section Rerun.
Context {W : Type} (perf_now : W → Z).
Implicit Types (anc : list (DescribeBlock W)) (block root : DescribeBlock W).
Implicit Types (id n : BlockId) (flags : gset BlockId * gset BlockId) (w : W).
Implicit Types (options : RunOptions W).

Lemma forEachChild_reset_executed id cs : ∀ i flags,
  Forall (fun c => ∀ id flags,
            (resetExecutionState id c flags).2 ⊆ flags.2 ∧
            ∀ anc anc' n block',
              Node anc id c anc' n block' → n ∉ (resetExecutionState id c flags).2) cs →
  let flags' :=
    forEachChild (fun i child => resetExecutionState (i :: id) child) cs i flags in
  flags'.2 ⊆ flags.2 ∧
  ∀ k c, cs !! k = Some c →
    ∀ anc anc' n block', Node anc ((i + k)%nat :: id) c anc' n block' → n ∉ flags'.2.
Proof.
  induction cs as [|c cs IH]; intros i flags Hcs; simpl.
  - split; [done|]. intros k c Hk. by rewrite lookup_nil in Hk.
  - apply Forall_cons in Hcs as [Hc Hcs].
    destruct (Hc (i :: id) flags) as [Hsub1 Hclear1].
    destruct (IH (S i) (resetExecutionState (i :: id) c flags) Hcs) as [Hsub2 Hclear2].
    split; [set_solver|].
    intros [|k] c' Hk anc anc' n block' Hnode; simpl in Hk.
    + injection Hk as <-. rewrite Nat.add_0_r in Hnode.
      intros Hn. eapply Hclear1; [done|]. by apply Hsub2.
    + rewrite Nat.add_succ_r in Hnode. by eapply Hclear2.
Qed.

Lemma reset_clears_executed block : ∀ id flags,
  (resetExecutionState id block flags).2 ⊆ flags.2 ∧
  ∀ anc anc' n block',
    Node anc id block anc' n block' → n ∉ (resetExecutionState id block flags).2.
Proof.
  induction block as [nm cs ts h1 h2 h3 h4 IH] using DescribeBlock_rect_nested.
  intros id flags. simpl.
  destruct (forEachChild_reset_executed id cs 0 (flags.1 ∖ {[id]}, flags.2 ∖ {[id]}) IH)
    as [Hsub Hclear].
  simpl in Hsub. split; [set_solver|].
  intros anc anc' n block' Hnode.
  inversion Hnode as [|? ? ? k c ? ? ? Hk Hsubnode]; subst.
  - set_solver.
  - by eapply (Hclear k c).
Qed.

(** Flags that belong to blocks of the tree are all cleared. *)
Lemma reset_of_tree_flags root flags :
  (∀ n, n ∈ flags.1 ∨ n ∈ flags.2 → ∃ anc b, Node [] [] root anc n b) →
  resetExecutionState [] root flags = (∅, ∅).
Proof.
  intros Hflags.
  destruct (reset_clears root [] flags) as [Hsub1 Hclear1].
  destruct (reset_clears_executed root [] flags) as [Hsub2 Hclear2].
  destruct (resetExecutionState [] root flags) as [ran exe] eqn:Hreset.
  simpl in *. f_equal; apply leibniz_equiv, elem_of_equiv_empty; intros n Hn.
  - destruct (Hflags n) as (anc & b & Hnode); [left; by apply Hsub1|].
    by eapply Hclear1.
  - destruct (Hflags n) as (anc & b & Hnode); [right; by apply Hsub2|].
    by eapply Hclear2.
Qed.

Lemma runTests_tree_flags options root flags w :
  (∀ n, n ∈ flags.1 ∨ n ∈ flags.2 → ∃ anc b, Node [] [] root anc n b) →
  runTests perf_now options root flags w = runTests perf_now options root (∅, ∅) w.
Proof.
  intros Hflags. unfold runTests. rewrite (reset_of_tree_flags root flags Hflags).
  rewrite (reset_of_tree_flags root (∅, ∅)); [done|]. simpl. set_solver.
Qed.

Lemma ExecutedEntered_topLoop options root i :
  Holds ExecutedEntered ExecutedEntered
    (topLoop perf_now options root (children root) i).
Proof.
  unfold ExecutedEntered. apply Holds_topLoop.
  all: step_by_step.
  all: intros n Hn; rewrite ?elem_of_app; try set_solver.
  all: repeat left; eauto.
Qed.

(** X14.  A second run on the same registry starts afresh: the flags
    the first run leaves on the blocks have no effect on it. *)
Theorem second_run_starts_afresh options1 options2 root w1 w2 :
  runTests perf_now options2 root
    (ranBeforeAll (runTests perf_now options1 root (∅, ∅) w1).2,
     executed (runTests perf_now options1 root (∅, ∅) w1).2) w2
  = runTests perf_now options2 root (∅, ∅) w2.
Proof.
  apply runTests_tree_flags. simpl.
  pose proof (runTests_valid perf_now options1 root (∅, ∅) w1) as Hvalid.
  rewrite Forall_forall in Hvalid.
  intros n [Hn|Hn].
  - destruct (runTests_flags perf_now options1 root (∅, ∅) w1)
      as (_ & _ & _ & _ & _ & Hset & _ & Hentered).
    destruct (Hset n Hn) as [Hstale|Hmarked].
    + rewrite (reset_of_tree_flags root (∅, ∅)) in Hstale; [|simpl; set_solver].
      set_solver.
    + destruct (Hentered _ _ Hmarked) as (b & Hb & Hsuf).
      destruct (Hvalid _ Hb) as (anc & block & Hnode).
      by eapply Node_suffix.
  - pose proof (runTests_topLoop perf_now options1 root (∅, ∅) w1) as Hrun.
    simpl in Hrun.
    pose proof (ExecutedEntered_topLoop options1 root 0) as Hinv.
    destruct (topLoop _ _ _ _ _ _) as [[[]|v] st1] eqn:Htop;
      eapply Hinv in Htop.
    + rewrite Hrun in Hn, Hvalid. simpl in *.
      assert (executed (emit options1 (EvComplete (results st1)) st1).2 = executed st1
        ∧ history (emit options1 (EvComplete (results st1)) st1).2 = history st1)
        as [He Hh].
      { by destruct (emit_fields options1 (EvComplete (results st1)) st1)
          as (_ & -> & _ & _ & ->). }
      rewrite He in Hn. rewrite Hh in Hvalid.
      by destruct (Hvalid _ (Htop n Hn)) as (anc & block & Hnode); eauto.
    + intros n'. rewrite (reset_of_tree_flags root (∅, ∅)); [|simpl; set_solver].
      simpl. set_solver.
    + rewrite Hrun in Hn, Hvalid. simpl in *.
      by destruct (Hvalid _ (Htop n Hn)) as (anc & block & Hnode); eauto.
    + intros n'. rewrite (reset_of_tree_flags root (∅, ∅)); [|simpl; set_solver].
      simpl. set_solver.
Qed.

End Rerun.

(** ** The list of tests *)

Section Listing.
Context {W : Type}.
Implicit Types (anc chain : list (DescribeBlock W)) (block root : DescribeBlock W).
Implicit Types (id : BlockId) (found : list TestMeta) (m : TestMeta).

Lemma forEachChild_traverse chain id cs : ∀ i found m,
  Forall (fun c => ∀ id found m,
            m ∈ traverse chain c found ↔ m ∈ found ∨ Listed chain id c m) cs →
  m ∈ forEachChild (fun _ child => traverse chain child) cs i found
  ↔ m ∈ found ∨ ∃ k c, cs !! k = Some c ∧ Listed chain ((i + k)%nat :: id) c m.
Proof.
  induction cs as [|c cs IH]; intros i found m Hcs; simpl.
  - split; [by left|]. intros [?|(k & c & Hk & _)]; [done|].
    by rewrite lookup_nil in Hk.
  - apply Forall_cons in Hcs as [Hc Hcs]. rewrite (IH _ _ _ Hcs), (Hc (i :: id)).
    split.
    + intros [[?|Hm]|(k & c' & Hk & Hm)]; [by left| |].
      * right. exists 0%nat, c. by rewrite Nat.add_0_r.
      * right. exists (S k), c'. by rewrite Nat.add_succ_r.
    + intros [?|([|k] & c' & Hk & Hm)]; [by left; left| |]; simpl in Hk.
      * simplify_eq. rewrite Nat.add_0_r in Hm. by left; right.
      * right. exists k, c'. by rewrite Nat.add_succ_r in Hm.
Qed.

Lemma traverse_spec block : ∀ anc id found m,
  m ∈ traverse anc block found ↔ m ∈ found ∨ Listed anc id block m.
Proof.
  induction block as [nm cs ts h1 h2 h3 h4 IH] using DescribeBlock_rect_nested.
  intros anc id found m.
  set (block := mkDescribeBlock nm cs ts h1 h2 h3 h4) in *.
  change (traverse anc block found)
    with (forEachChild (fun _ child => traverse (block :: anc) child) cs 0
            (if String.eqb (getSuitePath (block :: anc)) ""
             then found
             else found ++ map (fun test => mkTestMeta (getSuitePath (block :: anc))
                                              (tc_name test)) ts)).
  rewrite (forEachChild_traverse (block :: anc) id cs 0).
  2:{ eapply Forall_impl; [exact IH|]. intros c Hc id' found' m'. apply Hc. }
  split.
  - intros [Hm|(k & c & Hk & anc' & id' & b' & t & Hnode & Ht & Hpath & ->)].
    + destruct (String.eqb_spec (getSuitePath (block :: anc)) "") as [Hroot|Hsuite];
        [by left|].
      apply elem_of_app in Hm as [?|Hm]; [by left|]. right.
      apply list_elem_of_In, in_map_iff in Hm as (t & <- & Ht).
      exists anc, id, block, t. split; [constructor|].
      split; [by apply list_elem_of_In|done].
    + right. exists anc', id', b', t. split; [|done]. by eapply node_child.
  - intros [Hm|(anc' & id' & b' & t & Hnode & Ht & Hpath & ->)].
    + left. destruct (String.eqb _ _); [done|]. apply elem_of_app. by left.
    + inversion Hnode as [|? ? ? k c ? ? ? Hk Hsub]; subst.
      * left. destruct (String.eqb_spec (getSuitePath (block :: anc')) ""); [done|].
        apply elem_of_app. right. apply list_elem_of_In, in_map_iff.
        exists t. split; [done|]. by apply list_elem_of_In.
      * right. exists k, c. split; [done|]. by exists anc', id', b', t.
Qed.

(** X15.  [getTestList] lists exactly the tests of the blocks of the
    tree whose suite path is not empty, each under the suite path of its
    block: the tests of the root are never listed. *)
Theorem getTestList_lists_suite_tests root m :
  m ∈ getTestList root ↔
  ∃ anc id b t,
    Node [] [] root anc id b ∧ t ∈ tests b ∧
    getSuitePath (b :: anc) ≠ ""%string ∧
    m = mkTestMeta (getSuitePath (b :: anc)) (tc_name t).
Proof.
  unfold getTestList. rewrite (traverse_spec root [] []).
  split; [|by right]. intros [Hm|Hm]; [|done]. by apply elem_of_nil in Hm.
Qed.

End Listing.

(** ** Without [bail] *)

Section NoBail.
Context {W : Type} (perf_now : W → Z) (options : RunOptions W).
Hypothesis Hnobail : opt_bail options = false.
Implicit Types (anc chain : list (DescribeBlock W)) (block root : DescribeBlock W).
Implicit Types (id : BlockId) (st : RunState W) (d : list Step).

Lemma Grown_refl st : Grown st st.
Proof. split; [done|]. exists []. by rewrite app_nil_r. Qed.

Lemma Grown_trans st0 st1 st2 : Grown st0 st1 → Grown st1 st2 → Grown st0 st2.
Proof.
  intros [Hb1 [d1 Hh1]] [Hb2 [d2 Hh2]]. split; [congruence|].
  exists (d1 ++ d2). by rewrite Hh2, Hh1, app_assoc.
Qed.

Lemma runTestCase_no_bail id i chain suitePath testCase st stop st' :
  runTestCase perf_now options id i chain suitePath testCase st = (Normal stop, st') →
  stop = false ∧ globalBail st' = globalBail st ∧
  ∃ d, history st' = history st ++ d ∧ TestStarted id i ∈ d ∧
       (TestFinished id i passed ∈ d ∨ TestFinished id i failed ∈ d).
Proof.
  step_by_step; (split; [done|]); (split; [done|]);
    rewrite <- ?app_assoc; simpl; eexists; (split; [done|]);
    rewrite ?elem_of_cons; eauto 10.
Qed.

Lemma testLoop_no_bail id chain suitePath tests : ∀ i st st',
  globalBail st = false →
  testLoop perf_now options id chain suitePath tests i st = (Normal tt, st') →
  globalBail st' = false ∧
  ∃ d, history st' = history st ++ d ∧
       ∀ k t, tests !! k = Some t →
         shouldRun options suitePath (tc_name t) = true →
         TestStarted id (i + k) ∈ d ∧
         (TestFinished id (i + k) passed ∈ d ∨ TestFinished id (i + k) failed ∈ d).
Proof.
  induction tests as [|testCase tests IH]; intros i st st' Hbail; simpl.
  - intros [= <-]. split; [done|]. exists []. rewrite app_nil_r.
    split; [done|]. intros k t Hk. by rewrite lookup_nil in Hk.
  - unfold bind at 1. simpl. rewrite Hbail.
    destruct (shouldRun options suitePath (tc_name testCase)) eqn:Hrun; simpl.
    + intros [(stop & st1 & Htest & Hrest)|(v & _ & ?)]%bind_inv; [|done].
      apply runTestCase_no_bail in Htest as (-> & Hb1 & d1 & Hh1 & Hs1 & Hf1).
      apply IH in Hrest as (Hb' & d2 & Hh2 & Hall); [|congruence].
      split; [done|]. exists (d1 ++ d2). split; [by rewrite Hh2, Hh1, app_assoc|].
      intros [|k] t Hk Ht; simpl in Hk.
      * simplify_eq. rewrite Nat.add_0_r, !elem_of_app. tauto.
      * destruct (Hall k t Hk Ht) as [Hs Hf].
        rewrite Nat.add_succ_r, !elem_of_app. tauto.
    + intros (Hb' & d & Hh & Hall)%IH; [|done]. split; [done|].
      exists d. split; [done|]. intros [|k] t Hk Ht; simpl in Hk.
      * simplify_eq. congruence.
      * rewrite Nat.add_succ_r. by apply (Hall k t).
Qed.

Lemma beforeAllPhase_no_bail id chain suitePath st ok st' :
  beforeAllPhase options id chain suitePath st = (Normal ok, st') →
  globalBail st' = globalBail st ∧
  ∃ d, history st' = history st ++ d ∧ (ok = false → BeforeAllFailed id ∈ d).
Proof.
  unfold beforeAllPhase. unfold bind at 1. simpl.
  destruct (decide _).
  { intros [= <- <-]. split; [done|]. exists []. by rewrite app_nil_r. }
  intros [(hooks & st1 & Hmark & Hrun)|(v & _ & ?)]%bind_inv; [|done].
  assert (Grown st st1) as [Hb1 [d1 Hh1]].
  { assert (Holds (Grown st) (Grown st)
              (markLoop (lineageLoop (ranBeforeAll st) id chain []) [])) as Hm.
    { apply Holds_markLoop.
      intros a old st2 r st2' [Hb [d Hh]] [= <- <-]. split; [done|].
      exists (d ++ [SetRanBeforeAll a old]). simpl. by rewrite Hh, app_assoc. }
    apply (Hm _ _ _ (Grown_refl st) Hmark). }
  revert Hrun. step_by_step; (split; [done|]); rewrite Hh1, <- ?app_assoc;
    eexists; (split; [done|]); try done; intros _; set_solver.
Qed.

Lemma afterAllPhase_no_bail id block suitePath ok st early st' :
  afterAllPhase options id block suitePath ok st = (Normal early, st') →
  early = None ∧ Grown st st'.
Proof.
  step_by_step; (split; [done|]); (split; [done|]); simpl;
    rewrite <- ?app_assoc; eauto using app_nil_r.
  all: eexists; by rewrite app_nil_r.
Qed.

Lemma childLoop_no_bail chain id cs : ∀ i st st',
  Forall (fun c => ∀ i st b st',
            globalBail st = false →
            runDescribeBlock perf_now options chain (i :: id) c st = (Normal b, st') →
            b = true ∧ globalBail st' = false ∧
            ∃ d, history st' = history st ++ d ∧ Covered options chain (i :: id) c d) cs →
  globalBail st = false →
  childLoop (fun i child => runDescribeBlock perf_now options chain (i :: id) child)
    cs i st = (Normal tt, st') →
  globalBail st' = false ∧
  ∃ d, history st' = history st ++ d ∧
       ∀ k c, cs !! k = Some c →
         ∃ dk, (∀ s, s ∈ dk → s ∈ d) ∧ Covered options chain ((i + k)%nat :: id) c dk.
Proof.
  induction cs as [|c cs IH]; intros i st st' Hcs Hbail; simpl.
  - intros [= <-]. split; [done|]. exists []. rewrite app_nil_r.
    split; [done|]. intros k c Hk. by rewrite lookup_nil in Hk.
  - apply Forall_cons in Hcs as [Hc Hcs]. unfold bind at 1. simpl. rewrite Hbail.
    intros [(b & st1 & Hrun & Hrest)|(v & _ & ?)]%bind_inv; [|done].
    apply Hc in Hrun as (-> & Hb1 & d1 & Hh1 & Hcov1); [|done]. simpl in Hrest.
    apply IH in Hrest as (Hb' & d2 & Hh2 & Hall); [|done..].
    split; [done|]. exists (d1 ++ d2). split; [by rewrite Hh2, Hh1, app_assoc|].
    intros [|k] c' Hk; simpl in Hk.
    + simplify_eq. exists d1. rewrite Nat.add_0_r. split; [|done].
      intros s Hs. apply elem_of_app. by left.
    + destruct (Hall k c' Hk) as (dk & Hsub & Hcov). exists dk.
      rewrite Nat.add_succ_r. split; [|done].
      intros s Hs. apply elem_of_app. right. by apply Hsub.
Qed.

Lemma Covered_mono anc id block dk d :
  Covered options anc id block dk → (∀ s, s ∈ dk → s ∈ d) →
  Covered options anc id block d.
Proof.
  intros Hcov Hsub anc' id' b' Hnode Hlive.
  destruct (Hcov anc' id' b' Hnode) as [Hentered Htests].
  { intros a H1 H2 H3 Hin. by eapply Hlive, Hsub. }
  split; [by apply Hsub|]. intros Hok i t Hi Ht.
  destruct (Htests (fun Hin => Hok (Hsub _ Hin)) i t Hi Ht) as [Hs Hf].
  split; [by apply Hsub|]. destruct Hf; [left|right]; by apply Hsub.
Qed.

(** A visit cut off by its own before-all phase covers what it has to. *)
Lemma Covered_stopped anc id block d :
  Entered id ∈ d → BeforeAllFailed id ∈ d → Covered options anc id block d.
Proof.
  intros Hentered Hfailed anc' id' b' Hnode Hlive.
  destruct (Node_path _ _ _ _ _ _ Hnode) as ([|x l] & -> & _); simpl.
  - split; [done|]. by intros [].
  - destruct (Hlive id); [by exists (x :: l)|done| |done].
    intros Heq. apply (f_equal length) in Heq. simpl in Heq.
    rewrite length_app in Heq. lia.
Qed.

Lemma visit_no_bail block : ∀ anc id st b st',
  globalBail st = false →
  runDescribeBlock perf_now options anc id block st = (Normal b, st') →
  b = true ∧ globalBail st' = false ∧
  ∃ d, history st' = history st ++ d ∧ Covered options anc id block d.
Proof.
  induction block as [n cs ts h1 h2 h3 h4 IH] using DescribeBlock_rect_nested.
  intros anc id st b st' Hbail. rewrite runDescribeBlock_eq.
  set (block := mkDescribeBlock n cs ts h1 h2 h3 h4) in *.
  unfold bind at 1. simpl. rewrite Hbail.
  unfold bind at 1. simpl. unfold bind at 1. simpl.
  set (st_e := mkRunState _ _ _ _ _ _ _).
  intros [(ok & st_b & Hbefore & Hrest)|(v & _ & ?)]%bind_inv; [|done].
  apply beforeAllPhase_no_bail in Hbefore as (Hb_b & d_b & Hh_b & Hfailed).
  simpl in Hb_b, Hh_b. rewrite Hbail in Hb_b.
  revert Hrest. unfold bind at 1. simpl. rewrite Hb_b.
  destruct ok; simpl.
  2:{ unfold bind at 1. simpl. unfold bind at 1. simpl.
      unfold bind at 1. simpl. unfold bind at 1.
      rewrite afterAllPhase_skipped. unfold bind, getState, ret. simpl.
      rewrite Hb_b. intros [= <- <-]. split; [done|]. split; [done|].
      exists (Entered id :: d_b). split; [by rewrite Hh_b, <- app_assoc|].
      apply Covered_stopped; [by left|]. right. by apply Hfailed. }
  intros [([] & st_t & Htests & Hrest)|(v & _ & ?)]%bind_inv; [|done].
  destruct (testLoop_no_bail _ _ _ _ _ _ _ Hb_b Htests)
    as (Hb_t & d_t & Hh_t & Hstarted).
  revert Hrest. unfold bind at 1. simpl. rewrite Hb_t. simpl.
  intros [([] & st_c & Hchildren & Hrest)|(v & _ & ?)]%bind_inv; [|done].
  assert (Forall (fun c => ∀ i st b st',
            globalBail st = false →
            runDescribeBlock perf_now options (block :: anc) (i :: id) c st
            = (Normal b, st') →
            b = true ∧ globalBail st' = false ∧
            ∃ d, history st' = history st ++ d
                 ∧ Covered options (block :: anc) (i :: id) c d) cs) as IH'.
  { eapply Forall_impl; [exact IH|]. intros c Hc i st0 b0 st0'. apply Hc. }
  destruct (childLoop_no_bail _ _ _ _ _ _ IH' Hb_t Hchildren)
    as (Hb_c & d_c & Hh_c & Hvisited).
  apply bind_inv in Hrest as [(early & st_a & Hafter & Hrest)|(v & _ & ?)]; [|done].
  apply afterAllPhase_no_bail in Hafter as (-> & Hb_a & d_a & Hh_a).
  revert Hrest. unfold bind, getState, ret. simpl. rewrite Hb_a, Hb_c.
  intros [= <- <-]. split; [done|]. split; [congruence|].
  exists (Entered id :: d_b ++ d_t ++ d_c ++ d_a). split.
  { rewrite Hh_a, Hh_c, Hh_t, Hh_b. simpl. by rewrite <- !app_assoc. }
  intros anc' id' b' Hnode Hlive.
  inversion Hnode as [Ha Hi Hblock|? ? ? k c ? ? ? Hk Hsub].
  - replace b' with block in * by congruence. replace anc' with anc in * by congruence.
    replace id' with id in * by congruence.
    split; [by left|]. intros _ i t Hi' Ht.
    destruct (Hstarted i t Hi' Ht) as [Hs Hf]. simpl in Hs, Hf.
    rewrite !elem_of_cons, !elem_of_app. tauto.
  - destruct (Hvisited k c Hk) as (dk & Hsubk & Hcov).
    assert (Covered options (block :: anc) (k :: id) c
              (Entered id :: d_b ++ d_t ++ d_c ++ d_a)) as Hcov'.
    { eapply Covered_mono; [exact Hcov|]. intros s Hs.
      rewrite elem_of_cons, !elem_of_app. right. right. right. left.
      by apply Hsubk. }
    apply (Hcov' anc' id' b' Hsub). intros a H1' H2' H3'.
    apply Hlive; [done| |done]. by eapply suffix_cons_l.
Qed.

Lemma topLoop_no_bail root tops : ∀ i st st',
  globalBail st = false →
  topLoop perf_now options root tops i st = (Normal tt, st') →
  ∃ d, history st' = history st ++ d ∧
       ∀ k c, tops !! k = Some c →
         ∃ dk, (∀ s, s ∈ dk → s ∈ d) ∧ Covered options [root] [(i + k)%nat] c dk.
Proof.
  induction tops as [|top tops IH]; intros i st st' Hbail; simpl.
  - intros [= <-]. exists []. rewrite app_nil_r.
    split; [done|]. intros k c Hk. by rewrite lookup_nil in Hk.
  - intros [(b & st1 & Hrun & Hrest)|(v & _ & ?)]%bind_inv; [|done].
    apply visit_no_bail in Hrun as (-> & Hb1 & d1 & Hh1 & Hcov1); [|done].
    revert Hrest. unfold bind at 1. simpl. rewrite Hb1.
    intros (d2 & Hh2 & Hall)%IH; [|done].
    exists (d1 ++ d2). split; [by rewrite Hh2, Hh1, app_assoc|].
    intros [|k] c Hk; simpl in Hk.
    + simplify_eq. exists d1. rewrite Nat.add_0_r. split; [|done].
      intros s Hs. apply elem_of_app. by left.
    + destruct (Hall k c Hk) as (dk & Hsub & Hcov). exists dk.
      rewrite Nat.add_succ_r. split; [|done].
      intros s Hs. apply elem_of_app. right. by apply Hsub.
Qed.

(** X16.  Without [bail], a fulfilled run has entered every suite of
    the tree that no failed before-all phase of an ancestor cuts off,
    and, unless the before-all phase of the suite itself failed, has
    started and finished every test of the suite that the options
    accept. *)
Theorem without_bail_every_test_runs root flags w rs anc id b :
  (runTests perf_now options root flags w).1 = Normal rs →
  Node [] [] root anc id b →
  id ≠ [] →
  (∀ a, suffix a id → a ≠ id →
     BeforeAllFailed a ∉ history (runTests perf_now options root flags w).2) →
  Entered id ∈ history (runTests perf_now options root flags w).2 ∧
  (BeforeAllFailed id ∉ history (runTests perf_now options root flags w).2 →
   ∀ i t, tests b !! i = Some t →
     shouldRun options (getSuitePath (b :: anc)) (tc_name t) = true →
     TestStarted id i ∈ history (runTests perf_now options root flags w).2 ∧
     (TestFinished id i passed ∈ history (runTests perf_now options root flags w).2
      ∨ TestFinished id i failed ∈ history (runTests perf_now options root flags w).2)).
Proof.
  intros Hnormal Hnode Hid.
  inversion Hnode as [|? ? ? k c ? ? ? Hk Hsub]; [congruence|]. subst.
  revert Hnormal.
  pose proof (runTests_topLoop perf_now options root flags w) as Hrun. simpl in Hrun.
  destruct (topLoop _ _ _ _ _ _) as [[[]|v] st1] eqn:Htop; rewrite Hrun; [|done].
  simpl. intros _.
  assert (history (emit options (EvComplete (results st1)) st1).2 = history st1) as ->.
  { by destruct (emit_fields options (EvComplete (results st1)) st1) as (_ & -> & _). }
  apply topLoop_no_bail in Htop as (d & Hh & Hall); [|done]. simpl in Hh.
  rewrite Hh. intros Hlive.
  destruct (Hall k c Hk) as (dk & Hsubk & Hcov). simpl in Hcov.
  eapply (Covered_mono _ _ _ _ d Hcov Hsubk); [done|].
  intros a H1 H2 H3. by apply Hlive.
Qed.

End NoBail.

(** ** Deep equality *)

Section DeepEqual.
Import Assertion.
Implicit Types (a b x y : Value) (props : list (string * Value)) (l : list Value).



Lemma deepEqual_object r1 p1 props1 hidden1 r2 p2 props2 hidden2 :
  deepEqual (VObject r1 p1 props1 hidden1) (VObject r2 p2 props2 hidden2)
  = Nat.eqb r1 r2
    || (sameProto p1 p2 && (length props1 =? length props2)%nat
        && forallb (keyEqual (props2 ++ hidden2)) props1).
Proof.
  simpl. destruct (Nat.eqb r1 r2); [done|]. simpl.
  destruct (sameProto p1 p2); [|done]. simpl.
  destruct (length props1 =? length props2)%nat; [|done]. simpl.
  induction props1 as [|[k x] props1 IH]; simpl; [done|].
  unfold keyEqual at 1. simpl. destruct (getOwn k (props2 ++ hidden2)) as [y|]; [|done].
  destruct (deepEqual x y); [apply IH|done].
Qed.





Lemma getOwn_app props1 props2 k :
  getOwn k (props1 ++ props2)
  = match getOwn k props1 with
    | Some x => Some x
    | None => getOwn k props2
    end.
Proof.
  induction props1 as [|[k' x'] props1 IH]; simpl; [done|].
  by destruct (String.eqb k' k).
Qed.

Lemma compareFinite_antisym m1 e1 m2 e2 :
  compareFinite m2 e2 m1 e1 = CompOpp (compareFinite m1 e1 m2 e2).
Proof. unfold compareFinite. rewrite (Z.min_comm e2 e1). apply Z.compare_antisym. Qed.

Lemma numberEquals_sym n1 n2 : numberEquals n1 n2 = numberEquals n2 n1.
Proof.
  destruct n1 as [|s1|m1 e1], n2 as [|s2|m2 e2]; simpl; try done.
  - by destruct s1, s2.
  - rewrite (compareFinite_antisym m1 e1 m2 e2).
    by destruct (compareFinite m1 e1 m2 e2).
Qed.

Lemma strictEquals_sym a b : strictEquals a b = strictEquals b a.
Proof.
  destruct a, b; simpl; try done;
    auto using Nat.eqb_sym, String.eqb_sym, Z.eqb_sym, numberEquals_sym.
  by destruct b0, b.
Qed.

Lemma getOwn_Some props k x :
  NoDup props.*1 → getOwn k props = Some x ↔ (k, x) ∈ props.
Proof.
  induction props as [|[k' x'] props IH]; simpl.
  - intros _. split; [done|]. by intros ?%elem_of_nil.
  - intros [Hk Hnd]%NoDup_cons. rewrite elem_of_cons.
    destruct (String.eqb_spec k' k) as [->|Hne].
    + split; [intros [= ->]; by left|].
      intros [[= ->]|Hin]; [done|]. destruct Hk.
      apply list_elem_of_fmap. by exists (k, x).
    + rewrite (IH Hnd). split; [by right|]. intros [[= ? ?]|?]; [congruence|done].
Qed.

Lemma getOwn_None props k : getOwn k props = None ↔ k ∉ props.*1.
Proof.
  induction props as [|[k' x'] props IH]; simpl.
  - split; [intros _ ?%elem_of_nil; done|done].
  - rewrite not_elem_of_cons. destruct (String.eqb_spec k' k) as [->|Hne].
    + split; [done|]. by intros [? _].
    + rewrite IH. split; [done|]. by intros [_ ?].
Qed.



Lemma keyEqual_forall props1 props2 :
  forallb (keyEqual props2) props1 = true
  ↔ ∀ k x, (k, x) ∈ props1 → ∃ y, getOwn k props2 = Some y ∧ deepEqual x y = true.
Proof.
  rewrite forallb_forall. split.
  - intros H k x Hin%list_elem_of_In. specialize (H _ Hin). unfold keyEqual in H.
    simpl in H. destruct (getOwn k props2) as [y|]; [eauto|done].
  - intros H [k x] Hin%list_elem_of_In. destruct (H k x Hin) as (y & Hy & Hxy).
    unfold keyEqual. simpl. by rewrite Hy.
Qed.




End DeepEqual.

Section Matchers.
Import Assertion.
Context (stringify : Value → Completion string) (newError : string → JsValue).
Implicit Types (a b x y expected : Value) (this : Assertion).
Implicit Types (props : list (string * Value)).

Lemma numberEquals_refl n : n ≠ NaN → numberEquals n n = true.
Proof.
  destruct n as [|s|m e]; simpl; [done|by destruct s|].
  intros _. unfold compareFinite. by rewrite Z.compare_refl.
Qed.

Lemma strictEquals_refl a : a ≠ VNumber NaN → strictEquals a a = true.
Proof.
  destruct a; simpl; intros Ha;
    rewrite ?Nat.eqb_refl, ?String.eqb_refl, ?Z.eqb_refl; try done.
  - by destruct b.
  - apply numberEquals_refl. congruence.
Qed.

Lemma deepEqual_strict a b : strictEquals a b = true → deepEqual a b = true.
Proof. destruct a; simpl; destruct b; simpl; try done; by intros ->. Qed.

Lemma deepEqual_refl a : deepEqual a a = true ↔ a ≠ VNumber NaN.
Proof.
  split.
  - by intros H ->.
  - intros Ha. by apply deepEqual_strict, strictEquals_refl.
Qed.

(** X18.  [deepEqual] does not look at the order of the keys, nor at
    the identity of the two objects, nor at their properties that are
    not enumerable: two objects with the same prototype and the same
    enumerable properties in any order are deeply equal, unless a
    property holds NaN.  Two objects with the same prototype and no
    enumerable property are always deeply equal. *)
Theorem deepEqual_ignores_key_order r1 r2 proto props1 props2 hidden1 hidden2 :
  NoDup props1.*1 →
  props1 ≡ₚ props2 →
  (∀ k x, (k, x) ∈ props1 → x ≠ VNumber NaN) →
  deepEqual (VObject r1 proto props1 hidden1) (VObject r2 proto props2 hidden2) = true.
Proof.
  intros Hnd Hperm Hnan. rewrite deepEqual_object.
  assert (sameProto proto proto = true) as ->.
  { destruct proto; simpl; [apply Nat.eqb_refl|done]. }
  rewrite (Permutation_length Hperm), Nat.eqb_refl. simpl.
  apply orb_true_iff. right. apply keyEqual_forall. intros k x Hx.
  exists x. split; [|by eapply deepEqual_refl, Hnan].
  rewrite getOwn_app.
  assert (getOwn k props2 = Some x) as ->; [|done].
  apply getOwn_Some; [by rewrite <- Hperm|by rewrite <- Hperm].
Qed.

Lemma throwError_throws (message : Completion string) :
  throwError newError message ≠ (Normal tt : Completion unit).
Proof. unfold throwError. by destruct message. Qed.

(** X19.  [expect(a).toEqual(a)] passes for every value but NaN, for
    which it throws. *)
Theorem toEqual_itself a :
  toEqual stringify newError (expect a) a = Normal tt ↔ a ≠ VNumber NaN.
Proof.
  unfold toEqual, check, expect. simpl. rewrite <- deepEqual_refl.
  destruct (deepEqual a a); simpl; [done|].
  split; [|done]. by intros ?%throwError_throws.
Qed.



(** X21.  The four comparisons throw when either operand is not a
    number, whether the assertion is negated or not. *)
Theorem comparisons_with_a_non_number this expected :
  (∀ n, actual this ≠ VNumber n) ∨ (∀ n, expected ≠ VNumber n) →
  toBeGreaterThan stringify newError this expected ≠ Normal tt ∧
  toBeGreaterThanOrEqual stringify newError this expected ≠ Normal tt ∧
  toBeLessThan stringify newError this expected ≠ Normal tt ∧
  toBeLessThanOrEqual stringify newError this expected ≠ Normal tt.
Proof.
  intros Hkind.
  assert (notNumbers this expected = true) as Hguard.
  { unfold notNumbers. apply orb_true_iff.
    destruct Hkind as [Hkind|Hkind]; [left|right].
    - destruct (actual this) as [| | | n | | | | | | | |]; try done. by destruct (Hkind n).
    - destruct expected as [| | | n | | | | | | | |]; try done. by destruct (Hkind n). }
  unfold toBeGreaterThan, toBeGreaterThanOrEqual, toBeLessThan, toBeLessThanOrEqual.
  rewrite Hguard. repeat split; apply throwError_throws.
Qed.

(** X22.  When an operand is NaN, each of the four comparisons throws
    on the plain assertion and passes on the negated one. *)
Theorem comparisons_with_NaN negated n m :
  n = NaN ∨ m = NaN →
  let this := mkAssertion (VNumber n) negated in
  let passes (outcome : Completion unit) := outcome = Normal tt in
  (passes (toBeGreaterThan stringify newError this (VNumber m)) ↔ negated = true) ∧
  (passes (toBeGreaterThanOrEqual stringify newError this (VNumber m)) ↔ negated = true) ∧
  (passes (toBeLessThan stringify newError this (VNumber m)) ↔ negated = true) ∧
  (passes (toBeLessThanOrEqual stringify newError this (VNumber m)) ↔ negated = true).
Proof.
  intros Hnan. simpl.
  unfold toBeGreaterThan, toBeGreaterThanOrEqual, toBeLessThan, toBeLessThanOrEqual,
    notNumbers, check. simpl.
  assert (numberLess m n = false ∧ numberLess n m = false
          ∧ numberLessOrEqual m n = false ∧ numberLessOrEqual n m = false)
    as (-> & -> & -> & ->).
  { destruct Hnan as [-> | ->]; [by destruct m as [|[]|]|by destruct n as [|[]|]]. }
  destruct negated; simpl; repeat split; intros H; try done;
    by apply throwError_throws in H.
Qed.


End Matchers.

(** ** Invariants along the tree

    The rules of [Holds] again, for invariants that depend on where the
    runner is: the steps of a visit are those of a block of the tree,
    and a test that is run is a test the options accept. *)

Section Parents.
Context {W : Type}.
Implicit Types (anc : list (DescribeBlock W)) (b c p : DescribeBlock W) (id : BlockId).

Lemma Node_child anc0 id0 b0 anc id b k c :
  Node anc0 id0 b0 anc id b → children b !! k = Some c →
  Node anc0 id0 b0 (b :: anc) (k :: id) c.
Proof.
  induction 1 as [anc id b|anc id b k' c' anc' id' b' Hk' _ IH]; intros Hk.
  - eapply node_child; [done|constructor].
  - eapply node_child; [done|]. by apply IH.
Qed.

Lemma Node_cases anc id b anc' id' b' :
  Node anc id b anc' id' b' →
  (anc' = anc ∧ id' = id ∧ b' = b)
  ∨ ∃ k c, children b !! k = Some c ∧ Node (b :: anc) (k :: id) c anc' id' b'.
Proof. inversion 1; subst; eauto. Qed.

(** A block below [b0] is a child of a block of the subtree of [b0]. *)
Lemma Node_parent anc0 id0 b0 anc id b :
  Node anc0 id0 b0 anc id b →
  (anc = anc0 ∧ id = id0 ∧ b = b0)
  ∨ ∃ p anc' k id',
      anc = p :: anc' ∧ id = k :: id' ∧ Node anc0 id0 b0 anc' id' p
      ∧ children p !! k = Some b.
Proof.
  induction 1 as [anc id b|anc id b k c anc' id' b' Hk _ IH]; [by left|].
  right. destruct IH as [(-> & -> & ->)|(p & anc'' & k' & id'' & -> & -> & Hp & Hk')].
  - exists b, anc, k, id. repeat split; [constructor|done].
  - exists p, anc'', k', id''. repeat split; [|done]. by eapply node_child.
Qed.

(** The ancestors of a block of the tree are blocks of the tree, each at
    the position that [lineageLoop] gives it. *)
Lemma lineage_nodes root ran (chain : list (DescribeBlock W)) : ∀ id b anc acc,
  chain = b :: anc →
  Node [] [] root anc id b →
  ∀ a blk, (a, blk) ∈ lineageLoop ran id chain acc →
    (a, blk) ∈ acc ∨ ∃ anc', Node [] [] root anc' a blk.
Proof.
  induction chain as [|b' chain IH]; intros id b anc acc Hchain Hnode a blk; [done|].
  injection Hchain as -> ->. simpl.
  destruct (decide (id ∈ ran)); [by left|].
  destruct anc as [|p anc'].
  - simpl. rewrite elem_of_cons. intros [[= -> ->]|Hin]; [right; eauto|by left].
  - destruct (Node_parent _ _ _ _ _ _ Hnode)
      as [(? & _)|(p' & anc'' & k & id' & [= <- <-] & -> & Hp & Hk)]; [done|].
    simpl. intros Hin.
    destruct (IH id' p anc' ((k :: id', b) :: acc) eq_refl Hp a blk Hin) as [Hacc|Hn];
      [|by right].
    apply elem_of_cons in Hacc as [[= -> ->]|Hacc]; [right; eauto|by left].
Qed.

End Parents.

Section AlongTheTree.
Context {W : Type} (perf_now : W → Z) (options : RunOptions W).
Context (root : DescribeBlock W) (I E : RunState W → Prop).
Implicit Types (anc chain : list (DescribeBlock W)) (block : DescribeBlock W).
Implicit Types (id : BlockId) (st : RunState W).

Hypothesis Hentry : ∀ id,
  Holds I E (bind (markExecuted id) (fun _ => logStep (Entered id))).
Hypothesis Hbefore : ∀ anc id block,
  Node [] [] root anc id block →
  Holds I E (beforeAllPhase options id (block :: anc) (getSuitePath (block :: anc))).
Hypothesis Htest : ∀ anc id block i testCase,
  Node [] [] root anc id block →
  tests block !! i = Some testCase →
  shouldRun options (getSuitePath (block :: anc)) (tc_name testCase) = true →
  Holds I E (runTestCase perf_now options id i (block :: anc)
               (getSuitePath (block :: anc)) testCase).
Hypothesis Hafter : ∀ anc id block ok,
  Node [] [] root anc id block →
  Holds I E (afterAllPhase options id block (getSuitePath (block :: anc)) ok).
Hypothesis Hbail : Holds I E (@raiseBail W).

Lemma HoldsAt_testLoop anc id block rest : ∀ done_,
  Node [] [] root anc id block →
  tests block = done_ ++ rest →
  Holds I E (testLoop perf_now options id (block :: anc) (getSuitePath (block :: anc))
               rest (length done_)).
Proof.
  induction rest as [|testCase rest IH]; intros done_ Hnode Htests; simpl;
    [apply Holds_ret|].
  assert (Holds I E
            (testLoop perf_now options id (block :: anc) (getSuitePath (block :: anc))
               rest (S (length done_)))) as Hrest.
  { specialize (IH (done_ ++ [testCase]) Hnode). rewrite length_app in IH. simpl in IH.
    rewrite Nat.add_1_r in IH. apply IH. by rewrite <- app_assoc. }
  apply Holds_getState. intros st. destruct (globalBail st); [apply Holds_ret|].
  destruct (shouldRun _ _ _) eqn:Hrun; simpl; [|done].
  apply Holds_bind.
  - apply (Htest anc id block (length done_) testCase Hnode); [|done].
    rewrite Htests. by rewrite list_lookup_middle.
  - intros []; [apply Holds_ret|done].
Qed.

Lemma HoldsAt_childLoop (run : nat → DescribeBlock W → M W bool) cs : ∀ i,
  (∀ k c, cs !! k = Some c → Holds I E (run (i + k)%nat c)) →
  Holds I E (childLoop run cs i).
Proof.
  induction cs as [|c cs IH]; intros i Hcs; simpl; [apply Holds_ret|].
  apply Holds_getState. intros st. destruct (globalBail st); [apply Holds_ret|].
  apply Holds_bind.
  - specialize (Hcs 0%nat c eq_refl). by rewrite Nat.add_0_r in Hcs.
  - intros []; simpl; [|apply Hbail]. apply IH. intros k c' Hk.
    specialize (Hcs (S k) c' Hk). by rewrite Nat.add_succ_r in Hcs.
Qed.

Lemma HoldsAt_runDescribeBlock block : ∀ anc id,
  Node [] [] root anc id block →
  Holds I E (runDescribeBlock perf_now options anc id block).
Proof.
  induction block as [n cs ts h1 h2 h3 h4 IH] using DescribeBlock_rect_nested.
  intros anc id Hnode. rewrite runDescribeBlock_eq.
  set (block := mkDescribeBlock n cs ts h1 h2 h3 h4) in *.
  apply Holds_getState. intros st. destruct (globalBail st); [apply Holds_ret|].
  intros st0 r st0' HI Hrun.
  assert (Holds I E
    (bind (bind (markExecuted id) (fun _ => logStep (Entered id))) (fun _ =>
     bind (beforeAllPhase options id (block :: anc) (getSuitePath (block :: anc)))
       (fun beforeAllSuccess =>
     bind getState (fun st1 =>
     bind (when (beforeAllSuccess && negb (globalBail st1))
             (testLoop perf_now options id (block :: anc)
                (getSuitePath (block :: anc)) (tests block) 0)) (fun _ =>
     bind getState (fun st2 =>
     bind (when (beforeAllSuccess && negb (globalBail st2))
             (childLoop
                (fun i child =>
                   runDescribeBlock perf_now options (block :: anc) (i :: id) child)
                (children block) 0)) (fun _ =>
     bind (afterAllPhase options id block (getSuitePath (block :: anc))
             beforeAllSuccess) (fun early =>
     match early with
     | Some r => ret r
     | None => bind getState (fun st3 => ret (negb (globalBail st3)))
     end))))))))) as Hall.
  { apply Holds_bind; [apply Hentry|]. intros _.
    apply Holds_bind; [by apply Hbefore|]. intros ok.
    apply Holds_getState. intros st1.
    apply Holds_bind.
    { apply Holds_when. by apply (HoldsAt_testLoop anc id block (tests block) []). }
    intros _. apply Holds_getState. intros st2.
    apply Holds_bind.
    { apply Holds_when, HoldsAt_childLoop. simpl. intros k c Hk.
      rewrite Forall_forall in IH. apply IH; [by eapply list_elem_of_lookup_2|].
      by eapply Node_child. }
    intros _. apply Holds_bind; [by apply Hafter|].
    intros [r0|]; [apply Holds_ret|]. apply Holds_getState. intros st3. apply Holds_ret. }
  by apply (Hall st0 r st0' HI).
Qed.

Lemma HoldsAt_topLoop tops : ∀ i,
  (∀ k c, tops !! k = Some c → children root !! (i + k)%nat = Some c) →
  Holds I E (topLoop perf_now options root tops i).
Proof.
  induction tops as [|top tops IH]; intros i Htops; simpl; [apply Holds_ret|].
  apply Holds_bind.
  - apply HoldsAt_runDescribeBlock. eapply node_child; [|constructor].
    specialize (Htops 0%nat top eq_refl). by rewrite Nat.add_0_r in Htops.
  - intros _. apply Holds_getState. intros st.
    destruct (globalBail st); [apply Holds_ret|]. apply IH. intros k c Hk.
    specialize (Htops (S k) c Hk). by rewrite Nat.add_succ_r in Htops.
Qed.

(** An invariant of the steps of the visits is an invariant of the run:
    it holds of the state before the [complete] event. *)
Lemma HoldsAt_run flags w :
  I (mkRunState w [] [] false (resetExecutionState [] root flags).1
       (resetExecutionState [] root flags).2 []) →
  ∃ r st1,
    topLoop perf_now options root (children root) 0
      (mkRunState w [] [] false (resetExecutionState [] root flags).1
         (resetExecutionState [] root flags).2 []) = (r, st1) ∧
    match r with
    | Normal _ =>
        I st1 ∧
        runTests perf_now options root flags w
        = (match (emit options (EvComplete (results st1)) st1).1 with
           | Normal _ => Normal (results st1)
           | Abrupt v => Abrupt v
           end,
           (emit options (EvComplete (results st1)) st1).2)
    | Abrupt v => E st1 ∧ runTests perf_now options root flags w = (Abrupt v, st1)
    end.
Proof.
  intros HI.
  destruct (topLoop perf_now options root (children root) 0 _) as [r st1] eqn:Htop.
  exists r, st1. split; [done|].
  pose proof (HoldsAt_topLoop (children root) 0 (fun k c Hk => Hk) _ _ _ HI Htop) as Hst1.
  destruct r as [[]|v]; simpl in Hst1; (split; [done|]);
    unfold runTests; unfold bind at 1; rewrite Htop; [|done].
  unfold bind, getState, ret. simpl.
  by destruct (emit options (EvComplete (results st1)) st1) as [[[]|v] st2].
Qed.

End AlongTheTree.

(** ** Tests the options reject *)

Section Accepted.
Context {W : Type} (perf_now : W → Z) (options : RunOptions W).
Implicit Types (root : DescribeBlock W) (flags : gset BlockId * gset BlockId) (w : W).

Lemma AllAccepted_run root flags w :
  AllAccepted options (runTests perf_now options root flags w).2.
Proof.
  destruct (HoldsAt_run perf_now options root (AllAccepted options) (AllAccepted options))
    with (flags := flags) (w := w) as (r & st1 & Htop & Hrun).
  - unfold AllAccepted. step_by_step.
  - intros anc id block _. apply Holds_beforeAllPhase.
    + unfold AllAccepted. step_by_step.
    + intros. unfold AllAccepted. step_by_step.
      all: destruct_and?; rewrite ?Forall_app; repeat split; try done;
        apply Forall_singleton; simpl; by right.
  - intros anc id block i testCase _ _ Hrun. unfold AllAccepted. step_by_step.
    all: destruct_and?; rewrite ?Forall_app; repeat split; try done;
      apply Forall_singleton; simpl; first [exact Hrun|by left].
  - intros anc id block ok _. unfold AllAccepted. step_by_step.
    all: destruct_and?; rewrite ?Forall_app; repeat split; try done;
      apply Forall_singleton; simpl; by right.
  - unfold AllAccepted. step_by_step.
  - by split; constructor.
  - destruct r as [[]|v]; destruct Hrun as [[Hr He] ->]; simpl; [|done].
    unfold AllAccepted, emit. destruct (opt_onEvent options) as [onEvent|]; [|done].
    destruct (onEvent _ _) as [[thrown|] w1]; simpl;
      (split; [done|]); apply Forall_app; (split; [done|]); by apply Forall_singleton.
Qed.

(** C9.  Every result of a run and every event it emits carries the
    suite path and the name of a test that the filter and [only] accept,
    or is the report of a failed before-all or after-all phase (a failed
    result, or a [fail] event, of duration 0 under the test name
    [(beforeAll hook)] or [(afterAll hook)]).  So for a test that the
    options reject: no [start] and no [pass] event carries its suite path
    and name; a result or a [fail] event that does is the report of a
    phase, which needs the test to bear one of the two names; and no
    result has status [skipped]. *)
Theorem rejected_tests_leave_no_trace root flags w :
  Forall (resultAccepted options) (results (runTests perf_now options root flags w).2) ∧
  Forall (eventAccepted options) (events (runTests perf_now options root flags w).2) ∧
  (∀ rs, (runTests perf_now options root flags w).1 = Normal rs →
         Forall (resultAccepted options) rs ∧ Forall notSkipped rs) ∧
  Forall notSkipped (results (runTests perf_now options root flags w).2) ∧
  (∀ suite test,
     shouldRun options suite test = false →
     (∀ ev, ev ∈ events (runTests perf_now options root flags w).2 →
        ev ≠ EvStart suite test ∧ ∀ duration, ev ≠ EvPass suite test duration) ∧
     (∀ duration error,
        EvFail suite test duration error
          ∈ events (runTests perf_now options root flags w).2 →
        isHookReport test = true ∧ duration = 0) ∧
     (∀ r, r ∈ results (runTests perf_now options root flags w).2 →
        tr_suite r = suite → tr_test r = test →
        isHookReport test = true ∧ tr_status r = failed ∧ tr_duration r = 0)).
Proof.
  destruct (AllAccepted_run root flags w) as [Hresults Hevents].
  destruct (runTests_shape perf_now options root flags w) as (_ & Hns & Hreturned).
  split; [done|]. split; [done|]. split; [|split; [done|]].
  { intros rs Hrs. by rewrite (Hreturned rs Hrs). }
  rewrite Forall_forall in Hresults. rewrite Forall_forall in Hevents.
  intros suite test Hrejected. split; [|split].
  - intros ev Hev. specialize (Hevents ev Hev).
    split; [intros ->|intros duration ->]; simpl in Hevents; congruence.
  - intros duration error Hev. specialize (Hevents _ Hev). simpl in Hevents.
    destruct Hevents as [?|?]; [congruence|done].
  - intros r Hr <- <-. destruct (Hresults r Hr) as [?|?]; [congruence|done].
Qed.

End Accepted.

(** ** The calls of the before-all hooks *)

Section Recorded.
Context {W : Type} (perf_now : W → Z) (options : RunOptions W).
Context (log : W → list HookCall) (root : DescribeBlock W).
Hypothesis Hrecorded : Recorded log options root.
Implicit Types (anc chain : list (DescribeBlock W)) (block b : DescribeBlock W).
Implicit Types (id : BlockId) (st : RunState W) (hooks : list (HookFn W)) (w : W).

(** *** Hooks that leave the log alone *)

Lemma runHooks_quiet hooks :
  (∀ hook w, hook ∈ hooks → log (hook w).2 = log w) →
  ∀ w, log (runHooks hooks w).2 = log w.
Proof.
  induction hooks as [|hook hooks IH]; intros Hq w; simpl; [done|].
  pose proof (Hq hook w (list_elem_of_here _ _)) as Hhook.
  destruct (hook w) as [[error|] w1]; simpl in *; [done|].
  rewrite IH; [done|]. intros hook' w' Hin. apply Hq. by right.
Qed.

Lemma elem_of_rev_list {A} (x : A) (l : list A) : x ∈ rev l ↔ x ∈ l.
Proof. rewrite !list_elem_of_In. symmetry. apply in_rev. Qed.

Lemma elem_of_concat_map {A B} (f : A → list B) (l : list A) (x : B) :
  x ∈ concat (map f l) ↔ ∃ a, a ∈ l ∧ x ∈ f a.
Proof.
  induction l as [|a l IH]; simpl.
  - split; [by intros ?%elem_of_nil|]. by intros (a & ?%elem_of_nil & _).
  - rewrite elem_of_app, IH. split.
    + intros [Hx|(a' & Ha' & Hx)]; [exists a; split; [by left|done]|].
      exists a'. split; [by right|done].
    + intros (a' & [->|Ha']%elem_of_cons & Hx); [by left|right; eauto].
Qed.

Lemma chain_nodes anc : ∀ id b b',
  Node [] [] root anc id b → b' ∈ b :: anc → ∃ anc' id', Node [] [] root anc' id' b'.
Proof.
  induction anc as [|p anc IH]; intros id b b' Hnode Hin.
  - apply list_elem_of_singleton in Hin as ->. eauto.
  - apply elem_of_cons in Hin as [->|Hin]; [eauto|].
    destruct (Node_parent _ _ _ _ _ _ Hnode)
      as [(? & _)|(p' & anc' & k & id' & [= <- <-] & -> & Hp & _)]; [done|].
    by eapply IH.
Qed.

Lemma collected_quiet anc id b type hook w :
  Node [] [] root anc id b → type ≠ BeforeAll →
  hook ∈ collectHooks (b :: anc) type → log (hook w).2 = log w.
Proof.
  intros Hnode Htype Hin.
  assert (∃ b', (b' ∈ b :: anc) ∧ hook ∈ hooksOf type b') as (b' & Hb' & Hhook).
  { rewrite collectHooks_chain in Hin.
    destruct type; [done| | |];
      apply elem_of_concat_map in Hin as (b' & Hb' & Hin);
      exists b'; (split; [|done]); [apply elem_of_rev_list; exact Hb'|done|done]. }
  destruct (chain_nodes _ _ _ _ Hnode Hb') as (anc' & id' & Hnode').
  destruct Hrecorded as [Hblocks _].
  destruct (Hblocks _ _ _ Hnode') as (_ & Hother & _).
  apply Hother. destruct type; [done| | |]; simpl in Hhook; set_solver.
Qed.

(** *** The hooks of a lineage *)

Lemma runHooks_labelled hooks (labels : list HookCall) :
  Forall2 (fun hook call => ∀ w, log (hook w).2 = log w ++ [call]) hooks labels →
  ∀ w, ∃ calls, calls `prefix_of` labels ∧ log (runHooks hooks w).2 = log w ++ calls.
Proof.
  induction 1 as [|hook call hooks labels Hcall _ IH]; intros w; simpl.
  - exists []. split; [done|]. by rewrite app_nil_r.
  - specialize (Hcall w). destruct (hook w) as [[error|] w1]; simpl in Hcall.
    + exists [call]. split; [|done]. by apply prefix_cons, prefix_nil.
    + destruct (IH w1) as (calls & Hprefix & Hlog). exists (call :: calls).
      split; [by apply prefix_cons|]. by rewrite Hlog, Hcall, <- app_assoc.
Qed.

Lemma lineage_labelled (lineage : list (BlockId * DescribeBlock W)) :
  (∀ a blk, (a, blk) ∈ lineage → ∃ anc', Node [] [] root anc' a blk) →
  Forall2 (fun hook call => ∀ w, log (hook w).2 = log w ++ [call])
    (concat (map (fun p => beforeAllHooks p.2) lineage)) (callsOf lineage).
Proof.
  induction lineage as [|[a blk] lineage IH]; intros Hnodes; [constructor|].
  unfold callsOf. simpl. apply Forall2_app.
  - destruct (Hnodes a blk) as [anc' Hnode]; [by left|].
    destruct Hrecorded as [Hblocks _]. destruct (Hblocks _ _ _ Hnode) as (Hrec & _).
    apply Forall2_same_length_lookup_2; [by rewrite length_imap|].
    intros k hook call Hhook Hcall. rewrite list_lookup_imap, Hhook in Hcall.
    injection Hcall as <-. intros w. by apply Hrec.
  - apply IH. intros a' blk' Hin. apply Hnodes. by right.
Qed.

Lemma callsOf_owner (lineage : list (BlockId * DescribeBlock W)) n k :
  (n, k) ∈ callsOf lineage → n ∈ lineage.*1.
Proof.
  unfold callsOf. intros ([a blk] & Hin & Hcall)%elem_of_concat_map.
  apply elem_of_lookup_imap_1 in Hcall as (i & hook & [= -> ->] & _).
  apply list_elem_of_fmap. by exists (a, blk).
Qed.

Lemma callsOf_NoDup (lineage : list (BlockId * DescribeBlock W)) :
  NoDup lineage.*1 → NoDup (callsOf lineage).
Proof.
  induction lineage as [|[a blk] lineage IH]; [constructor|].
  intros [Ha Hnd]%NoDup_cons. unfold callsOf. simpl. apply NoDup_app.
  split; [|split; [|by apply IH]].
  - apply NoDup_alt. intros i j call Hi Hj.
    apply list_lookup_imap_Some in Hi as (hi & _ & ->).
    apply list_lookup_imap_Some in Hj as (hj & _ & [= ->]). done.
  - intros [n k] (i & hook & [= -> ->] & _)%elem_of_lookup_imap_1 Hin.
    by apply callsOf_owner in Hin.
Qed.

Lemma markLoop_world (lineage : list (BlockId * DescribeBlock W)) : ∀ hooks st r st',
  markLoop lineage hooks st = (r, st') → world st' = world st.
Proof.
  induction lineage as [|[a blk] lineage IH]; intros hooks st r st'; simpl.
  - by intros [= <- <-].
  - unfold bind at 1. simpl. unfold bind at 1. simpl. unfold bind at 1. simpl.
    intros Hrun. by apply IH in Hrun.
Qed.

Lemma runCollected_world id lineage suitePath hooks st r st' :
  runCollected options id lineage suitePath hooks st = (r, st') →
  ranBeforeAll st' = ranBeforeAll st ∧
  (world st' = world st ∨ log (world st') = log (runHooks hooks (world st)).2).
Proof.
  destruct Hrecorded as [_ Hhandler]. revert st r st'. step_by_step.
  all: split; [done|]; try (by left); right.
  all: try match goal with
       | H : ?p ?ev ?w = (_, ?w') |- _ =>
           match type of p with TestEvent → _ => idtac end;
           first [pose proof (Hhandler p ev w eq_refl) as Hq
                 |match goal with
                  | Hp : opt_onEvent options = Some p |- _ =>
                      pose proof (Hhandler p ev w Hp) as Hq
                  end];
           rewrite H in Hq; simpl in Hq
       end.
  all: congruence.
Qed.

Lemma Node_length anc0 id0 b0 anc id b :
  Node anc0 id0 b0 anc id b → length anc0 = length id0 → length anc = length id.
Proof. induction 1; intros Hlen; [done|]. apply IHNode. simpl. lia. Qed.

(** *** The invariant *)

Lemma CalledOnce_beforeAllPhase before anc id block :
  Node [] [] root anc id block →
  Holds (CalledOnce log before) (CalledOnce log before)
    (beforeAllPhase options id (block :: anc) (getSuitePath (block :: anc))).
Proof.
  intros Hnode st r st' (calls & Hlog & Hnd & Hflags) Hrun.
  assert (CalledOnce log before st'); [|by destruct r].
  pose proof (Node_length _ _ _ _ _ _ Hnode eq_refl) as Hlen.
  revert Hrun. remember (block :: anc) as chain eqn:Hchain.
  unfold beforeAllPhase. unfold bind at 1. simpl.
  destruct (decide (id ∈ ranBeforeAll st)) as [Hin|Hout].
  { intros [= <- <-]. by exists calls. }
  destruct (lineage_ids (ranBeforeAll st) chain id [])
    as (new & Heq & Hndnew & Hall & _); [rewrite Hchain; simpl; lia|].
  rewrite app_nil_r in Heq.
  destruct (markLoop_spec (lineageLoop (ranBeforeAll st) id chain []) [] st)
    as (st1 & Hmark & Hran1 & _).
  { by rewrite Heq. }
  { rewrite Heq. intros a Ha. by destruct (Hall a Ha). }
  intros [(hooks & st1' & Hm & Hrun)|(v & Hm & ->)]%bind_inv;
    rewrite Hmark in Hm; [|done].
  injection Hm as <- <-. simpl in Hrun.
  pose proof (markLoop_world _ _ _ _ _ Hmark) as Hw1.
  apply runCollected_world in Hrun as [Hran' [Hw|Hw]].
  { exists calls. rewrite Hw, Hw1. split; [done|]. split; [done|].
    intros n k Hin. rewrite Hran', Hran1. apply elem_of_union. right. eauto. }
  set (lineage := lineageLoop (ranBeforeAll st) id chain []) in *.
  destruct (runHooks_labelled
              (concat (map (fun p => beforeAllHooks p.2) lineage)) (callsOf lineage))
    with (w := world st1) as (calls' & Hprefix & Hlog').
  { apply lineage_labelled. intros a blk Hin.
    by destruct (lineage_nodes root _ _ _ _ _ [] Hchain Hnode a blk Hin)
      as [?%elem_of_nil|?]. }
  assert (∀ n k, (n, k) ∈ calls' → n ∈ new) as Hnew.
  { intros n k Hin. rewrite <- Heq. apply (callsOf_owner _ n k).
    destruct Hprefix as [rest ->]. apply elem_of_app. by left. }
  exists (calls ++ calls'). split; [|split].
  - by rewrite Hw, Hlog', Hw1, Hlog, <- app_assoc.
  - apply NoDup_app. split; [done|]. split.
    + intros [n k] Hold Hcall. destruct (Hall n (Hnew n k Hcall)) as [Hfresh _].
      apply Hfresh. eauto.
    + destruct Hprefix as [rest Hrest].
      assert (NoDup (callsOf lineage)) as Hall_nd by (apply callsOf_NoDup; by rewrite Heq).
      rewrite Hrest in Hall_nd. by apply NoDup_app in Hall_nd as (? & _).
  - intros n k [Hin|Hin]%elem_of_app; rewrite Hran', Hran1, Heq; apply elem_of_union.
    + right. eauto.
    + left. apply elem_of_list_to_set. eauto.
Qed.

(** Everything else leaves the log and the flags alone. *)
Ltac quiet_steps HB HA HT HE :=
  repeat match goal with
  | H : ?p ?ev ?w = (_, _) |- _ =>
      match type of p with TestEvent → _ => idtac end;
      let Hq := fresh "Hq" in
      first [pose proof (HE p ev w eq_refl) as Hq
            |match goal with
             | Hp : opt_onEvent options = Some p |- _ => pose proof (HE p ev w Hp) as Hq
             end];
      rewrite H in Hq; simpl in Hq; clear H
  | H : runHooks ?hooks ?w = (_, _) |- _ =>
      let Hq := fresh "Hq" in
      first [pose proof (HB w) as Hq; rewrite H in Hq
            |pose proof (HA w) as Hq; rewrite H in Hq];
      simpl in Hq; clear H
  | H : tc_fn _ ?w = (_, _) |- _ =>
      let Hq := fresh "Hq" in
      pose proof (HT w) as Hq; rewrite H in Hq; simpl in Hq; clear H
  end.

Lemma runTestCase_quiet anc id block i testCase st r st' :
  Node [] [] root anc id block →
  testCase ∈ tests block →
  runTestCase perf_now options id i (block :: anc) (getSuitePath (block :: anc))
    testCase st = (r, st') →
  log (world st') = log (world st) ∧ ranBeforeAll st' = ranBeforeAll st.
Proof.
  intros Hnode Htest.
  pose proof (runHooks_quiet (collectHooks (block :: anc) BeforeEach)
                (fun hook w Hin =>
                   collected_quiet anc id block BeforeEach hook w Hnode
                     ltac:(done) Hin)) as HB.
  pose proof (runHooks_quiet (collectHooks (block :: anc) AfterEach)
                (fun hook w Hin =>
                   collected_quiet anc id block AfterEach hook w Hnode
                     ltac:(done) Hin)) as HA.
  destruct Hrecorded as [Hblocks HE].
  destruct (Hblocks _ _ _ Hnode) as (_ & _ & Htests).
  assert (∀ w, log (tc_fn testCase w).2 = log w) as HT by (intros w; by apply Htests).
  unfold runTestCase, testStage, cleanupStage.
  revert HB HA. generalize (collectHooks (block :: anc) BeforeEach).
  generalize (collectHooks (block :: anc) AfterEach). intros hooksA hooksB HB HA.
  clear Hblocks Htests Htest Hnode. revert st r st'. step_by_step.
  all: quiet_steps HB HA HT HE; split; congruence.
Qed.

Lemma afterAllPhase_quiet anc id block ok st r st' :
  Node [] [] root anc id block →
  afterAllPhase options id block (getSuitePath (block :: anc)) ok st = (r, st') →
  log (world st') = log (world st) ∧ ranBeforeAll st' = ranBeforeAll st.
Proof.
  intros Hnode.
  destruct Hrecorded as [Hblocks HE].
  destruct (Hblocks _ _ _ Hnode) as (_ & Hother & _).
  assert (∀ w, log (runHooks (afterAllHooks block) w).2 = log w) as HA.
  { apply runHooks_quiet. intros hook w Hin. apply Hother. set_solver. }
  unfold afterAllPhase.
  revert HA. generalize (afterAllHooks block). intros hooksA HA.
  clear Hblocks Hother Hnode. revert st r st'. step_by_step.
  all: quiet_steps HA HA HA HE; split; congruence.
Qed.

Lemma CalledOnce_quiet before st st' :
  log (world st') = log (world st) → ranBeforeAll st' = ranBeforeAll st →
  CalledOnce log before st → CalledOnce log before st'.
Proof. intros Hl Hr (calls & ? & ? & ?). exists calls. by rewrite Hl, Hr. Qed.

(** In a run, no before-all hook is called twice. *)
Lemma CalledOnce_run flags w :
  CalledOnce log (log w) (runTests perf_now options root flags w).2.
Proof.
  destruct (HoldsAt_run perf_now options root (CalledOnce log (log w))
              (CalledOnce log (log w)))
    with (flags := flags) (w := w) as (r & st1 & Htop & Hrun).
  - intros id st r st' HI Hstep. assert (CalledOnce log (log w) st'); [|by destruct r].
    revert Hstep. unfold bind, markExecuted, logStep. intros [= <- <-].
    by eapply CalledOnce_quiet; [| |exact HI].
  - intros anc id block Hnode. by apply CalledOnce_beforeAllPhase.
  - intros anc id block i testCase Hnode Hi _ st r st' HI Hstep.
    assert (CalledOnce log (log w) st'); [|by destruct r].
    apply runTestCase_quiet in Hstep as [Hl Hr]; [|done|by eapply list_elem_of_lookup_2].
    by eapply CalledOnce_quiet.
  - intros anc id block ok Hnode st r st' HI Hstep.
    assert (CalledOnce log (log w) st'); [|by destruct r].
    apply afterAllPhase_quiet in Hstep as [Hl Hr]; [|done]. by eapply CalledOnce_quiet.
  - intros st r st' HI [= <- <-]. by eapply CalledOnce_quiet; [| |exact HI].
  - exists []. split; [by rewrite app_nil_r|]. split; [constructor|].
    intros n k Hin. by apply elem_of_nil in Hin.
  - assert (CalledOnce log (log w) st1) as Hst1 by (by destruct r; destruct Hrun).
    assert (runTests perf_now options root flags w
            = ((runTests perf_now options root flags w).1, st1)
            ∨ (runTests perf_now options root flags w).2
              = (emit options (EvComplete (results st1)) st1).2) as [->| ->].
    { destruct r; destruct Hrun as [_ ->]; [by right|by left]. }
    + done.
    + eapply CalledOnce_quiet; [| |exact Hst1].
      * destruct Hrecorded as [_ HE]. unfold emit.
        destruct (opt_onEvent options) as [onEvent|] eqn:Hon; [|done].
        specialize (HE onEvent (EvComplete (results st1)) (world st1) eq_refl).
        by destruct (onEvent _ _) as [[thrown|] w1].
      * by destruct (emit_fields options (EvComplete (results st1)) st1)
          as (_ & _ & _ & -> & _).
Qed.

End Recorded.

Section BeforeAllOnce.
Context {W : Type} (perf_now : W → Z) (options : RunOptions W).
Implicit Types (root : DescribeBlock W) (flags : gset BlockId * gset BlockId) (w : W).

(** C3 (amended).  Within one call of [runTests]:
    - no before-all hook is called twice, however many blocks below its
      block are visited: when the before-all hooks record their calls,
      the calls recorded during the run are pairwise distinct, and each
      is the call of a hook of a block whose flag is set;
    - the [ranBeforeAll] flag of a block is set at most once, and only
      from [false]; it is set exactly once when the runner enters the
      block, and is only ever set for an entered block or one of its
      ancestors (a block that is never reached keeps its flag clear);
    - the flag of every block of a lineage is set before [runHooks] is
      called on the hooks of that lineage, and [runHooks] is called at
      most once on a lineage that holds a given block.
    Nothing here protects a hook that calls [runTests] itself: the call
    clears every flag (see [reentrant_hook_runs_again]). *)
Theorem before_all_runs_at_most_once root flags w (log : W → list HookCall) :
  (Recorded log options root →
   ∃ calls,
     log (world (runTests perf_now options root flags w).2) = log w ++ calls ∧
     NoDup calls ∧
     ∀ n k, (n, k) ∈ calls → n ∈ ranBeforeAll (runTests perf_now options root flags w).2) ∧
  (∀ n, (length (List.filter (setsFlagOf n)
                   (history (runTests perf_now options root flags w).2)) ≤ 1)%nat) ∧
  (∀ n old, SetRanBeforeAll n old ∈ history (runTests perf_now options root flags w).2 →
            old = false) ∧
  (∀ n, Entered n ∈ history (runTests perf_now options root flags w).2 →
        length (List.filter (setsFlagOf n)
                  (history (runTests perf_now options root flags w).2)) = 1%nat) ∧
  (∀ n old, SetRanBeforeAll n old ∈ history (runTests perf_now options root flags w).2 →
            ∃ b, Entered b ∈ history (runTests perf_now options root flags w).2
                 ∧ suffix n b) ∧
  (∀ h1 b l h2,
     history (runTests perf_now options root flags w).2 = h1 ++ BeforeAllRun b l :: h2 →
     ∀ n, n ∈ l → SetRanBeforeAll n false ∈ h1) ∧
  (∀ n, (length (List.filter (runsBeforeAllOf n)
                   (history (runTests perf_now options root flags w).2)) ≤ 1)%nat) ∧
  (∀ b l, BeforeAllRun b l ∈ history (runTests perf_now options root flags w).2 →
          NoDup l).
Proof.
  destruct (ranBeforeAll_set_at_most_once perf_now options root flags w)
    as (H1 & H2 & H3 & H4 & H5 & H6 & H7).
  split; [|done].
  intros Hrecorded. by apply CalledOnce_run.
Qed.

End BeforeAllOnce.

(** ** The properties at work *)

Section Examples.
Import Scenario MoreScenarios.

Lemma extractTags_without_at_witness :
  ("@"%char ∉ chars "Outer suite") ∧
  extractTags "Outer suite" = (trim "Outer suite", []).
Proof.
  assert ("@"%char ∉ chars "Outer suite") as Hat.
  { apply (bool_decide_unpack _). vm_compute. exact I. }
  split; [exact Hat|exact (extractTags_without_at "Outer suite" Hat)].
Defined.

Lemma nodeB : Node [] [] treeAB [suiteA; treeAB] [0%nat; 0%nat] suiteB.
Proof.
  apply (node_child [] [] treeAB 0 suiteA); [vm_compute; reflexivity|].
  apply (node_child [treeAB] [0%nat] suiteA 0 suiteB); [vm_compute; reflexivity|].
  apply node_self.
Defined.

Lemma getSuitePath_names_witness :
  Node [] [] treeAB [suiteA; treeAB] [0%nat; 0%nat] suiteB ∧
  getSuitePath [suiteB; suiteA; treeAB]
  = join " > " (name <$> tail (blocksOnPath (rev [0%nat; 0%nat]) treeAB)).
Proof.
  split; [exact nodeB|].
  exact (getSuitePath_names treeAB [suiteA; treeAB] [0%nat; 0%nat] suiteB nodeB).
Defined.

Lemma describe_only_appends_witness :
  currentDescribeBlock (initialRegistry (W := Log)) = Some [] ∧
  currentDescribeBlock
    (describe "A @slow" (it "t1" (push "t1")) initialRegistry).2 = Some [].
Proof.
  split; [reflexivity|].
  exact (proj2 (proj2 (proj2
    (describe_only_appends "A @slow" (it "t1" (push "t1")) initialRegistry []
       (createDescribeBlock "Root")
       (it_only_appends "t1" (push "t1")) eq_refl eq_refl)))).
Defined.

Lemma resetRegistry_witness :
  Extends (rootDescribeBlock (initialRegistry (W := Log))) (rootDescribeBlock withOrphan) ∧
  resetRegistry withOrphan = (Normal tt, initialRegistry).
Proof.
  assert (Extends (rootDescribeBlock (initialRegistry (W := Log)))
            (rootDescribeBlock withOrphan)) as Hext.
  { apply it_only_appends. }
  split; [exact Hext|exact (resetRegistry_restores_the_initial_registry withOrphan Hext)].
Defined.

Lemma parseError_first_test_frame_witness :
  stackLines (StackString stackOfBoom) = Normal linesOfBoom ∧
  parseError (JsErrorObject "Error" "boom" (StackString stackOfBoom))
  = Normal (mkSafeError (Some "Error") "boom" (Some "C:\proj\test\a.test.ts")
              (Some (Finite 10 0)) (Some (Finite 15 0)) (Some linesOfBoom)).
Proof.
  assert (stackLines (StackString stackOfBoom) = Normal linesOfBoom) as Hlines.
  { vm_compute. reflexivity. }
  split; [exact Hlines|].
  etrans; [exact (parseError_reports_first_test_frame "Error" "boom"
                    (StackString stackOfBoom) linesOfBoom Hlines)|].
  vm_compute. reflexivity.
Defined.

Lemma parseError_returns_witness :
  (∃ thrown, JsNonError "oops" = JsUnprintable thrown) ∨
  ∃ r, parseError (JsNonError "oops") = Normal r.
Proof.
  right. apply (parseError_returns (JsNonError "oops")). intros thrown. discriminate.
Defined.


Lemma test_outcome_precedence_witness :
  (runTestCase clock defaultOptions [0%nat] 0 [suiteA; treeAB] "A"
     (mkTestCase "t1" (pushThenThrow "t1" boom) []) freshState).1 = Normal false ∧
  ∃ status duration error,
    results (runTestCase clock defaultOptions [0%nat] 0 [suiteA; treeAB] "A"
               (mkTestCase "t1" (pushThenThrow "t1" boom) []) freshState).2
    = [mkTestResult "A" "t1" status duration error].
Proof.
  assert ((runTestCase clock defaultOptions [0%nat] 0 [suiteA; treeAB] "A"
             (mkTestCase "t1" (pushThenThrow "t1" boom) []) freshState).1
          = Normal false) as Hret.
  { vm_compute. reflexivity. }
  split; [exact Hret|].
  destruct (test_outcome_precedence clock defaultOptions [0%nat] 0%nat [suiteA; treeAB]
              "A" (mkTestCase "t1" (pushThenThrow "t1" boom) []) freshState false Hret)
    as (status & duration & error & Hresults & _).
  exists status, duration, error. exact Hresults.
Defined.

Lemma without_bail_witness :
  opt_bail defaultOptions = false ∧
  Entered [0%nat; 0%nat] ∈ history (run defaultOptions registerAB).2.
Proof.
  split; [reflexivity|].
  refine (proj1 (without_bail_every_test_runs clock defaultOptions eq_refl
                   (built registerAB) noFlags []
                   (results (run defaultOptions registerAB).2)
                   [suiteA; treeAB] [0%nat; 0%nat] suiteB _ nodeB _ _)).
  - vm_compute. reflexivity.
  - discriminate.
  - intros a _ _. apply (bool_decide_unpack _). vm_compute. exact I.
Defined.

(** The tree of [registerRecording] records the calls of its before-all
    hooks, and a run calls each of them once. *)
Lemma before_all_once_witness :
  Recorded (fun w => w) recordingOptions recordingTree ∧
  ∃ calls,
    world (runTests (fun _ => 0) recordingOptions recordingTree noFlags []).2
    = [] ++ calls ∧
    NoDup calls.
Proof.
  assert (Recorded (fun w => w) recordingOptions recordingTree) as Hrecorded.
  { split; [|done]. intros anc id b Hnode.
    apply Node_cases in Hnode as [(-> & -> & ->)|(k & c & Hk & Hnode)].
    { vm_compute. split; [|split].
      - by intros [|k] hook w Hhook.
      - intros hook w Hin. by apply elem_of_nil in Hin.
      - intros testCase w Hin. by apply elem_of_nil in Hin. }
    vm_compute in Hk. destruct k as [|[|k]]; try done. injection Hk as <-.
    apply Node_cases in Hnode as [(-> & -> & ->)|(k & c & Hk & Hnode)].
    { split; [|split].
      - intros [|[|[|k]]] hook w Hhook; vm_compute in Hhook; by simplify_eq.
      - intros hook w Hin. by apply elem_of_nil in Hin.
      - intros testCase w ->%list_elem_of_singleton. done. }
    vm_compute in Hk. destruct k as [|[|k]]; try done. injection Hk as <-.
    apply Node_cases in Hnode as [(-> & -> & ->)|(k & c & Hk & Hnode)].
    { split; [|split].
      - intros [|[|k]] hook w Hhook; vm_compute in Hhook; by simplify_eq.
      - intros hook w Hin. by apply elem_of_nil in Hin.
      - intros testCase w ->%list_elem_of_singleton. done. }
    vm_compute in Hk. by destruct k. }
  split; [exact Hrecorded|].
  destruct (proj1 (before_all_runs_at_most_once (fun _ => 0) recordingOptions
                     recordingTree noFlags [] (fun w => w)) Hrecorded)
    as (calls & Hlog & Hnd & _).
  exists calls. split; [exact Hlog|exact Hnd].
Defined.


(** With a property that is not enumerable, [deepEqual] depends on the
    order of its arguments: [{x: 1}] equals [{y: 2}] with a hidden [x]
    of value [1], and not the other way round. *)
Lemma deepEqual_with_a_hidden_key :
  Assertion.distinctKeys objectX ∧ Assertion.distinctKeys objectYHiddenX ∧
  Assertion.deepEqual objectX objectYHiddenX = true ∧
  Assertion.deepEqual objectYHiddenX objectX = false.
Proof.
  split; [|split; [|split; reflexivity]].
  - simpl. split; [|done]. apply (bool_decide_unpack _). vm_compute. exact I.
  - simpl. split; [|done]. apply (bool_decide_unpack _). vm_compute. exact I.
Qed.

Lemma key_order_witness :
  NoDup propsAB.*1 ∧ propsAB ≡ₚ propsBA ∧
  Assertion.deepEqual objectAB objectBA = true.
Proof.
  assert (NoDup propsAB.*1) as Hnd.
  { apply (bool_decide_unpack _). vm_compute. exact I. }
  assert (propsAB ≡ₚ propsBA) as Hperm by apply perm_swap.
  split; [exact Hnd|]. split; [exact Hperm|].
  apply (deepEqual_ignores_key_order 1 2 (Some 0%nat) propsAB propsBA [] [] Hnd Hperm).
  intros k x Hx. unfold propsAB in Hx.
  apply elem_of_cons in Hx as [[= _ ->]|Hx]; [discriminate|].
  apply elem_of_cons in Hx as [[= _ ->]|Hx]; [discriminate|].
  by apply elem_of_nil in Hx.
Defined.

Lemma comparisons_with_a_non_number_witness :
  ((∀ n, Assertion.actual (Assertion.not_ (Assertion.expect (Assertion.VString "1")))
         ≠ Assertion.VNumber n)
   ∨ (∀ n, one ≠ Assertion.VNumber n)) ∧
  Assertion.toBeGreaterThan hostStringify hostError
    (Assertion.not_ (Assertion.expect (Assertion.VString "1"))) one ≠ Normal tt.
Proof.
  assert (∀ n, Assertion.actual (Assertion.not_ (Assertion.expect (Assertion.VString "1")))
               ≠ Assertion.VNumber n) as Hstring by (intros n; discriminate).
  split; [left; exact Hstring|].
  exact (proj1 (comparisons_with_a_non_number hostStringify hostError
                  (Assertion.not_ (Assertion.expect (Assertion.VString "1"))) one
                  (or_introl Hstring))).
Defined.

Lemma comparisons_with_NaN_witness :
  (NaN = NaN ∨ Finite 1 0 = NaN) ∧
  (Assertion.toBeGreaterThan hostStringify hostError
     (Assertion.mkAssertion (Assertion.VNumber NaN) true) one = Normal tt
   ↔ true = true).
Proof.
  split; [by left|].
  exact (proj1 (comparisons_with_NaN hostStringify hostError true NaN
                  (Finite 1 0) (or_introl eq_refl))).
Defined.

End Examples.
